(** * nndownload: the media delivery engine

    A shallow embedding of the parts of [nndownload.py] that select a
    quality, pick a playlist variant, plan and run a transfer, count the
    progress of a multithreaded transfer and keep the DMC session alive,
    with the properties the specification states about them.

    Conventions of the embedding.
    - Python integers are [Z]; sizes and offsets stay in [Z] because the
      source subtracts them freely ([current_byte_pos - BLOCK_SIZE] can be
      negative).
    - [bytes] objects are [list byte]; [str] objects are [string]
      (ASCII; [str.lower] is modelled on the ASCII letters, which is what
      the quality identifiers of the platform are made of).
    - A Python function with side effects is a function of the monad
      [M St], state passing with exceptions: the state survives a raised
      exception, as the file system and the network log do.
    - The remote server is part of the environment and is modelled after
      RFC 7233 (byte ranges): see [serve_from] and [serve_range]. What a
      server does with a [Range] header that is no byte range is left to
      the server: see [ignores_invalid_range]. *)

From Stdlib Require Import ZArith Lia String Ascii.
From Stdlib.Strings Require Import Byte.
From stdpp Require Import base option list strings gmap.

Local Open Scope Z_scope.

(** ** Exceptions and the effect monad *)

Inductive exn : Type :=
  | ArgumentException (msg : string)
  | FormatNotAvailableException (msg : string)
  | HTTPError
  | IndexError
  | OSError
  | StopIteration
  | UnboundLocalError
  | RecursionError.

Inductive result (A : Type) : Type :=
  | Ok (a : A)
  | Raise (e : exn).
Arguments Ok {A} a.
Arguments Raise {A} e.

Definition M (St A : Type) : Type := St -> result A * St.

#[global] Instance M_ret {St} : MRet (M St) := fun A a s => (Ok a, s).

#[global] Instance M_bind {St} : MBind (M St) := fun A B k c s =>
  match c s with
  | (Ok a, s') => k a s'
  | (Raise e, s') => (Raise e, s')
  end.

Definition raise {St A} (e : exn) : M St A := fun s => (Raise e, s).
Definition get {St} : M St St := fun s => (Ok s, s).
Definition modify {St} (f : St -> St) : M St unit := fun s => (Ok tt, f s).

(** ** Strings: [str.lower] and [repr] *)

Definition lower_ascii (c : ascii) : ascii :=
  let n := nat_of_ascii c in
  if ((65 <=? n)%nat && (n <=? 90)%nat)%bool then ascii_of_nat (n + 32) else c.

Fixpoint lower (s : string) : string :=
  match s with
  | EmptyString => EmptyString
  | String c s' => String (lower_ascii c) (lower s')
  end.

(** [repr] of a [str] without quotes or escapes in it, and of a list of
    such strings, as an f-string prints them. *)
Definition py_repr_str (s : string) : string := "'" +:+ s +:+ "'".

Fixpoint py_join (sep : string) (l : list string) : string :=
  match l with
  | [] => ""
  | [x] => x
  | x :: l' => x +:+ sep +:+ py_join sep l'
  end.

Definition py_repr_list (l : list string) : string :=
  "[" +:+ py_join ", " (map py_repr_str l) +:+ "]".

(** Truth value of an optional command line string: [None] and the empty
    string are falsy. *)
Definition truthy (q : option string) : bool :=
  match q with
  | Some s => negb (String.eqb s "")
  | None => false
  end.

(** [l[0]] *)
Definition index0 {St A} (l : list A) : M St A :=
  match l with
  | x :: _ => mret x
  | [] => raise IndexError
  end.

(** ** Command line options ([cmdl_opts]) *)

(** [threads] is the value of [-r]: [None] when the option is left out,
    otherwise the integer [int(cmdl_opts.threads)] reads from the string
    given. That string is truthy even when it reads as [0], so a given
    value always enters the multithreaded branch. *)
Record cmdl_opts_t : Type := {
  threads : option Z;
  force_high_quality : bool;
  video_quality : option string;
  audio_quality : option string
}.

(** ** Quality selection: [select_dmc_quality] *)

Inductive level : Type := DEBUG | INFO | WARNING.

Record sel_state : Type := {
  template_params : gmap string string;
  console : list (level * string)
}.

Definition output (msg : string) (lvl : level) : M sel_state unit :=
  modify (fun s => {| template_params := template_params s;
                      console := console s ++ [(lvl, msg)] |}).

Definition set_param (k v : string) : M sel_state unit :=
  modify (fun s => {| template_params := <[k := v]> (template_params s);
                      console := console s |}).

Definition quality_warning : string :=
  "Video or audio quality specified with --force-high-quality. Ignoring quality...".

Definition quality_message (quality : string) (sources : list string) : string :=
  "Quality '" +:+ quality +:+ "' is not available. Available qualities: "
    +:+ py_repr_list sources.

Definition select_dmc_quality (cmdl_opts : cmdl_opts_t) (template_key : string)
    (sources : list string) (quality : option string) : M sel_state (list string) :=
  let q := default "" quality in
  (if truthy quality && force_high_quality cmdl_opts
   then output quality_warning WARNING else mret tt);;
  if negb (truthy quality) || force_high_quality cmdl_opts
     || String.eqb (lower q) "highest"
  then
    x ← index0 (take 1 sources);
    set_param template_key x;;
    mret (take 1 sources)
  else if String.eqb (lower q) "lowest" then
    x ← index0 (drop (length sources - 1) sources);
    set_param template_key x;;
    mret (drop (length sources - 1) sources)
  else
    let filtered := filter (fun c => lower c = lower q) sources in
    match filtered with
    | [] => raise (FormatNotAvailableException (quality_message q sources))
    | _ =>
        x ← index0 (take 1 filtered);
        set_param template_key x;;
        mret (take 1 filtered)
    end.

(** The selector without its state: the candidate it returns. *)
Definition select (cmdl_opts : cmdl_opts_t) (sources : list string)
    (quality : option string) : result (list string) :=
  fst (select_dmc_quality cmdl_opts "video_quality" sources quality
         {| template_params := ∅; console := [] |}).

(** ** Playlist selection: [get_playlist_from_m3u8] *)

Section Playlist.

(** [M3U8_STREAM_RE.findall]: the pairs (BANDWIDTH digits, following
    line) of a master playlist. The first group is [\d+], so
    [int(match[0])] is a natural number. *)
Variable findall : string -> list (N * string).

Definition playlist_step (best : Z * option string) (m : N * string)
    : Z * option string :=
  let stream_bandwidth := Z.of_N (fst m) in
  if fst best <? stream_bandwidth then (stream_bandwidth, Some (snd m)) else best.

Definition get_playlist_from_m3u8 (m3u8_text : string) : result (option string) :=
  let matches := findall m3u8_text in
  match matches with
  | [] => Raise (FormatNotAvailableException
                   "Could not retrieve stream playlist from master playlist")
  | _ => Ok (snd (fold_left playlist_step matches (-1, None)))
  end.

End Playlist.

(** ** The transfer engine *)

Definition BLOCK_SIZE : Z := 1024.

#[global] Instance byte_eq_decision : EqDecision byte := byte_eq_dec.

Definition len {A} (l : list A) : Z := Z.of_nat (length l).

(** [iter_content(chunk_size)] over a body that arrives whole: blocks of
    [chunk_size] bytes, the last one possibly shorter. *)
Fixpoint chunks {A} (fuel : nat) (n : nat) (l : list A) : list (list A) :=
  match fuel with
  | O => []
  | S fuel' =>
      match l with
      | [] => []
      | _ => take n l :: chunks fuel' n (drop n l)
      end
  end.

Definition iter_content {A} (chunk_size : Z) (data : list A) : list (list A) :=
  chunks (length data) (Z.to_nat chunk_size) data.

(** *** The remote server

    One resource of [body] bytes. [up = false] is a server that answers
    every request with an error status, on which [raise_for_status]
    raises. [ignores_invalid_range] tells what the server does with a
    [Range] header that is no byte range: it ignores the header and
    sends the whole body, or it answers with an error status. *)
Record remote : Type := {
  up : bool;
  body : list byte;
  ignores_invalid_range : bool
}.

(** Answer to a [Range] header that is no byte range; [None] is an
    error status. *)
Definition invalid_range (server : remote) : option (list byte) :=
  if ignores_invalid_range server then Some (body server) else None.

(** Answer to [Range: bytes=first-]. A negative [first] is no byte range
    (the header reads [bytes=-5-]). A [first] at or after the end cannot
    be satisfied (status 416). *)
Definition serve_from (server : remote) (first : Z) : option (list byte) :=
  if first <? 0 then invalid_range server
  else if len (body server) <=? first then None
  else Some (drop (Z.to_nat first) (body server)).

(** Answer to [Range: bytes=first-last], both ends inclusive. A range
    whose last byte is before its first is no byte range; a range that
    starts at or after the end cannot be satisfied (status 416); a last
    byte past the end stands for the end of the body. *)
Definition serve_range (server : remote) (first last : Z) : option (list byte) :=
  if (first <? 0) || (last <? first) then invalid_range server
  else if len (body server) <=? first then None
  else Some (take (Z.to_nat (Z.min last (len (body server) - 1) - first + 1))
                  (drop (Z.to_nat first) (body server))).

(** *** The local state: one file, the log, the shared counter *)

Inductive mode : Type := Rb | Wb | Ab | RPlusB.

Inductive event : Type :=
  | Head
  | Get (first : Z)
  | GetRange (first last : Z)
  | Open (m : mode)
  | Remove.

(** [file] is the content of [filename], [None] when
    [os.path.isfile(filename)] is false; [trace] lists the requests sent
    and the files opened or removed, oldest first; [progress] is the
    global of that name. *)
Record world : Type := {
  file : option (list byte);
  trace : list event;
  progress : Z
}.

Definition log (e : event) : M world unit :=
  modify (fun w => {| file := file w; trace := trace w ++ [e]; progress := progress w |}).

Definition set_file (f : option (list byte)) : M world unit :=
  modify (fun w => {| file := f; trace := trace w; progress := progress w |}).

Definition set_progress (n : Z) : M world unit :=
  modify (fun w => {| file := file w; trace := trace w; progress := n |}).

(** [file.write(data)] at offset [pos] of a file opened for update: bytes
    in place are overwritten, a gap before [pos] reads as zeros. *)
Definition write_at (pos : nat) (data f : list byte) : list byte :=
  take pos f ++ replicate (pos - length f) x00 ++ data ++ drop (pos + length data) f.

Definition next {A} (it : list A) : M world (A * list A) :=
  match it with
  | x :: rest => mret (x, rest)
  | [] => raise StopIteration
  end.

Definition os_remove : M world unit :=
  log Remove;; set_file None.

(** [open(filename, mode)] *)
Definition open_file (m : mode) : M world unit :=
  log (Open m);;
  w ← get;
  match m, file w with
  | Wb, _ => set_file (Some [])
  | Ab, None => set_file (Some [])
  | Ab, Some _ => mret tt
  | _, None => raise OSError
  | _, Some _ => mret tt
  end.

(** [file.write(block)] with the file position at [pos]: a file opened
    for appending writes at its end, wherever the position is. *)
Definition file_write (m : mode) (pos : Z) (block : list byte) : M world unit :=
  w ← get;
  match file w with
  | None => raise OSError
  | Some f =>
      match m with
      | Ab => set_file (Some (f ++ block))
      | _ => set_file (Some (write_at (Z.to_nat pos) block f))
      end
  end.

Definition file_seek (pos : Z) : M world unit :=
  if pos <? 0 then raise OSError else mret tt.

Section Transfer.

Variable cmdl_opts : cmdl_opts_t.
Variable server : remote.

(** [session.head(url)], [raise_for_status], [content-length] *)
Definition session_head : M world Z :=
  log Head;;
  if up server then mret (len (body server)) else raise HTTPError.

(** [session.get(url, headers={"Range": "bytes={first}-"}, stream=True)],
    [raise_for_status], [iter_content(BLOCK_SIZE)] *)
Definition session_get (first : Z) : M world (list (list byte)) :=
  log (Get first);;
  if up server then
    match serve_from server first with
    | Some data => mret (iter_content BLOCK_SIZE data)
    | None => raise HTTPError
    end
  else raise HTTPError.

Definition session_get_range (first last : Z) : M world (list (list byte)) :=
  log (GetRange first last);;
  if up server then
    match serve_range server first last with
    | Some data => mret (iter_content BLOCK_SIZE data)
    | None => raise HTTPError
    end
  else raise HTTPError.

(** [update_multithread_progress], with the update taken as one step
    (its lock protocol is the subject of the module [Progress]). *)
Definition update_multithread_progress (bytes_len : Z) : M world unit :=
  w ← get; set_progress (progress w + bytes_len).

Fixpoint part_loop (current_pos : Z) (stream_iterator : list (list byte))
    : M world unit :=
  match stream_iterator with
  | [] => mret tt
  | block :: rest =>
      file_write RPlusB current_pos block;;
      update_multithread_progress (len block);;
      part_loop (current_pos + len block) rest
  end.

Definition download_video_part (start end_ : Z) : M world unit :=
  stream_iterator ← session_get_range start end_;
  open_file RPlusB;;
  file_seek start;;
  part_loop start stream_iterator;;
  update_multithread_progress (-1).

(** [threading.Thread(target=c).start()] followed, later, by [join]:
    an exception raised in the thread ends the thread only. The threads
    are run one after the other, in the order they are started. *)
Definition run_thread (c : M world unit) : M world unit :=
  fun w => (Ok tt, snd (c w)).

(** [video_len / threads] divides two integers into a float: the double
    nearest to the quotient, a tie going to the even mantissa. The
    double is the pair of its mantissa, at most 2^53 in absolute value,
    and its exponent, -1074 at least: the value is [mantissa * 2^exponent].
    The divisor is not zero ([download_video] has raised for a thread
    count of zero). A quotient of 2^1024 or more, for which Python
    raises [OverflowError], is left out: no exponent is too large
    here. *)
Definition round_half_even (num den : Z) : Z :=
  let q := num / den in
  let r := num mod den in
  if 2 * r <? den then q
  else if den <? 2 * r then q + 1
  else if Z.even q then q else q + 1.

Definition true_div (a b : Z) : Z * Z :=
  let n := Z.abs a in
  let d := Z.abs b in
  if n =? 0 then (0, 0)
  else
    let k := Z.log2 n - Z.log2 d in
    let at_least := if 0 <=? k then d * 2 ^ k <=? n else d <=? n * 2 ^ (- k) in
    let e := Z.max (if at_least then k - 52 else k - 53) (-1074) in
    let m := if 0 <=? e then round_half_even n (d * 2 ^ e)
             else round_half_even (n * 2 ^ (- e)) d in
    (if xorb (a <? 0) (b <? 0) then - m else m, e).

(** [math.ceil] of a double. *)
Definition math_ceil (x : Z * Z) : Z :=
  let '(m, e) := x in
  if 0 <=? e then m * 2 ^ e else - ((- m) / 2 ^ (- e)).

(** [math.ceil(video_len / threads)] *)
Definition ceil_div (a b : Z) : Z := math_ceil (true_div a b).

Definition range (n : Z) : list Z := map Z.of_nat (seq 0 (Z.to_nat n)).

(** The bounds the loop [for i in range(threads)] hands to the threads. *)
Definition part_bounds (video_len threads_ part i : Z) : Z * Z :=
  let start := part * i in
  let end_ := if i =? threads_ - 1 then video_len else start + part in
  (start, end_).

Definition partitions (video_len threads_ : Z) : list (Z * Z) :=
  let part := ceil_div video_len threads_ in
  map (part_bounds video_len threads_ part) (range threads_).

Fixpoint dispatch (parts : list (Z * Z)) : M world unit :=
  match parts with
  | [] => mret tt
  | (start, end_) :: rest =>
      run_thread (download_video_part start end_);;
      dispatch rest
  end.

Fixpoint write_loop (m : mode) (dl : Z) (stream_iterator : list (list byte))
    : M world Z :=
  match stream_iterator with
  | [] => mret dl
  | block :: rest =>
      file_write m dl block;;
      write_loop m (dl + len block) rest
  end.

Definition length_message : string :=
  "Current byte position exceeds the length of the video to be downloaded. Check the interity of the existing file and use --force-high-quality to resume this download when the high quality source is available.".

(** [download_video]. [depth] bounds the depth of the recursion, as the
    interpreter does. In the multithreaded branch the model stops when
    the download threads are joined: the reporter thread only reads
    [progress]. *)
Fixpoint download_video (depth : nat) : M world unit :=
  match depth with
  | O => raise RecursionError
  | S depth' =>
      video_len ← session_head;
      match threads cmdl_opts with
      | Some threads_ =>
          if threads_ <=? 0
          then raise (ArgumentException "Thread number must be a positive integer")
          else
            set_progress 0;;
            open_file Wb;;
            set_file (Some (replicate (Z.to_nat video_len) x00));;
            dispatch (partitions video_len threads_)
      | None =>
          w ← get;
          plan ← match file w with
                 | Some existing =>
                     open_file Rb;;
                     let current_byte_pos := len existing in
                     if current_byte_pos <? video_len then
                       mret (Some (Ab, current_byte_pos - BLOCK_SIZE,
                                   current_byte_pos - BLOCK_SIZE,
                                   Some current_byte_pos))
                     else if video_len <? current_byte_pos then
                       raise (FormatNotAvailableException length_message)
                     else mret None
                 | None => mret (Some (Wb, 0, 0, None))
                 end;
          match plan with
          | None => mret tt
          | Some (file_condition, first, dl, pos) =>
              stream_iterator ← session_get first;
              w ← get;
              resume ← match file w with
                       | Some existing =>
                           '(new_data, stream_iterator) ← next stream_iterator;
                           let new_data_len := len new_data in
                           current_byte_pos ← match pos with
                                              | Some p => mret p
                                              | None => raise UnboundLocalError
                                              end;
                           if current_byte_pos - new_data_len <=? 0 then
                             os_remove;;
                             download_video depth';;
                             mret None
                           else
                             open_file Rb;;
                             file_seek (current_byte_pos - BLOCK_SIZE);;
                             let existing_data :=
                               take (Z.to_nat new_data_len)
                                    (drop (Z.to_nat (current_byte_pos - BLOCK_SIZE))
                                          existing) in
                             if bool_decide (new_data = existing_data) then
                               mret (Some (dl + new_data_len, stream_iterator))
                             else
                               os_remove;;
                               download_video depth';;
                               mret None
                       | None => mret (Some (dl, stream_iterator))
                       end;
              match resume with
              | None => mret tt
              | Some (dl, stream_iterator) =>
                  open_file file_condition;;
                  file_seek dl;;
                  write_loop file_condition dl stream_iterator;;
                  mret tt
              end
          end
      end
  end.

End Transfer.

(** ** The lock of [update_multithread_progress]

    The function body, one step per line of the source, for calls that
    run in several threads. [progress += bytes_len] reads the global and
    then writes it; another thread may run in between. *)
Module Progress.

Inductive pc : Type :=
  | NewLock                     (* lock = threading.Lock() *)
  | Acquire (lock : nat)        (* lock.acquire() *)
  | Load (lock : nat)           (* read progress *)
  | Store (lock : nat) (v : Z)  (* write progress *)
  | Release (lock : nat)        (* lock.release() *)
  | Return.

(** A call [update_multithread_progress(bytes_len)] in progress. *)
Record call : Type := { bytes_len : Z; at_ : pc }.

(** What the threads share: the lock objects made so far (a lock is
    its number), the set of locks that are held, the global counter. *)
Record shared : Type := {
  next_lock : nat;
  held : gset nat;
  progress : Z
}.

Definition enter (n : Z) : call := {| bytes_len := n; at_ := NewLock |}.

(** One step of a call; [None] when the call cannot move: it has
    returned, or it waits for a lock that is held. *)
Definition step_call (sh : shared) (c : call) : option (shared * call) :=
  match at_ c with
  | NewLock =>
      Some ({| next_lock := S (next_lock sh); held := held sh; progress := progress sh |},
            {| bytes_len := bytes_len c; at_ := Acquire (next_lock sh) |})
  | Acquire l =>
      if decide (l ∈ held sh) then None
      else Some ({| next_lock := next_lock sh; held := {[l]} ∪ held sh;
                    progress := progress sh |},
                 {| bytes_len := bytes_len c; at_ := Load l |})
  | Load l =>
      Some (sh, {| bytes_len := bytes_len c; at_ := Store l (progress sh + bytes_len c) |})
  | Store l v =>
      Some ({| next_lock := next_lock sh; held := held sh; progress := v |},
            {| bytes_len := bytes_len c; at_ := Release l |})
  | Release l =>
      Some ({| next_lock := next_lock sh; held := held sh ∖ {[l]};
               progress := progress sh |},
            {| bytes_len := bytes_len c; at_ := Return |})
  | Return => None
  end.

Definition state : Type := shared * list call.

(** The thread [i] makes a step. *)
Definition step_thread (i : nat) (st : state) : option state :=
  c ← snd st !! i;
  '(sh', c') ← step_call (fst st) c;
  Some (sh', <[i := c']> (snd st)).

(** The threads step in the order a schedule lists them. *)
Fixpoint run (schedule : list nat) (st : state) : option state :=
  match schedule with
  | [] => Some st
  | i :: rest => st' ← step_thread i st; run rest st'
  end.

Inductive step : state -> state -> Prop :=
  | step_at (i : nat) (st st' : state) :
      step_thread i st = Some st' -> step st st'.

Definition init (deltas : list Z) : state :=
  ({| next_lock := 0; held := ∅; progress := 0 |}, map enter deltas).

(** Between [lock.acquire()] and [lock.release()]. *)
Definition in_critical_section (c : call) : bool :=
  match at_ c with
  | Load _ | Store _ _ | Release _ => true
  | _ => false
  end.

Definition returned (c : call) : bool :=
  match at_ c with Return => true | _ => false end.

Definition lock_of (c : call) : option nat :=
  match at_ c with
  | Acquire l | Load l | Store l _ | Release l => Some l
  | _ => None
  end.

End Progress.

(** ** The heartbeat of a DMC session: [perform_heartbeat] *)
Module Heartbeat.

Definition DMC_HEARTBEAT_INTERVAL_S : Z := 15.

(** The [<session>] node sent back and forth; [heartbeat_lifetime] is
    its [<lifetime>], in milliseconds. *)
Record session_doc : Type := {
  session_id : string;
  heartbeat_lifetime : Z
}.

(** [now]: the clock, in milliseconds. [renewals]: the times at which
    the server accepted a heartbeat. [timers]: the [threading.Timer]s
    started and not yet fired, with the time each is due and the
    arguments of its call. *)
Record hb_world : Type := {
  now : Z;
  renewals : list Z;
  timers : list (Z * session_doc)
}.

Section Api.

(** The session API: the answer to a heartbeat, [None] for an error
    status. *)
Variable api : session_doc -> option session_doc.

Definition session_post (doc : session_doc) : M hb_world session_doc :=
  match api doc with
  | Some doc' =>
      modify (fun w => {| now := now w; renewals := renewals w ++ [now w];
                          timers := timers w |});;
      mret doc'
  | None => raise HTTPError
  end.

(** [threading.Timer(interval, perform_heartbeat, args).start()],
    [interval] in seconds. *)
Definition start_timer (interval : Z) (args : session_doc) : M hb_world unit :=
  modify (fun w => {| now := now w; renewals := renewals w;
                      timers := timers w ++ [(now w + 1000 * interval, args)] |}).

Definition perform_heartbeat (response : session_doc) : M hb_world unit :=
  response ← session_post response;
  start_timer DMC_HEARTBEAT_INTERVAL_S response.

(** The first pending timer fires when it is due. *)
Definition fire : M hb_world unit :=
  w ← get;
  match timers w with
  | [] => mret tt
  | (due, args) :: rest =>
      modify (fun w => {| now := due; renewals := renewals w; timers := rest |});;
      perform_heartbeat args
  end.

End Api.

End Heartbeat.

(** ** Errors of the other functions

    The exceptions the functions below raise besides the ones of [exn],
    and the state-passing monad over them. *)

Inductive err : Type :=
  | Exn (e : exn)
  | KeyError (key : string)
  | ValueError
  | TypeError
  | FormatNotSupportedException (msg : string)
  | ParameterExtractionException (msg : string).

Inductive outcome (A : Type) : Type :=
  | Done (a : A)
  | Fail (e : err).
Arguments Done {A} a.
Arguments Fail {A} e.

#[global] Instance outcome_ret : MRet outcome := fun A a => Done a.

#[global] Instance outcome_bind : MBind outcome := fun A B k c =>
  match c with
  | Done a => k a
  | Fail e => Fail e
  end.

Definition P (St A : Type) : Type := St -> outcome A * St.

#[global] Instance P_ret {St} : MRet (P St) := fun A a s => (Done a, s).

#[global] Instance P_bind {St} : MBind (P St) := fun A B k c s =>
  match c s with
  | (Done a, s') => k a s'
  | (Fail e, s') => (Fail e, s')
  end.

Definition fail {St A} (e : err) : P St A := fun s => (Fail e, s).
Definition pure_outcome {St A} (o : outcome A) : P St A := fun s => (o, s).
Definition get_state {St} : P St St := fun s => (Done s, s).
Definition update {St} (f : St -> St) : P St unit := fun s => (Done tt, f s).

(** A computation of the monad [M], run in [P]. *)
Definition lift {St A} (c : M St A) : P St A :=
  fun s => match c s with
           | (Ok a, s') => (Done a, s')
           | (Raise e, s') => (Fail (Exn e), s')
           end.

(** ** Seiga images: [decrypt_seiga_drm], [determine_seiga_file_type] *)
Module Seiga.

(** [int(s, 16)]. A string is the sequence of its code points, all
    below 256. Blanks around the number are dropped, a sign may come
    first, then the prefix [0x] or [0X], then the digits, where one
    underscore may stand after the prefix and between two digits. *)
Definition is_space (c : ascii) : bool :=
  let n := N_of_ascii c in
  (((9 <=? n) && (n <=? 13)) || (n =? 32) || (n =? 133) || (n =? 160))%N.

Fixpoint lstrip_space (s : string) : string :=
  match s with
  | EmptyString => EmptyString
  | String c s' => if is_space c then lstrip_space s' else s
  end.

Fixpoint rstrip_space (s : string) : string :=
  match s with
  | EmptyString => EmptyString
  | String c s' =>
      match rstrip_space s' with
      | EmptyString => if is_space c then EmptyString else String c EmptyString
      | rest => String c rest
      end
  end.

Definition hex_digit (c : ascii) : option Z :=
  let n := N_of_ascii c in
  if (48 <=? n)%N && (n <=? 57)%N then Some (Z.of_N n - 48)
  else if (97 <=? n)%N && (n <=? 102)%N then Some (Z.of_N n - 87)
  else if (65 <=? n)%N && (n <=? 70)%N then Some (Z.of_N n - 55)
  else None.

(** The digits; [after_underscore] tells that the character before was
    an underscore. *)
Fixpoint hex_digits (acc : Z) (after_underscore : bool) (s : string) : outcome Z :=
  match s with
  | EmptyString => if after_underscore then Fail ValueError else Done acc
  | String c s' =>
      if Ascii.eqb c "_" then
        if after_underscore then Fail ValueError else hex_digits acc true s'
      else
        match hex_digit c with
        | Some d => hex_digits (16 * acc + d) false s'
        | None => Fail ValueError
        end
  end.

Definition strip_sign (s : string) : bool * string :=
  match s with
  | String c s' =>
      if Ascii.eqb c "-" then (true, s')
      else if Ascii.eqb c "+" then (false, s')
      else (false, s)
  | EmptyString => (false, s)
  end.

Definition strip_prefix (s : string) : string :=
  match s with
  | String c0 (String c1 s') =>
      if Ascii.eqb c0 "0" && (Ascii.eqb c1 "x" || Ascii.eqb c1 "X") then
        match s' with
        | String c2 s'' => if Ascii.eqb c2 "_" then s'' else s'
        | EmptyString => s'
        end
      else s
  | _ => s
  end.

Definition int16 (s : string) : outcome Z :=
  let '(negative, s) := strip_sign (rstrip_space (lstrip_space s)) in
  match strip_prefix s with
  | EmptyString => Fail ValueError
  | String c _ as digits =>
      if Ascii.eqb c "_" then Fail ValueError
      else
        value ← hex_digits 0 false digits;
        Done (if negative : bool then - value else value)
  end.

(** The first loop: [n.append(int(key[2*i : 2*i + 2], 16))] for [i] in
    [indices]. A slice past the end of the key is short or empty. *)
Fixpoint key_values (key : string) (indices : list nat) : outcome (list Z) :=
  match indices with
  | [] => Done []
  | i :: rest =>
      value ← int16 (substring (2 * i) 2 key);
      n ← key_values key rest;
      Done (value :: n)
  end.

(** [dec_bytes[i] = dec_bytes[i] ^ k]: a [bytearray] takes the values
    from 0 to 255 only. *)
Definition xor_byte (b : byte) (k : Z) : outcome byte :=
  let v := Z.lxor (Z.of_N (Byte.to_N b)) k in
  match (if 0 <=? v then Byte.of_N (Z.to_N v) else None) with
  | Some b' => Done b'
  | None => Fail ValueError
  end.

(** The second loop, from index [i] on. *)
Fixpoint xor_loop (n : list Z) (a i : nat) (dec_bytes : list byte)
    : outcome (list byte) :=
  match dec_bytes with
  | [] => Done []
  | b :: rest =>
      b' ← xor_byte b (nth (i mod a) n 0);
      rest' ← xor_loop n a (S i) rest;
      Done (b' :: rest')
  end.

Definition decrypt_seiga_drm (enc_bytes : list byte) (key : string)
    : outcome (list byte) :=
  let a := 8%nat in
  n ← key_values key (seq 0 a);
  xor_loop n a 0 enc_bytes.

(** [dec_bytes[i]], the byte as a number: an index below zero counts
    from the end. *)
Definition item (dec_bytes : list byte) (i : Z) : outcome N :=
  let j := if i <? 0 then i + len dec_bytes else i in
  if j <? 0 then Fail (Exn IndexError)
  else match dec_bytes !! Z.to_nat j with
       | Some b => Done (Byte.to_N b)
       | None => Fail (Exn IndexError)
       end.

(** [v == dec_bytes[i]] *)
Definition item_is (dec_bytes : list byte) (v : N) (i : Z) : outcome bool :=
  x ← item dec_bytes i; Done (N.eqb v x).

(** [c1 and c2]: [c2] is evaluated when [c1] holds only. *)
Definition and_then (c1 c2 : outcome bool) : outcome bool :=
  match c1 with
  | Done true => c2
  | Done false => Done false
  | Fail e => Fail e
  end.

Definition file_type_message : string :=
  "Could not succesffully determine image file type".

Definition determine_seiga_file_type (dec_bytes : list byte) : outcome string :=
  let n := len dec_bytes in
  jpg ← and_then (item_is dec_bytes 255 0) (and_then (item_is dec_bytes 216 1)
           (and_then (item_is dec_bytes 255 (n - 2)) (item_is dec_bytes 217 (n - 1))));
  if jpg : bool then Done "jpg" else
  png ← and_then (item_is dec_bytes 137 0) (and_then (item_is dec_bytes 80 1)
           (and_then (item_is dec_bytes 78 2) (item_is dec_bytes 71 3)));
  if png : bool then Done "png" else
  gif ← and_then (item_is dec_bytes 71 0) (and_then (item_is dec_bytes 73 1)
           (and_then (item_is dec_bytes 70 2) (item_is dec_bytes 6 3)));
  if gif : bool then Done "gif" else
  Fail (FormatNotSupportedException file_type_message).

End Seiga.

(** ** File names: [sanitize_for_path], [create_filename] *)
Module Paths.

(** The characters of the class of [sanitize_for_path]: the angle
    brackets, the double quote (character 34), the question mark, the
    backslash, the slash, the star and the colon. *)
Definition illegal (c : ascii) : bool :=
  existsb (Ascii.eqb c) ["<"; ">"; "034"; "?"; "\"; "/"; "*"; ":"]%char.

(** [re.sub(class, replace, value)], for a replacement without
    backslashes (every caller uses the default, a space). *)
Fixpoint sanitize_for_path (value : string) (replace : string) : string :=
  match value with
  | EmptyString => EmptyString
  | String c value' =>
      (if illegal c then replace else String c EmptyString)
        +:+ sanitize_for_path value' replace
  end.

Definition default_replace : string := " ".

(** Some character of [s] is of the class. *)
Fixpoint has_illegal (s : string) : bool :=
  match s with
  | EmptyString => false
  | String c s' => illegal c || has_illegal s'
  end.

(** [d[key]] *)
Definition getitem {St} (d : gmap string string) (key : string) : P St string :=
  match d !! key with
  | Some v => mret v
  | None => fail (KeyError key)
  end.

Section CreateFilename.

(** [cmdl_opts.output_path]. *)
Variable output_path : option string.

(** [filename_template.format_map(template_dict)], where [template_dict]
    answers [__NONE__] for a missing key; [os.path.dirname],
    [os.path.exists] and [os.path.join]. *)
Variable format_map : string -> gmap string string -> string.
Variable dirname : string -> string.
Variable path_exists : string -> bool.
Variable path_join : string -> string -> string.

(** [os.makedirs(path, exist_ok=True)]: the state lists the paths made. *)
Definition makedirs (path : string) : P (list string) unit :=
  update (fun made => made ++ [path]).

Definition create_filename (template_params : gmap string string) (is_comic : bool)
    : P (list string) string :=
  let filename_template := default "" output_path in
  if truthy output_path then
    let template_dict :=
      (fun v => sanitize_for_path v default_replace)
        <$> filter (fun kv => kv.2 <> "") template_params in
    let filename := format_map filename_template template_dict in
    (if is_comic then makedirs filename
     else if (negb (String.eqb (dirname filename) "")
              && negb (path_exists (dirname filename)))
             || path_exists (dirname filename)
          then makedirs (dirname filename)
          else mret tt);;
    mret filename
  else if is_comic then
    manga_id ← getitem template_params "manga_id";
    manga_title ← getitem template_params "manga_title";
    id ← getitem template_params "id";
    title ← getitem template_params "title";
    let directory :=
      path_join (manga_id +:+ " - " +:+ sanitize_for_path manga_title default_replace)
                (id +:+ " - " +:+ sanitize_for_path title default_replace) in
    makedirs directory;;
    mret directory
  else
    id ← getitem template_params "id";
    title ← getitem template_params "title";
    ext ← getitem template_params "ext";
    mret (sanitize_for_path (id +:+ " - " +:+ title +:+ "." +:+ ext) default_replace).

End CreateFilename.

End Paths.

(** ** Batches: [read_file], [request_user], [request_mylist] *)
Module Batch.

Definition char_in (c : ascii) (chars : string) : bool :=
  existsb (Ascii.eqb c) (list_ascii_of_string chars).

(** [s.lstrip(chars)]: the leading characters of [s] that are among
    [chars] are dropped. *)
Fixpoint lstrip (chars s : string) : string :=
  match s with
  | EmptyString => EmptyString
  | String c s' => if char_in c chars then lstrip chars s' else s
  end.

(** The exceptions of the clause
    [except (FormatNotSupportedException, FormatNotAvailableException,
    ParameterExtractionException)]. *)
Definition caught (e : err) : bool :=
  match e with
  | FormatNotSupportedException _
  | Exn (FormatNotAvailableException _)
  | ParameterExtractionException _ => true
  | _ => false
  end.

(** [try: c except (...): continue]; the log entry and the traceback
    printed for a caught exception are left out. *)
Definition try_continue {St} (c : P St unit) : P St unit :=
  fun s => match c s with
           | (Fail e, s') => if caught e then (Done tt, s') else (Fail e, s')
           | done => done
           end.

Section Requests.

Context {St : Type}.

(** [request_video(session, video_id)]. *)
Variable request_video : string -> P St unit.

(** The loop [for index, video_id in enumerate(video_ids)] of
    [request_user] and the loop over the items of [request_mylist]. *)
Fixpoint request_each (video_ids : list string) : P St unit :=
  match video_ids with
  | [] => mret tt
  | video_id :: rest =>
      try_continue (request_video video_id);;
      request_each rest
  end.

(** The page [page_counter] of the videos of a user: the [href] of every
    link selected on it, or the error of [raise_for_status]. *)
Variable user_videos_page : string -> nat -> outcome (list string).

(** The loop [while True] of [request_user]; [None] when it has not
    ended after [fuel] pages. *)
Fixpoint collect_user_videos (fuel : nat) (user_id : string) (page_counter : nat)
    (video_ids : list string) : option (outcome (list string)) :=
  match fuel with
  | O => None
  | S fuel' =>
      match user_videos_page user_id page_counter with
      | Fail e => Some (Fail e)
      | Done video_links =>
          if (length video_links =? 0)%nat then Some (Done video_ids)
          else collect_user_videos fuel' user_id (S page_counter)
                 (video_ids ++ map (lstrip "watch/") video_links)
      end
  end.

Definition user_message : string :=
  "Failed to collect user videos. Please verify that the user's videos page is public".

Definition request_user (fuel : nat) (user_id : string)
    : St -> option (outcome unit * St) :=
  fun s =>
    match collect_user_videos fuel user_id 1 [] with
    | None => None
    | Some (Fail e) => Some (Fail e, s)
    | Some (Done video_ids) =>
        let total_ids := length video_ids in
        if (total_ids =? 0)%nat
        then Some (Fail (ParameterExtractionException user_message), s)
        else Some (request_each video_ids s)
    end.

(** The answer of the mylist API: the text, and of the JSON read from
    it the [status] and the [video_id] of each of the [items]. *)
Record mylist_response : Type := {
  text : string;
  status : option string;
  items : option (list string)
}.

Variable mylist_api : string -> outcome mylist_response.

Definition request_mylist (mylist_id : string) : P St unit :=
  mylist_request ← pure_outcome (mylist_api mylist_id);
  let items_ := default [] (items mylist_request) in
  if negb (bool_decide (status mylist_request = Some "ok")) then
    fail (Exn (FormatNotAvailableException
                 ("Could not retrieve mylist info; response=" +:+ text mylist_request)))
  else request_each items_.

(** [valid_url]: the match of [VIDEO_URL_RE] at the start of the line,
    [None] when there is none; [process_url_mo]. *)
Context {Match : Type}.
Variable valid_url : string -> option Match.
Variable process_url_mo : Match -> P St unit.

(** [open(file).readlines()] *)
Variable readlines : string -> outcome (list string).

Fixpoint read_lines (content : list string) : P St unit :=
  match content with
  | [] => mret tt
  | line :: rest =>
      try_continue
        (match valid_url line with
         | Some url_mo => process_url_mo url_mo
         | None => fail (Exn (ArgumentException "Not a valid URL"))
         end);;
      read_lines rest
  end.

Definition read_file (file : string) : P St unit :=
  content ← pure_outcome (readlines file);
  read_lines content.

End Requests.

End Batch.

(** A stand-in for the function that handles one item, with the ids it
    was called with as the state: the call adds [x] to them and ends as
    [behaviour x] says. *)
Definition logged {A} (behaviour : A -> outcome unit) (x : A) : P (list A) unit :=
  fun called => (behaviour x, called ++ [x]).

(** The call on [x] ends normally or with an exception that the batch
    loops catch. *)
Definition goes_on {A} (behaviour : A -> outcome unit) (x : A) : Prop :=
  match behaviour x with
  | Done _ => True
  | Fail e => Batch.caught e = true
  end.

(** ** Thumbnails and comments: [download_thumbnail], [download_comments] *)
Module Media.

Record response : Type := {
  status_code : Z;
  content : list byte
}.

(** [response.raise_for_status()] *)
Definition raise_for_status {St} (r : response) : P St unit :=
  if (400 <=? status_code r) && (status_code r <? 600)
  then fail (Exn HTTPError) else mret tt.

(** The double quote. *)
Definition dq : string := String "034"%char EmptyString.

Definition COMMENTS_API : string := "http://nmsg.nicovideo.jp/api".

(** [COMMENTS_POST_JP.format(thread)] and [COMMENTS_POST_EN.format(thread)] *)
Definition COMMENTS_POST_JP (thread : string) : string :=
  "<packet><thread thread=" +:+ dq +:+ thread +:+ dq
    +:+ " version=" +:+ dq +:+ "20061206" +:+ dq
    +:+ " res_from=" +:+ dq +:+ "-1000" +:+ dq
    +:+ " scores=" +:+ dq +:+ "1" +:+ dq +:+ "/></packet>".

Definition COMMENTS_POST_EN (thread : string) : string :=
  "<packet><thread thread=" +:+ dq +:+ thread +:+ dq
    +:+ " version=" +:+ dq +:+ "20061206" +:+ dq
    +:+ " res_from=" +:+ dq +:+ "-1000" +:+ dq
    +:+ " language=" +:+ dq +:+ "1" +:+ dq
    +:+ " scores=" +:+ dq +:+ "1" +:+ dq +:+ "/></packet>".

Section Downloads.

(** [os.path.splitext]. *)
Variable splitext : string -> string * string.

Definition replace_extension (filename new_extension : string) : string :=
  let '(base_path, _) := splitext filename in
  base_path +:+ "." +:+ new_extension.

(** [session.get(url)] and [session.post(url, data)]: the response, or
    the exception of the transport. *)
Variable http_get : string -> outcome response.
Variable http_post : string -> string -> outcome response.

(** [cmdl_opts.download_english]. *)
Variable download_english : bool.

(** The state: the files written, by name. *)
Definition open_wb (filename : string) : P (gmap string (list byte)) unit :=
  update (fun files => <[filename := []]> files).

Definition write (filename : string) (data : list byte)
    : P (gmap string (list byte)) unit :=
  update (fun files => <[filename := default [] (files !! filename) ++ data]> files).

Fixpoint write_each (filename : string) (blocks : list (list byte))
    : P (gmap string (list byte)) unit :=
  match blocks with
  | [] => mret tt
  | block :: rest => write filename block;; write_each filename rest
  end.

Definition download_thumbnail (filename : string)
    (template_params : gmap string string) : P (gmap string (list byte)) unit :=
  Paths.getitem template_params "id";;
  let filename := replace_extension filename "jpg" in
  thumbnail_url ← Paths.getitem template_params "thumbnail_url";
  get_thumb ← pure_outcome (http_get (thumbnail_url +:+ ".L"));
  get_thumb ← (if status_code get_thumb =? 404 then
                 get_thumb ← pure_outcome (http_get thumbnail_url);
                 raise_for_status get_thumb;;
                 mret get_thumb
               else mret get_thumb);
  open_wb filename;;
  write_each filename (iter_content BLOCK_SIZE (content get_thumb)).

Definition download_comments (filename : string)
    (template_params : gmap string string) : P (gmap string (list byte)) unit :=
  Paths.getitem template_params "id";;
  let filename := replace_extension filename "xml" in
  let post_packet := if download_english then COMMENTS_POST_EN else COMMENTS_POST_JP in
  thread_id ← Paths.getitem template_params "thread_id";
  get_comments ← pure_outcome (http_post COMMENTS_API (post_packet thread_id));
  raise_for_status get_comments;;
  open_wb filename;;
  write filename (content get_comments).

End Downloads.

End Media.

(** ** The quality label: [determine_quality] *)
Module Quality.

(** The parts of [params] the function reads. An optional part is
    [None] when the key is missing or its value is falsy.
    [quality_videos] and [quality_audios] are the [id]s of
    [params["video"]["dmcInfo"]["quality"]["videos"]] and [["audios"]];
    [smileInfo] is its [currentQualityId]; [videoDetail] tells whether
    [params.get("videoDetail")] is truthy. *)
Record dmc_info : Type := {
  quality_videos : list string;
  quality_audios : list string
}.

Record video_info : Type := {
  dmcInfo : option dmc_info;
  smileInfo : option string
}.

Record params_t : Type := {
  video : option video_info;
  videoDetail : bool
}.

(** [template_params[key]] *)
Definition param (key : string) : P sel_state string :=
  st ← get_state; Paths.getitem (template_params st) key.

(** [l[0]] *)
Definition first_of (l : list string) : P sel_state string :=
  match l with
  | x :: _ => mret x
  | [] => fail (Exn IndexError)
  end.

Definition determine_quality (params : params_t) : P sel_state unit :=
  match video params with
  | Some video_ =>
      match dmcInfo video_ with
      | Some dmc =>
          v0 ← first_of (quality_videos dmc);
          video_quality ← param "video_quality";
          same ← (if String.eqb v0 video_quality then
                    a0 ← first_of (quality_audios dmc);
                    audio_quality ← param "audio_quality";
                    mret (String.eqb a0 audio_quality)
                  else mret false);
          lift (set_param "quality" (if same : bool then "auto" else "low"))
      | None =>
          match smileInfo video_ with
          | Some currentQualityId => lift (set_param "quality" currentQualityId)
          | None => mret tt
          end
      end
  | None => mret tt
  end;;
  if videoDetail params then lift (set_param "quality" "auto") else mret tt.

End Quality.

(** ** The stream of a live broadcast: [generate_stream] *)
Module Nama.

(** The part of [s] before its last slash, [None] when [s] has no
    slash. *)
Fixpoint before_last_slash (s : string) : option string :=
  match s with
  | EmptyString => None
  | String c s' =>
      match before_last_slash s' with
      | Some head_ => Some (String c head_)
      | None => if Ascii.eqb c "/" then Some EmptyString else None
      end
  end.

(** [s.rsplit("/", maxsplit=1)[0]] *)
Definition rsplit_head (s : string) : string :=
  default s (before_last_slash s).

Fixpoint has_slash (s : string) : bool :=
  match s with
  | EmptyString => false
  | String c s' => Ascii.eqb c "/" || has_slash s'
  end.

Record response : Type := {
  status_code : Z;
  text : string
}.

Section Stream.

Variable findall : string -> list (N * string).
Variable http_get : string -> outcome response.

(** [generate_stream]; the state lists what [output] writes with
    [force=True], which is the stream URL. *)
Definition generate_stream (master_url : string) : P (list string) unit :=
  m3u8 ← pure_outcome (http_get master_url);
  (if (400 <=? status_code m3u8) && (status_code m3u8 <? 600)
   then fail (Exn HTTPError) else mret tt);;
  playlist_slug ← match get_playlist_from_m3u8 findall (text m3u8) with
                  | Ok (Some slug) => mret slug
                  | Ok None => fail TypeError
                  | Raise e => fail (Exn e)
                  end;
  let stream_url := rsplit_head master_url +:+ "/" +:+ playlist_slug in
  update (fun written => written ++ [stream_url]).

End Stream.

End Nama.

(** ** The reporter thread: [show_multithread_progress] *)
Section Reporter.

(** One line of the display: [int(25 * progress / video_len)],
    [int(100 * progress / video_len)], [calculate_speed] and [output],
    for the counter and the length given. What matters to the loop is
    the exception raised there, if any. *)
Variable display : Z -> Z -> option err.

(** The loop [while not finished]; [None] when it has not ended after
    [fuel] turns. The counter is the one of the world, which the loop
    reads and does not change. *)
Fixpoint show_multithread_progress (fuel : nat) (video_len : Z) (w : world)
    : option (outcome unit) :=
  match fuel with
  | O => None
  | S fuel' =>
      let finished := video_len <=? progress w in
      match display (progress w) video_len with
      | Some e => Some (Fail e)
      | None =>
          if finished then Some (Done tt)
          else show_multithread_progress fuel' video_len w
      end
  end.

End Reporter.

(** ** The chain of heartbeats

    The timer of [perform_heartbeat] calls [perform_heartbeat] again;
    [fire_times n] lets the pending timer fire [n] times in a row. *)
Fixpoint fire_times (api : Heartbeat.session_doc -> option Heartbeat.session_doc)
    (n : nat) : M Heartbeat.hb_world unit :=
  match n with
  | O => mret tt
  | S n' => Heartbeat.fire api;; fire_times api n'
  end.

(** The times [start], [start + 15000], ... : [n] of them. *)
Definition ticks (start : Z) (n : nat) : list Z :=
  map (fun k => start + 15000 * Z.of_nat k) (seq 0 n).

(** ** Vocabulary of the statements and inputs of the examples *)

(** The text of a message holds [t] somewhere. *)
Definition mentions (s t : string) : Prop :=
  exists pre post, s = pre +:+ t +:+ post.

Definition candidates_ABC : list string := ["high"; "mid"; "low"].

Definition opts_default : cmdl_opts_t :=
  {| threads := None; force_high_quality := false;
     video_quality := None; audio_quality := None |}.

Definition opts_force : cmdl_opts_t :=
  {| threads := None; force_high_quality := true;
     video_quality := None; audio_quality := None |}.

Definition sel_init : sel_state := {| template_params := ∅; console := [] |}.

(** The block fetched first on a resume, [BLOCK_SIZE] bytes of the remote
    content from [len existing - BLOCK_SIZE] on, equals the last
    [BLOCK_SIZE] bytes of the existing file. *)
Definition overlap_matches (existing content : list byte) : Prop :=
  take (Z.to_nat BLOCK_SIZE) (drop (Z.to_nat (len existing - BLOCK_SIZE)) content)
  = drop (Z.to_nat (len existing - BLOCK_SIZE)) existing.

#[global] Instance overlap_matches_dec (existing content : list byte) :
  Decision (overlap_matches existing content).
Proof. unfold overlap_matches. apply _. Defined.

Definition world_init (f : option (list byte)) : world :=
  {| file := f; trace := []; progress := 0 |}.

(** A partial file of 1025 bytes whose first byte is not the remote one,
    while its last 1024 bytes are. *)
Definition stale_file : list byte := x00 :: replicate 1024 x01.
Definition stale_server : remote :=
  {| up := true; body := replicate 1026 x01; ignores_invalid_range := false |}.

Definition opts_threads (n : Z) : cmdl_opts_t :=
  {| threads := Some n; force_high_quality := false;
     video_quality := None; audio_quality := None |}.

(** [parts] are ranges [(start, end)] with [start <= end] that follow one
    another from [lo] to [hi]: no gap, no overlap, and together they are
    the range from [lo] to [hi]. *)
Fixpoint tiles (lo hi : Z) (parts : list (Z * Z)) : Prop :=
  match parts with
  | [] => lo = hi
  | (start, end_) :: rest => start = lo /\ start <= end_ /\ tiles end_ hi rest
  end.

(** All ranges but the last one have [size] bytes. *)
Definition sized (size : Z) (parts : list (Z * Z)) : Prop :=
  forall (i : nat) (start end_ : Z),
    parts !! i = Some (start, end_) -> (S i < length parts)%nat ->
    end_ - start = size.

(** What a thread adds to the counter for a range the server can
    satisfy: the bytes from [start] to [end], both included and not past
    the last byte of the content, less one. *)
Definition part_delta (video_len : Z) (p : Z * Z) : Z :=
  (Z.min (snd p) (video_len - 1) - fst p + 1) - 1.

Definition total_delta (video_len : Z) (parts : list (Z * Z)) : Z :=
  foldr (fun p acc => part_delta video_len p + acc) 0 parts.

(** A timer due at [due] fires before a session renewed at [renewed_at]
    with the lifetime [lifetime] (milliseconds) expires. *)
Definition due_before_expiry (renewed_at due lifetime : Z) : Prop :=
  due - renewed_at < lifetime.

(** A session the server grants for ten seconds, a server that accepts
    every heartbeat and sends the session back, and the start of time. *)
Definition short_session : Heartbeat.session_doc :=
  {| Heartbeat.session_id := "session"; Heartbeat.heartbeat_lifetime := 10000 |}.

Definition echo_api (doc : Heartbeat.session_doc) : option Heartbeat.session_doc :=
  Some doc.

Definition hb_init : Heartbeat.hb_world :=
  {| Heartbeat.now := 0; Heartbeat.renewals := []; Heartbeat.timers := [] |}.

(** The invariant of the calls of [update_multithread_progress]: every
    lock in use was made before, no two calls use the same lock, and a
    call about to acquire its lock finds it free. *)
Definition locks_private (st : Progress.state) : Prop :=
  (forall l, l ∈ Progress.held (fst st) -> (l < Progress.next_lock (fst st))%nat)
  /\ (forall i c l, snd st !! i = Some c -> Progress.lock_of c = Some l ->
        (l < Progress.next_lock (fst st))%nat)
  /\ (forall i j c d l, snd st !! i = Some c -> snd st !! j = Some d ->
        Progress.lock_of c = Some l -> Progress.lock_of d = Some l -> i = j)
  /\ (forall i c l, snd st !! i = Some c -> Progress.at_ c = Progress.Acquire l ->
        l ∉ Progress.held (fst st)).

Definition sample_body (n : nat) : list byte :=
  map (fun i => default x00 (Byte.of_nat (i mod 251))) (seq 0 n).

Definition sample_server (n : nat) : remote :=
  {| up := true; body := sample_body n; ignores_invalid_range := false |}.

(** Scenario C: three variants, the last two with the same bandwidth. *)
Definition scenario_C_findall (_ : string) : list (N * string) :=
  [(500%N, "a.m3u8"); (1500%N, "b.m3u8"); (1500%N, "c.m3u8")].

(** ** Inputs of the further examples *)

(** A key of sixteen hexadecimal digits, three bytes, and what they
    decrypt to. *)
Definition seiga_key : string := "0123456789abcdef".
Definition seiga_enc : list byte := [x00; xff; x10].
Definition seiga_dec : list byte := [x01; xdc; x55].

(** A key whose first two characters read [-1]: Python takes the sign. *)
Definition signed_key : string := "-100000000000000f".

(** Data that begins as a GIF file does. *)
Definition gif8_data : list byte := [x47; x49; x46; x38; x39; x61].

(** The parameters of a video whose title has a slash. *)
Definition video_params : gmap string string :=
  <["id" := "sm9"]> (<["title" := "a/b"]> (<["ext" := "mp4"]>
    (<["thumbnail_url" := "http://t/9"]> (<["thread_id" := "1173108780"]> ∅)))).

(** A video that cannot be retrieved among videos that can. *)
Definition one_bad (video_id : string) : outcome unit :=
  if String.eqb video_id "bad"
  then Fail (ParameterExtractionException "Failed to collect video parameters")
  else Done tt.

(** A user with two pages of videos. *)
Definition two_pages : list (list string) :=
  [["watch/sm1"; "watch/bad"]; ["watch/sm3"]].

Definition two_pages_site (user_id : string) (page_counter : nat)
    : outcome (list string) :=
  match page_counter with
  | O => Done []
  | S i => Done (default [] (two_pages !! i))
  end.

(** A user without videos. *)
Definition no_pages_site (user_id : string) (page_counter : nat)
    : outcome (list string) :=
  Done [].

(** A list of URLs with a line that is none. *)
Definition is_http (line : string) : option string :=
  if String.prefix "http" line then Some line else None.

Definition three_lines (file : string) : outcome (list string) :=
  Done ["http://a"; "bad"; "http://b"].

Definition all_fine (url_mo : string) : outcome unit := Done tt.

Definition mylist_ok (mylist_id : string) : outcome Batch.mylist_response :=
  Done {| Batch.text := "{}"; Batch.status := Some "ok";
          Batch.items := Some ["sm1"; "bad"; "sm3"] |}.

(** A server that refuses every thumbnail with 403, and one that answers
    every post with two bytes. *)
Definition no_splitext (filename : string) : string * string := (filename, "").

Definition forbidden (url : string) : outcome Media.response :=
  Done {| Media.status_code := 403; Media.content := [x3c; x68] |}.

Definition two_bytes (url data : string) : outcome Media.response :=
  Done {| Media.status_code := 200; Media.content := [x3c; x70] |}.

(** A page whose first qualities are the ones chosen by default. *)
Definition audios_AB : list string := ["loud"; "quiet"].

Definition dmc_page : Quality.dmc_info :=
  {| Quality.quality_videos := candidates_ABC; Quality.quality_audios := audios_AB |}.

Definition sel_video : sel_state :=
  snd (select_dmc_quality opts_default "video_quality" candidates_ABC None sel_init).

Definition sel_audio : sel_state :=
  snd (select_dmc_quality opts_default "audio_quality" audios_AB None sel_video).

Definition no_video : Quality.params_t :=
  {| Quality.video := None; Quality.videoDetail := false |}.

(** The master playlist of scenario C. *)
Definition master_playlist (url : string) : outcome Nama.response :=
  Done {| Nama.status_code := 200; Nama.text := "#EXTM3U" |}.

(** A server that refuses every heartbeat, and a timer that is due. *)
Definition refuse_api (doc : Heartbeat.session_doc) : option Heartbeat.session_doc :=
  None.

Definition hb_due : Heartbeat.hb_world :=
  {| Heartbeat.now := 15000; Heartbeat.renewals := [0];
     Heartbeat.timers := [(15000, short_session)] |}.

(** A display that raises nothing. *)
Definition quiet_display (progress_ video_len : Z) : option err := None.

(** ** One call of [update_multithread_progress] after the other *)

(** The schedule that lets each of [n] calls make its five steps before
    the next call begins. *)
Definition serial_from (start n : nat) : list nat :=
  concat (map (replicate 5) (seq start n)).

Definition serial_schedule (n : nat) : list nat := serial_from 0 n.

(** A call that has returned. *)
Definition finished (n : Z) : Progress.call :=
  {| Progress.bytes_len := n; Progress.at_ := Progress.Return |}.

Definition sum_deltas (deltas : list Z) : Z := foldr Z.add 0 deltas.

(** * Properties *)

(** ** Quality selection *)

Ltac run_monad :=
  cbv [mbind M_bind mret M_ret raise get modify index0 output set_param].

Lemma truthy_true (quality : option string) :
  truthy quality = true <-> exists q, quality = Some q /\ q <> "".
Proof.
  destruct quality as [q|]; simpl.
  - rewrite negb_true_iff, String.eqb_neq. split; [by exists q|].
    by intros (? & [= <-] & ?).
  - split; [done|]. by intros (? & ? & ?).
Qed.

(** What [filter] followed by [[:1]] finds: the first element that
    satisfies the test. *)
Lemma filter_first {A} (P : A -> Prop) `{!forall x, Decision (P x)} (l : list A) :
  match filter P l with
  | [] => forall x, x ∈ l -> ~ P x
  | c :: _ => exists pre post, l = pre ++ c :: post /\ P c /\ forall x, x ∈ pre -> ~ P x
  end.
Proof.
  induction l as [|a l IH].
  - simpl. intros x Hx. by apply elem_of_nil in Hx.
  - rewrite filter_cons. destruct (decide (P a)) as [Ha|Ha].
    + exists [], l. split_and!; [done|done|]. intros x Hx. by apply elem_of_nil in Hx.
    + destruct (filter P l) as [|c rest].
      * intros x [->|Hx]%elem_of_cons; [done|by apply IH].
      * destruct IH as (pre & post & -> & Hc & Hpre).
        exists (a :: pre), post. split_and!; [done|done|].
        intros x [->|Hx]%elem_of_cons; [done|by apply Hpre].
Qed.

Lemma drop_last_singleton {A} (l : list A) (x : A) :
  last l = Some x -> drop (length l - 1) l = [x].
Proof.
  intros (l' & ->)%last_Some. rewrite length_app. simpl.
  replace (length l' + 1 - 1)%nat with (length l') by lia.
  by rewrite drop_app_length.
Qed.

(** C3. For a non-empty list of candidates, best first: the selector
    returns the first candidate when --force-high-quality is set, or no
    quality is requested (the option is left out or empty), or the
    requested quality is "highest" in any letter case; it returns the
    last candidate when "lowest" is requested; otherwise, when some
    candidate equals the requested quality up to letter case, it returns
    the first such candidate. The candidate returned is also stored in
    [template_params] under the given key. *)
Theorem select_dmc_quality_contract (cmdl_opts : cmdl_opts_t) (key : string)
    (sources : list string) (quality : option string) (st : sel_state) :
  sources <> [] ->
  let out := select_dmc_quality cmdl_opts key sources quality st in
  let q := default "" quality in
  (force_high_quality cmdl_opts = true \/ quality = None \/ quality = Some ""
     \/ lower q = "highest" ->
   exists c, head sources = Some c /\ fst out = Ok [c]
             /\ template_params (snd out) !! key = Some c)
  /\ (force_high_quality cmdl_opts = false -> lower q = "lowest" ->
      exists c, last sources = Some c /\ fst out = Ok [c]
                /\ template_params (snd out) !! key = Some c)
  /\ (force_high_quality cmdl_opts = false -> q <> "" ->
      lower q <> "highest" -> lower q <> "lowest" ->
      (exists c, c ∈ sources /\ lower c = lower q) ->
      exists pre c post, sources = pre ++ c :: post /\ lower c = lower q
                /\ (forall x, x ∈ pre -> lower x <> lower q)
                /\ fst out = Ok [c]
                /\ template_params (snd out) !! key = Some c).
Proof.
  intros Hne out q. subst out. unfold select_dmc_quality. fold q.
  destruct sources as [|c0 sources']; [done|]. clear Hne.
  set (sources := c0 :: sources').
  split_and!.
  - intros Hfirst.
    assert (Hcond : negb (truthy quality) || force_high_quality cmdl_opts
                    || String.eqb (lower q) "highest" = true).
    { destruct Hfirst as [->|[->|[->|Hq]]].
      - by rewrite orb_true_r.
      - done.
      - done.
      - rewrite <- String.eqb_eq in Hq. rewrite Hq. by rewrite orb_true_r. }
    exists c0. split; [done|].
    destruct (truthy quality && force_high_quality cmdl_opts);
      run_monad; rewrite Hcond; simpl; by rewrite lookup_insert_eq.
  - intros Hforce Hlow.
    assert (Hq : q <> "") by (intros Heq; by rewrite Heq in Hlow).
    assert (Htr : truthy quality = true).
    { apply truthy_true. destruct quality as [q'|]; [by exists q'|done]. }
    destruct (last sources) as [cl|] eqn:Hlast; [|by apply last_None in Hlast].
    exists cl. split; [done|].
    rewrite Htr, Hforce. run_monad. simpl. rewrite Hlow. simpl.
    change (length sources' - 0)%nat with (length sources - 1)%nat.
    change (c0 :: sources') with sources.
    rewrite (drop_last_singleton _ _ Hlast). simpl. by rewrite lookup_insert_eq.
  - intros Hforce Hq Hhigh Hlow (c & Hc & Hcq).
    assert (Htr : truthy quality = true).
    { apply truthy_true. destruct quality as [q'|]; [by exists q'|done]. }
    apply String.eqb_neq in Hhigh, Hlow.
    rewrite Htr, Hforce. run_monad. simpl. rewrite Hhigh, Hlow.
    change (@cons string c0 sources') with sources.
    pose proof (filter_first (fun c => lower c = lower q) sources) as Hf.
    destruct (filter (fun c => lower c = lower q) sources) as [|c' rest].
    + exfalso. by apply (Hf c).
    + destruct Hf as (pre & post & Hsplit & Hc' & Hpre).
      exists pre, c', post. simpl. by rewrite lookup_insert_eq.
Qed.

Lemma select_dmc_quality_contract_witness :
  candidates_ABC <> []
  /\ (exists c, head candidates_ABC = Some c
        /\ fst (select_dmc_quality opts_force "video_quality" candidates_ABC
                  (Some "mid") sel_init) = Ok [c])
  /\ (exists c, last candidates_ABC = Some c
        /\ fst (select_dmc_quality opts_default "video_quality" candidates_ABC
                  (Some "Lowest") sel_init) = Ok [c])
  /\ (exists c, lower c = "mid"
        /\ fst (select_dmc_quality opts_default "video_quality" candidates_ABC
                  (Some "MID") sel_init) = Ok [c]).
Proof.
  assert (Hne : candidates_ABC <> []) by discriminate.
  split; [exact Hne|]. split_and!.
  - destruct (select_dmc_quality_contract opts_force "video_quality"
                candidates_ABC (Some "mid") sel_init Hne) as (H & _ & _).
    destruct H as (c & Hc & Hr & _); [by left|]. by exists c.
  - destruct (select_dmc_quality_contract opts_default "video_quality"
                candidates_ABC (Some "Lowest") sel_init Hne) as (_ & H & _).
    destruct H as (c & Hc & Hr & _); [reflexivity|reflexivity|].
    by exists c.
  - destruct (select_dmc_quality_contract opts_default "video_quality"
                candidates_ABC (Some "MID") sel_init Hne) as (_ & _ & H).
    destruct H as (pre & c & post & _ & Hc & _ & Hr & _);
      [reflexivity|discriminate|discriminate|discriminate| |by exists c].
    exists "mid". split; [|reflexivity]. unfold candidates_ABC.
    apply elem_of_cons; right. apply elem_of_cons; by left.
Defined.

Lemma string_app_assoc (a b c : string) : (a +:+ b) +:+ c = a +:+ b +:+ c.
Proof.
  induction a as [|x a IH]; [done|].
  change (String x ((a +:+ b) +:+ c) = String x (a +:+ b +:+ c)). by f_equal.
Qed.

Lemma string_app_nil_r (a : string) : a +:+ "" = a.
Proof.
  induction a as [|x a IH]; [done|].
  change (String x (a +:+ "") = String x a). by f_equal.
Qed.

Lemma mentions_app_r (a s t : string) : mentions s t -> mentions (a +:+ s) t.
Proof.
  intros (pre & post & ->). exists (a +:+ pre), post.
  by rewrite string_app_assoc.
Qed.

Lemma mentions_app_l (s b t : string) : mentions s t -> mentions (s +:+ b) t.
Proof.
  intros (pre & post & ->). exists pre, (post +:+ b).
  by rewrite !string_app_assoc.
Qed.

Lemma py_join_mentions (sep : string) (l : list string) (x : string) :
  x ∈ l -> mentions (py_join sep l) x.
Proof.
  induction l as [|a l IH]; [by intros ?%elem_of_nil|].
  intros [->|Hx]%elem_of_cons.
  - destruct l as [|b l]; simpl.
    + exists "", "". simpl. by rewrite string_app_nil_r.
    + exists "", (sep +:+ py_join sep (b :: l)). done.
  - specialize (IH Hx). destruct l as [|b l]; [by apply elem_of_nil in Hx|].
    change (py_join sep (a :: b :: l)) with (a +:+ sep +:+ py_join sep (b :: l)).
    by do 2 apply mentions_app_r.
Qed.

Lemma py_repr_list_mentions (l : list string) (c : string) :
  c ∈ l -> mentions (py_repr_list l) (py_repr_str c).
Proof.
  intros Hc. unfold py_repr_list.
  apply mentions_app_r, mentions_app_l, py_join_mentions.
  apply list_elem_of_fmap. by exists c.
Qed.

(** C4. When a quality is requested (the option is given and not
    empty), --force-high-quality is not set, the request is neither
    "highest" nor "lowest" and no candidate equals it up to letter case,
    the selector raises [FormatNotAvailableException] with the message
    "Quality '<request>' is not available. Available qualities:
    <candidates>", which holds the request and every candidate between
    quotes. On a non-empty list of candidates the selector raises in no
    other case. *)
Theorem select_dmc_quality_failure (cmdl_opts : cmdl_opts_t) (key : string)
    (sources : list string) (quality : option string) (st : sel_state) :
  let out := select_dmc_quality cmdl_opts key sources quality st in
  let no_match q :=
    quality = Some q /\ q <> "" /\ force_high_quality cmdl_opts = false
    /\ lower q <> "highest" /\ lower q <> "lowest"
    /\ forall c, c ∈ sources -> lower c <> lower q in
  let message q :=
    "Quality '" +:+ q +:+ "' is not available. Available qualities: "
      +:+ py_repr_list sources in
  (forall q, no_match q ->
     fst out = Raise (FormatNotAvailableException (message q))
     /\ mentions (message q) (py_repr_str q)
     /\ forall c, c ∈ sources -> mentions (message q) (py_repr_str c))
  /\ (sources <> [] -> forall e, fst out = Raise e -> exists q, no_match q).
Proof.
  intros out no_match message. subst out. unfold select_dmc_quality.
  split.
  - intros q (-> & Hq & Hforce & Hhigh & Hlow & Hnone). simpl default.
    assert (Htr : truthy (Some q) = true) by (apply truthy_true; by exists q).
    apply String.eqb_neq in Hhigh, Hlow.
    rewrite Htr, Hforce. run_monad. simpl. rewrite Hhigh, Hlow.
    pose proof (filter_first (fun c => lower c = lower q) sources) as Hf.
    destruct (filter (fun c => lower c = lower q) sources) as [|c' rest].
    + split_and!.
      * done.
      * subst message. simpl.
        exists "Quality ",
          (" is not available. Available qualities: " +:+ py_repr_list sources).
        unfold py_repr_str. rewrite !string_app_assoc. reflexivity.
      * intros c Hc. subst message. simpl.
        change (mentions ("Quality '" +:+ q +:+
                  "' is not available. Available qualities: " +:+ py_repr_list sources)
                  (py_repr_str c)).
        by do 3 apply mentions_app_r; apply py_repr_list_mentions.
    + destruct Hf as (pre & post & -> & Hc' & _).
      exfalso. apply (Hnone c'); [|done].
      apply elem_of_app; right. apply elem_of_cons; by left.
  - intros Hne e.
    destruct sources as [|c0 sources']; [done|]. clear Hne.
    set (sources := c0 :: sources') in *.
    destruct (truthy quality) eqn:Htr; simpl.
    2:{ destruct (force_high_quality cmdl_opts); run_monad; simpl; done. }
    destruct (force_high_quality cmdl_opts) eqn:Hforce; simpl.
    { run_monad; simpl; done. }
    apply truthy_true in Htr as (q & -> & Hq). simpl default.
    destruct (String.eqb (lower q) "highest") eqn:Hhigh.
    { run_monad; simpl; done. }
    destruct (String.eqb (lower q) "lowest") eqn:Hlow.
    { run_monad. simpl.
      change (length sources' - 0)%nat with (length sources - 1)%nat.
      change (c0 :: sources') with sources.
      destruct (last sources) as [cl|] eqn:Hlast; [|by apply last_None in Hlast].
      rewrite (drop_last_singleton _ _ Hlast). done. }
    run_monad. simpl.
    change (@cons string c0 sources') with sources.
    pose proof (filter_first (fun c => lower c = lower q) sources) as Hf.
    destruct (filter (fun c => lower c = lower q) sources) as [|c' rest]; [|done].
    intros _. exists q. apply String.eqb_neq in Hhigh, Hlow. done.
Qed.

Lemma select_dmc_quality_failure_witness :
  fst (select_dmc_quality opts_default "video_quality" candidates_ABC
         (Some "ultra") sel_init)
  = Raise (FormatNotAvailableException
      "Quality 'ultra' is not available. Available qualities: ['high', 'mid', 'low']").
Proof.
  destruct (select_dmc_quality_failure opts_default "video_quality"
              candidates_ABC (Some "ultra") sel_init) as [H _].
  destruct (H "ultra") as [Hr _]; [|exact Hr].
  split_and!; [reflexivity|discriminate|reflexivity|discriminate|discriminate|].
  intros c Hc. unfold candidates_ABC in Hc.
  repeat (apply elem_of_cons in Hc as [->|Hc]; [discriminate|]).
  by apply elem_of_nil in Hc.
Defined.

(** ** Playlist selection *)

Lemma playlist_fold (l : list (N * string)) :
  l <> [] ->
  exists i bw uri,
    l !! i = Some (bw, uri)
    /\ fold_left playlist_step l (-1, None) = (Z.of_N bw, Some uri)
    /\ (forall j bw' uri', l !! j = Some (bw', uri') -> (bw' <= bw)%N)
    /\ (forall j bw' uri', (j < i)%nat -> l !! j = Some (bw', uri') -> (bw' < bw)%N).
Proof.
  induction l as [|[bw_m uri_m] l IH] using rev_ind; [done|]. intros _.
  rewrite fold_left_app. cbn [fold_left].
  destruct (decide (l = [])) as [->|Hl].
  - exists 0%nat, bw_m, uri_m. unfold playlist_step. simpl.
    destruct (Z.ltb_spec (-1) (Z.of_N bw_m)); [|lia].
    split_and!; [done|done| |intros; lia].
    intros [|j] bw' uri'; simpl; [intros [= <- <-]; lia|done].
  - destruct (IH Hl) as (i & bw & uri & Hi & -> & Hmax & Hfirst).
    unfold playlist_step. cbn [fst snd].
    pose proof (lookup_lt_Some _ _ _ Hi) as Hlen.
    destruct (Z.ltb_spec (Z.of_N bw) (Z.of_N bw_m)) as [Hlt|Hge].
    + exists (length l), bw_m, uri_m. split_and!.
      * by rewrite lookup_app_r, Nat.sub_diag by lia.
      * done.
      * intros j bw' uri' Hj. apply lookup_app_Some in Hj as [Hj|[_ Hj]].
        -- specialize (Hmax _ _ _ Hj). lia.
        -- destruct (j - length l)%nat; [|done]. simpl in Hj. injection Hj as <- <-. lia.
      * intros j bw' uri' Hlt' Hj. rewrite lookup_app_l in Hj by lia.
        specialize (Hmax _ _ _ Hj). lia.
    + exists i, bw, uri. split_and!.
      * by rewrite lookup_app_l by lia.
      * done.
      * intros j bw' uri' Hj. apply lookup_app_Some in Hj as [Hj|[_ Hj]].
        -- by apply (Hmax _ _ _ Hj).
        -- destruct (j - length l)%nat; [|done]. simpl in Hj. injection Hj as <- <-. lia.
      * intros j bw' uri' Hlt' Hj. rewrite lookup_app_l in Hj by lia.
        by apply (Hfirst _ _ _ Hlt' Hj).
Qed.

(** C9. When the master playlist has at least one variant, the selector
    returns the URI of a variant whose bandwidth is the greatest of all,
    and every variant listed before it has a strictly smaller bandwidth:
    among variants of greatest bandwidth the first one is returned. *)
Theorem get_playlist_from_m3u8_first_max (findall : string -> list (N * string))
    (m3u8_text : string) :
  findall m3u8_text <> [] ->
  exists i bw uri,
    findall m3u8_text !! i = Some (bw, uri)
    /\ get_playlist_from_m3u8 findall m3u8_text = Ok (Some uri)
    /\ (forall j bw' uri', findall m3u8_text !! j = Some (bw', uri') -> (bw' <= bw)%N)
    /\ (forall j bw' uri', (j < i)%nat ->
          findall m3u8_text !! j = Some (bw', uri') -> (bw' < bw)%N).
Proof.
  intros Hne. unfold get_playlist_from_m3u8.
  destruct (playlist_fold (findall m3u8_text) Hne)
    as (i & bw & uri & Hi & Hacc & Hmax & Hfirst).
  exists i, bw, uri. rewrite Hacc.
  by destruct (findall m3u8_text).
Qed.

Lemma get_playlist_from_m3u8_first_max_witness :
  scenario_C_findall "" <> []
  /\ exists uri, get_playlist_from_m3u8 scenario_C_findall "" = Ok (Some uri)
                 /\ uri = "b.m3u8".
Proof.
  assert (Hne : scenario_C_findall "" <> []) by discriminate.
  split; [exact Hne|].
  destruct (get_playlist_from_m3u8_first_max scenario_C_findall "" Hne)
    as (i & bw & uri & _ & Hr & _ & _).
  exists uri. split; [exact Hr|].
  vm_compute in Hr. by injection Hr.
Defined.

(** ** The transfer engine: blocks and writes *)

Lemma len_nat {A} (l : list A) : Z.to_nat (len l) = length l.
Proof. unfold len. lia. Qed.

Lemma len_app {A} (l k : list A) : len (l ++ k) = len l + len k.
Proof. unfold len. rewrite length_app. lia. Qed.

Lemma len_nonneg {A} (l : list A) : 0 <= len l.
Proof. unfold len. lia. Qed.

Lemma len_take {A} (n : nat) (l : list A) : len (take n l) = Z.min (Z.of_nat n) (len l).
Proof. unfold len. rewrite length_take. lia. Qed.

Lemma concat_chunks {A} (fuel n : nat) (l : list A) :
  (0 < n)%nat -> (length l <= fuel)%nat -> concat (chunks fuel n l) = l.
Proof.
  intros Hn. revert l. induction fuel as [|fuel IH]; intros l Hl.
  - destruct l; [done|simpl in Hl; lia].
  - destruct l as [|x l]; [done|].
    change (chunks (S fuel) n (x :: l))
      with (take n (x :: l) :: chunks fuel n (drop n (x :: l))).
    rewrite concat_cons, IH, take_drop; [done|].
    rewrite length_drop. simpl in *. lia.
Qed.

(** The blocks of a non-empty body: a first block of [BLOCK_SIZE] bytes
    (fewer when the body is shorter), then the blocks of the rest. *)
Lemma iter_content_first (data : list byte) :
  data <> [] ->
  exists rest,
    iter_content BLOCK_SIZE data = take 1024 data :: rest
    /\ concat rest = drop 1024 data.
Proof.
  intros Hne. unfold iter_content. destruct data as [|x data]; [done|].
  exists (chunks (length data) 1024 (drop 1024 (x :: data))). split; [done|].
  apply concat_chunks; [lia|]. rewrite length_drop. simpl. lia.
Qed.

Lemma iter_content_concat (data : list byte) :
  concat (iter_content BLOCK_SIZE data) = data.
Proof. apply concat_chunks; [unfold BLOCK_SIZE; lia|done]. Qed.

Lemma write_at_end (data f : list byte) : write_at (length f) data f = f ++ data.
Proof.
  unfold write_at. rewrite take_ge, Nat.sub_diag, drop_ge by lia.
  simpl. by rewrite app_nil_r.
Qed.

Ltac run_world :=
  cbv [mbind M_bind mret M_ret raise get modify log set_file set_progress
       file_write file_seek open_file os_remove next
       session_head session_get session_get_range update_multithread_progress
       file trace progress].

Lemma write_loop_Ab (blocks : list (list byte)) (dl : Z) (f : list byte)
    (tr : list event) (pg : Z) :
  write_loop Ab dl blocks {| file := Some f; trace := tr; progress := pg |}
  = (Ok (dl + len (concat blocks)),
     {| file := Some (f ++ concat blocks); trace := tr; progress := pg |}).
Proof.
  revert dl f. induction blocks as [|block blocks IH]; intros dl f.
  - simpl. run_world. by rewrite app_nil_r, Z.add_0_r.
  - cbn [write_loop]. run_world. rewrite IH.
    rewrite concat_cons, len_app, app_assoc. do 2 f_equal. lia.
Qed.

Lemma write_loop_Wb (blocks : list (list byte)) (f : list byte)
    (tr : list event) (pg : Z) :
  write_loop Wb (len f) blocks {| file := Some f; trace := tr; progress := pg |}
  = (Ok (len f + len (concat blocks)),
     {| file := Some (f ++ concat blocks); trace := tr; progress := pg |}).
Proof.
  revert f. induction blocks as [|block blocks IH]; intros f.
  - simpl. run_world. by rewrite app_nil_r, Z.add_0_r.
  - cbn [write_loop]. run_world. rewrite len_nat, write_at_end.
    rewrite <- len_app, IH.
    rewrite concat_cons, !len_app, app_assoc. do 2 f_equal. lia.
Qed.

(** ** Single-stream transfers *)

Lemma serve_from_0 (server : remote) :
  0 < len (body server) -> serve_from server 0 = Some (body server).
Proof.
  intros H. unfold serve_from. simpl.
  destruct (Z.leb_spec (len (body server)) 0); [lia|done].
Qed.

(** What the server sends for [bytes=first-] when [first] is a byte of
    the body: the body from [first] on. *)
Lemma serve_from_inside (server : remote) (first : Z) :
  0 <= first < len (body server) ->
  serve_from server first = Some (drop (Z.to_nat first) (body server)).
Proof.
  intros H. unfold serve_from.
  destruct (Z.ltb_spec first 0); [lia|].
  by destruct (Z.leb_spec (len (body server)) first); [lia|].
Qed.

(** [bytes=first-] with a negative [first] is no byte range. *)
Lemma serve_from_negative (server : remote) (first : Z) :
  first < 0 -> serve_from server first = invalid_range server.
Proof.
  intros H. unfold serve_from. by destruct (Z.ltb_spec first 0); [|lia].
Qed.

Section SingleStream.

Variable cmdl_opts : cmdl_opts_t.
Variable server : remote.
Hypothesis no_threads : threads cmdl_opts = None.
Hypothesis server_up : up server = true.

Lemma download_video_fresh (depth : nat) (tr : list event) (pg : Z) :
  0 < len (body server) ->
  download_video cmdl_opts server (S depth)
    {| file := None; trace := tr; progress := pg |}
  = (Ok tt, {| file := Some (body server);
               trace := tr ++ [Head; Get 0; Open Wb];
               progress := pg |}).
Proof.
  intros Hlen. cbn [download_video]. run_world.
  rewrite server_up, no_threads, (serve_from_0 _ Hlen). cbn.
  rewrite (write_loop_Wb _ []). cbn.
  by rewrite iter_content_concat, <- !app_assoc.
Qed.

Variable existing : list byte.
Hypothesis shorter : len existing < len (body server).

Local Abbreviation first := (len existing - BLOCK_SIZE).

(** The file has [BLOCK_SIZE] bytes or fewer, and the server sends the
    whole body: for [BLOCK_SIZE] bytes the range is [bytes=0-]; for
    fewer the header is no byte range and the server ignores it. *)
Lemma resume_short (depth : nat) (tr : list event) (pg : Z) :
  first <= 0 -> (first < 0 -> ignores_invalid_range server = true) ->
  download_video cmdl_opts server (S (S depth))
    {| file := Some existing; trace := tr; progress := pg |}
  = (Ok tt, {| file := Some (body server);
               trace := tr ++ [Head; Open Rb; Get first; Remove; Head; Get 0; Open Wb];
               progress := pg |}).
Proof.
  intros Hfirst Hignores. remember (S depth) as depth' eqn:Hd.
  pose proof (eq_refl : BLOCK_SIZE = 1024) as HBS.
  pose proof (len_nonneg existing) as Hnn.
  cbn [download_video]. run_world.
  rewrite server_up, no_threads.
  destruct (Z.ltb_spec (len existing) (len (body server))) as [_|?]; [|lia].
  assert (Hwhole : serve_from server first = Some (body server)).
  { destruct (Z.eq_dec first 0) as [H0|H0].
    - rewrite H0. apply serve_from_0. lia.
    - rewrite serve_from_negative by lia. unfold invalid_range.
      by rewrite Hignores by lia. }
  rewrite Hwhole.
  destruct (iter_content_first (body server)) as (rest & -> & _).
  { intros Heq. rewrite Heq in shorter. unfold len in *. simpl in *. lia. }
  rewrite len_take. change (Z.of_nat 1024) with 1024.
  destruct (Z.leb_spec (len existing - Z.min 1024 (len (body server))) 0); [|lia].
  run_world. subst depth'. rewrite download_video_fresh by lia.
  by rewrite <- !app_assoc.
Qed.

(** The file has fewer than [BLOCK_SIZE] bytes and the server refuses
    the header: [raise_for_status] raises and the file stays. *)
Lemma resume_refused (depth : nat) (tr : list event) (pg : Z) :
  first < 0 -> ignores_invalid_range server = false ->
  download_video cmdl_opts server (S depth)
    {| file := Some existing; trace := tr; progress := pg |}
  = (Raise HTTPError, {| file := Some existing;
                         trace := tr ++ [Head; Open Rb; Get first];
                         progress := pg |}).
Proof.
  intros Hfirst Hrefuses.
  cbn [download_video]. run_world.
  rewrite server_up, no_threads.
  destruct (Z.ltb_spec (len existing) (len (body server))) as [_|?]; [|lia].
  rewrite serve_from_negative by done. unfold invalid_range. rewrite Hrefuses.
  by rewrite <- !app_assoc.
Qed.

Lemma resume_block (Hfirst : 0 < first) :
  exists rest,
    iter_content BLOCK_SIZE (drop (Z.to_nat first) (body server))
    = take 1024 (drop (Z.to_nat first) (body server)) :: rest
    /\ concat rest = drop (Z.to_nat (len existing)) (body server)
    /\ len (take 1024 (drop (Z.to_nat first) (body server))) = 1024
    /\ take 1024 (drop (Z.to_nat first) existing) = drop (Z.to_nat first) existing.
Proof.
  pose proof (eq_refl : BLOCK_SIZE = 1024) as HBS.
  destruct (iter_content_first (drop (Z.to_nat first) (body server)))
    as (rest & Hit & Hrest).
  { intros Heq%(f_equal length). rewrite length_drop in Heq.
    unfold len in *. simpl in Heq. lia. }
  exists rest. split_and!; [done| | |].
  - rewrite Hrest, drop_drop. f_equal. unfold len in *. lia.
  - rewrite len_take. unfold len in *. rewrite length_drop. lia.
  - apply take_ge. rewrite length_drop. unfold len in *. lia.
Qed.

Lemma resume_mismatch (depth : nat) (tr : list event) (pg : Z) :
  0 < first -> ~ overlap_matches existing (body server) ->
  download_video cmdl_opts server (S (S depth))
    {| file := Some existing; trace := tr; progress := pg |}
  = (Ok tt, {| file := Some (body server);
               trace := tr ++ [Head; Open Rb; Get first; Open Rb; Remove;
                               Head; Get 0; Open Wb];
               progress := pg |}).
Proof.
  intros Hfirst Hmis. remember (S depth) as depth' eqn:Hd.
  pose proof (eq_refl : BLOCK_SIZE = 1024) as HBS.
  cbn [download_video]. run_world.
  rewrite server_up, no_threads.
  destruct (Z.ltb_spec (len existing) (len (body server))) as [_|?]; [|lia].
  rewrite serve_from_inside by lia.
  destruct (resume_block Hfirst) as (rest & -> & _ & Hlen & Htail).
  rewrite Hlen.
  destruct (Z.leb_spec (len existing - 1024) 0); [lia|].
  destruct (Z.ltb_spec first 0); [lia|].
  change (Z.to_nat 1024) with 1024%nat. rewrite Htail.
  rewrite bool_decide_eq_false_2 by exact Hmis.
  run_world. subst depth'. rewrite download_video_fresh by lia.
  by rewrite <- !app_assoc.
Qed.

Lemma resume_match (depth : nat) (tr : list event) (pg : Z) :
  0 < first -> overlap_matches existing (body server) ->
  download_video cmdl_opts server (S depth)
    {| file := Some existing; trace := tr; progress := pg |}
  = (Ok tt, {| file := Some (existing ++ drop (Z.to_nat (len existing)) (body server));
               trace := tr ++ [Head; Open Rb; Get first; Open Rb; Open Ab];
               progress := pg |}).
Proof.
  intros Hfirst Hmatch.
  pose proof (eq_refl : BLOCK_SIZE = 1024) as HBS.
  cbn [download_video]. run_world.
  rewrite server_up, no_threads.
  destruct (Z.ltb_spec (len existing) (len (body server))) as [_|?]; [|lia].
  rewrite serve_from_inside by lia.
  destruct (resume_block Hfirst) as (rest & -> & Hrest & Hlen & Htail).
  rewrite Hlen.
  destruct (Z.leb_spec (len existing - 1024) 0); [lia|].
  destruct (Z.ltb_spec first 0); [lia|].
  change (Z.to_nat 1024) with 1024%nat. rewrite Htail.
  rewrite bool_decide_eq_true_2 by exact Hmatch.
  destruct (Z.ltb_spec (first + 1024) 0); [lia|].
  run_world. rewrite write_loop_Ab, Hrest.
  by rewrite <- !app_assoc.
Qed.

End SingleStream.

(** C1, amended. An existing file of at least [BLOCK_SIZE] bytes that
    is shorter than the remote content makes the engine request the
    content again from [max 0 (len existing - BLOCK_SIZE)]. When the
    file has exactly [BLOCK_SIZE] bytes, or the block fetched first
    differs from the last block of the file, the file is removed and the
    transfer starts again from 0, which leaves the file a fresh download
    leaves. When the blocks are equal the rest of the stream is appended
    to the file: the result is the existing file followed by the remote
    bytes from [len existing] on, and that is the file of a fresh
    download when the bytes of the existing file before the compared
    block are the remote ones too. *)
Theorem download_video_resume (cmdl_opts : cmdl_opts_t) (server : remote)
    (existing : list byte) (tr : list event) (pg : Z) (depth : nat) :
  threads cmdl_opts = None -> up server = true ->
  BLOCK_SIZE <= len existing -> len existing < len (body server) ->
  (2 <= depth)%nat ->
  let first := len existing - BLOCK_SIZE in
  let out := download_video cmdl_opts server depth
               {| file := Some existing; trace := tr; progress := pg |} in
  let fresh := download_video cmdl_opts server depth
                 {| file := None; trace := tr; progress := pg |} in
  fst out = Ok tt
  /\ (fst fresh = Ok tt /\ file (snd fresh) = Some (body server))
  /\ (exists rest,
        trace (snd out) = tr ++ [Head; Open Rb; Get (Z.max 0 first)] ++ rest)
  /\ (first <= 0 \/ ~ overlap_matches existing (body server) ->
      (exists mid, trace (snd out)
                   = tr ++ [Head; Open Rb; Get (Z.max 0 first)] ++ mid
                        ++ [Remove; Head; Get 0; Open Wb])
      /\ file (snd out) = file (snd fresh))
  /\ (0 < first -> overlap_matches existing (body server) ->
      trace (snd out) = tr ++ [Head; Open Rb; Get (Z.max 0 first); Open Rb; Open Ab]
      /\ file (snd out)
         = Some (existing ++ drop (Z.to_nat (len existing)) (body server))
      /\ (take (Z.to_nat first) existing = take (Z.to_nat first) (body server) ->
          file (snd out) = file (snd fresh))).
Proof.
  intros Hthreads Hup Hblock Hshort Hdepth first out fresh.
  destruct depth as [|[|depth]]; [lia|lia|]. clear Hdepth.
  pose proof (eq_refl : BLOCK_SIZE = 1024) as HBS.
  assert (Hmax : Z.max 0 first = first) by (subst first; lia).
  rewrite Hmax.
  assert (Hfresh : fresh = (Ok tt, {| file := Some (body server);
                                      trace := tr ++ [Head; Get 0; Open Wb];
                                      progress := pg |})).
  { subst fresh. apply download_video_fresh; [done|done|lia]. }
  rewrite Hfresh. cbn [fst snd file].
  assert (Hcases : first = 0
                   \/ (0 < first /\ ~ overlap_matches existing (body server))
                   \/ (0 < first /\ overlap_matches existing (body server))).
  { destruct (Z.eq_dec first 0) as [?|?]; [by left|right].
    assert (0 < first) by (subst first; lia).
    destruct (decide (overlap_matches existing (body server))); [right|left]; done. }
  assert (Hzero : first = 0 ->
            out = (Ok tt, {| file := Some (body server);
                             trace := tr ++ [Head; Open Rb; Get first; Remove;
                                             Head; Get 0; Open Wb];
                             progress := pg |})).
  { intros H. subst out. apply resume_short; [done|done|done|lia|intros; lia]. }
  split_and!.
  - destruct Hcases as [H|[[H1 H2]|[H1 H2]]].
    + by rewrite Hzero.
    + subst out. by rewrite resume_mismatch.
    + subst out. by rewrite resume_match.
  - done.
  - done.
  - destruct Hcases as [H|[[H1 H2]|[H1 H2]]].
    + rewrite Hzero by done. by eexists.
    + subst out. rewrite resume_mismatch by done. by eexists.
    + subst out. rewrite resume_match by done. by eexists.
  - intros Hrestart.
    destruct Hcases as [H|[[H1 H2]|[H1 H2]]].
    + rewrite Hzero by done. split; [by exists []|done].
    + subst out. rewrite resume_mismatch by done. split; [by exists [Open Rb]|done].
    + destruct Hrestart; [lia|done].
  - intros Hpos Hmatch. subst out. rewrite resume_match by done.
    split_and!; [done|done|]. cbn [snd file]. intros Hprefix. f_equal.
    rewrite <- (take_drop (Z.to_nat first) existing) at 1.
    unfold overlap_matches in Hmatch. fold first in Hmatch.
    rewrite <- Hmatch, Hprefix.
    rewrite <- (take_drop (Z.to_nat first) (body server)) at 4.
    rewrite <- app_assoc. f_equal.
    rewrite <- (take_drop (Z.to_nat BLOCK_SIZE) (drop (Z.to_nat first) (body server))) at 2.
    f_equal. rewrite drop_drop. f_equal.
    subst first. unfold BLOCK_SIZE in *. unfold len in *. lia.
Qed.

Lemma download_video_resume_witness :
  let existing := take 2048 (replicate 3000 x01) in
  let server := {| up := true; body := replicate 3000 x01;
                   ignores_invalid_range := false |} in
  fst (download_video opts_default server 2 (world_init (Some existing))) = Ok tt
  /\ file (snd (download_video opts_default server 2 (world_init (Some existing))))
     = Some (body server).
Proof.
  intros existing server.
  assert (Hblock : BLOCK_SIZE <= len existing) by (vm_compute; discriminate).
  assert (Hshort : len existing < len (body server)) by (vm_compute; reflexivity).
  destruct (download_video_resume opts_default server existing [] 0 2
              eq_refl eq_refl Hblock Hshort (le_n 2))
    as (Hok & [_ Hfresh] & _ & _ & Hresume).
  split; [exact Hok|].
  destruct Hresume as (_ & _ & Hsame).
  - vm_compute; reflexivity.
  - vm_compute; reflexivity.
  - unfold world_init. rewrite Hsame, Hfresh; [reflexivity|].
    vm_compute; reflexivity.
Defined.

(** C1 as stated fails, at two inputs. With the partial file
    [stale_file], whose last block is the remote one and whose first
    byte is not, the engine resumes and the file it leaves is not the
    file of a fresh download. With a partial file of five bytes the
    offset sent is [5 - BLOCK_SIZE], not [max 0 (5 - BLOCK_SIZE)]; the
    server, which answers a header that is no byte range with an error
    status, makes the call raise, and the file is neither removed nor
    completed. *)
Lemma download_video_resume_counterexample :
  let out := download_video opts_default stale_server 2 (world_init (Some stale_file)) in
  let fresh := download_video opts_default stale_server 2 (world_init None) in
  let short := take 5 (body stale_server) in
  let out5 := download_video opts_default stale_server 2 (world_init (Some short)) in
  (len stale_file < len (body stale_server)
   /\ overlap_matches stale_file (body stale_server)
   /\ fst out = Ok tt
   /\ (Remove ∉ trace (snd out))
   /\ file (snd fresh) = Some (body stale_server)
   /\ file (snd out) <> file (snd fresh))
  /\ (len short < len (body stale_server)
      /\ len short - BLOCK_SIZE <= 0
      /\ trace (snd out5) = [Head; Open Rb; Get (-1019)]
      /\ (Get (Z.max 0 (len short - BLOCK_SIZE)) ∉ trace (snd out5))
      /\ fst out5 = Raise HTTPError
      /\ file (snd out5) = Some short
      /\ file (snd out5) <> file (snd fresh)).
Proof.
  split; split_and!.
  - vm_compute; reflexivity.
  - vm_compute; reflexivity.
  - vm_compute; reflexivity.
  - vm_compute. intros H. repeat (apply elem_of_cons in H as [H|H]; [discriminate|]).
    by apply elem_of_nil in H.
  - vm_compute; reflexivity.
  - vm_compute. discriminate.
  - vm_compute; reflexivity.
  - vm_compute. discriminate.
  - vm_compute; reflexivity.
  - vm_compute. intros H. repeat (apply elem_of_cons in H as [H|H]; [discriminate|]).
    by apply elem_of_nil in H.
  - vm_compute; reflexivity.
  - vm_compute; reflexivity.
  - vm_compute. discriminate.
Qed.

(** C5. An existing file as long as the remote content ends the
    transfer at once: the call returns, the file is as it was, and the
    HEAD request for the length is the only request sent. An existing
    file longer than the remote content makes the call raise
    [FormatNotAvailableException] with the length message, again with no
    other request and the file as it was; --force-high-quality is not
    consulted, so no resume is made with or without it. *)
Theorem download_video_size_gate (cmdl_opts : cmdl_opts_t) (server : remote)
    (existing : list byte) (tr : list event) (pg : Z) (depth : nat) :
  threads cmdl_opts = None -> up server = true -> (1 <= depth)%nat ->
  let w := {| file := Some existing; trace := tr; progress := pg |} in
  let w' := {| file := Some existing; trace := tr ++ [Head; Open Rb]; progress := pg |} in
  (len existing = len (body server) ->
   download_video cmdl_opts server depth w = (Ok tt, w'))
  /\ (len (body server) < len existing ->
      download_video cmdl_opts server depth w
      = (Raise (FormatNotAvailableException length_message), w')).
Proof.
  intros Hthreads Hup Hdepth w w'. subst w w'.
  destruct depth as [|depth]; [lia|]. clear Hdepth.
  split; intros Hlen; cbn [download_video]; run_world;
    rewrite Hup, Hthreads;
    destruct (Z.ltb_spec (len existing) (len (body server))); try lia;
    destruct (Z.ltb_spec (len (body server)) (len existing)); try lia;
    by rewrite <- !app_assoc.
Qed.

Lemma download_video_size_gate_witness :
  download_video opts_force stale_server 1 (world_init (Some (body stale_server)))
  = (Ok tt, {| file := Some (body stale_server); trace := [Head; Open Rb]; progress := 0 |})
  /\ download_video opts_force stale_server 1 (world_init (Some (x00 :: body stale_server)))
     = (Raise (FormatNotAvailableException length_message),
        {| file := Some (x00 :: body stale_server); trace := [Head; Open Rb]; progress := 0 |}).
Proof.
  split.
  - apply (download_video_size_gate opts_force stale_server (body stale_server) [] 0 1
             eq_refl eq_refl (le_n 1)). reflexivity.
  - apply (download_video_size_gate opts_force stale_server (x00 :: body stale_server)
             [] 0 1 eq_refl eq_refl (le_n 1)). vm_compute; reflexivity.
Defined.

(** C8, amended. With a thread count of zero or less, [download_video]
    first sends the HEAD request that reads the content length. When
    the server answers it the call raises [ArgumentException]; otherwise
    the HTTP error is raised. In both cases nothing else is sent, the
    file is not opened, written or removed, and the counter is as it
    was. *)
Theorem download_video_bad_threads (cmdl_opts : cmdl_opts_t) (server : remote)
    (n : Z) (w : world) (depth : nat) :
  threads cmdl_opts = Some n -> n <= 0 -> (1 <= depth)%nat ->
  download_video cmdl_opts server depth w
  = (Raise (if up server
            then ArgumentException "Thread number must be a positive integer"
            else HTTPError),
     {| file := file w; trace := trace w ++ [Head]; progress := progress w |}).
Proof.
  intros Hthreads Hn Hdepth.
  destruct depth as [|depth]; [lia|]. clear Hdepth.
  cbn [download_video]. run_world. rewrite Hthreads.
  destruct (up server); [|done].
  by destruct (Z.leb_spec n 0); [|lia].
Qed.

Lemma download_video_bad_threads_witness :
  download_video (opts_threads 0) stale_server 1 (world_init (Some stale_file))
  = (Raise (ArgumentException "Thread number must be a positive integer"),
     {| file := Some stale_file; trace := [Head]; progress := 0 |}).
Proof.
  apply (download_video_bad_threads (opts_threads 0) stale_server 0
           (world_init (Some stale_file)) 1 eq_refl); [reflexivity|apply le_n].
Defined.

(** C8 as stated fails: when zero threads are requested the error comes
    after a request has been sent. *)
Lemma download_video_bad_threads_counterexample :
  let out := download_video (opts_threads 0) stale_server 1 (world_init None) in
  (exists msg, fst out = Raise (ArgumentException msg))
  /\ trace (world_init None) = []
  /\ trace (snd out) = [Head].
Proof. split_and!; [by eexists|done|done]. Qed.

(** ** Planning the ranges of the threads *)

(** The mantissa is within one half of the quotient. *)
Lemma round_half_even_bounds (num den : Z) :
  0 <= num -> 0 < den ->
  0 <= round_half_even num den
  /\ 2 * num - den <= 2 * round_half_even num den * den <= 2 * num + den.
Proof.
  intros Hnum Hden. unfold round_half_even. cbv zeta.
  pose proof (Z.div_mod num den ltac:(lia)) as Hdm.
  pose proof (Z.mod_pos_bound num den Hden) as Hr.
  pose proof (Z.div_pos num den Hnum Hden) as Hq.
  destruct (Z.ltb_spec (2 * (num mod den)) den);
    [|destruct (Z.ltb_spec den (2 * (num mod den))); [|destruct (Z.even (num / den))]];
    (split; [lia|nia]).
Qed.

Lemma ceil_div_nonneg (a b : Z) : 0 <= a -> 0 < b -> 0 <= ceil_div a b.
Proof.
  intros Ha Hb. unfold ceil_div, true_div. cbv zeta.
  rewrite (Z.abs_eq a), (Z.abs_eq b) by lia.
  destruct (Z.eqb_spec a 0) as [->|Hne]; [done|].
  destruct (Z.ltb_spec a 0); [lia|]. destruct (Z.ltb_spec b 0); [lia|].
  cbn [xorb].
  set (e := Z.max _ _). unfold math_ceil.
  destruct (Z.leb_spec 0 e) as [He|He].
  - destruct (round_half_even_bounds a (b * 2 ^ e)) as [Hm _]; [lia| |].
    + apply Z.mul_pos_pos; [lia|]. by apply Z.pow_pos_nonneg.
    + apply Z.mul_nonneg_nonneg; [done|]. apply Z.pow_nonneg. lia.
  - assert (Hs : 0 < 2 ^ (- e)) by (apply Z.pow_pos_nonneg; lia).
    destruct (round_half_even_bounds (a * 2 ^ (- e)) b) as [Hm _]; [nia|done|].
    apply Z.opp_nonneg_nonpos. apply Z.div_le_upper_bound; [done|]. lia.
Qed.

(** Below 2^53 the ceiling of the float quotient is the ceiling of the
    quotient. *)
Lemma ceil_div_exact (a b : Z) :
  0 <= a < 2 ^ 53 -> 0 < b < 2 ^ 1074 -> ceil_div a b = - ((- a) / b).
Proof.
  intros Ha Hb. unfold ceil_div, true_div. cbv zeta.
  rewrite (Z.abs_eq a), (Z.abs_eq b) by lia.
  destruct (Z.eqb_spec a 0) as [->|Hne]; [done|].
  destruct (Z.ltb_spec a 0); [lia|]. destruct (Z.ltb_spec b 0); [lia|].
  cbn [xorb].
  pose proof (Z.log2_spec a ltac:(lia)) as Hla.
  pose proof (Z.log2_spec b ltac:(lia)) as Hlb.
  pose proof (Z.log2_nonneg b) as Hlb0.
  assert (Hla53 : Z.log2 a <= 52).
  { enough (Z.log2 a < 53) by lia. apply Z.log2_lt_pow2; lia. }
  set (k := Z.log2 a - Z.log2 b) in *.
  set (at_least := if 0 <=? k then _ else _).
  set (e := Z.max _ _).
  set (c := - ((- a) / b)).
  assert (Hc : c * b - b < a <= c * b).
  { pose proof (Z.div_mod (- a) b ltac:(lia)).
    pose proof (Z.mod_pos_bound (- a) b ltac:(lia)). subst c. nia. }
  unfold math_ceil. destruct (Z.leb_spec 0 e) as [He|He].
  - (* the quotient is 2^52 or more: the divisor is 1 *)
    assert (Hk : k = 52 /\ at_least = true).
    { subst e. destruct at_least; lia. }
    destruct Hk as [Hk Hat].
    assert (He0 : e = 0) by (subst e; rewrite Hat; lia).
    assert (Hb1 : b = 1).
    { subst at_least. destruct (Z.leb_spec 0 k); [|lia].
      apply Z.leb_le in Hat. rewrite Hk in Hat. lia. }
    rewrite He0. subst c. rewrite Hb1. change (1 * 2 ^ 0) with 1.
    unfold round_half_even. rewrite !Z.div_1_r, Z.mod_1_r. simpl. lia.
  - (* the unit of the mantissa is small enough to tell the quotient
       from the integers around it *)
    set (s := 2 ^ (- e)).
    assert (Hs : 0 < s) by (apply Z.pow_pos_nonneg; lia).
    assert (Hfine : b < 2 * s).
    { destruct (Z.eq_dec e (-1074)) as [He'|He'].
      - subst s. rewrite He'. change (- -1074) with 1074. lia.
      - assert (Z.log2 b <= - e) by (subst e; destruct at_least; lia).
        assert (2 ^ Z.log2 b <= s) by (apply Z.pow_le_mono_r; lia).
        rewrite Z.pow_succ_r in Hlb by done. lia. }
    destruct (round_half_even_bounds (a * s) b) as [Hm0 Hm]; [nia|lia|].
    set (m := round_half_even (a * s) b) in *.
    f_equal. symmetry. apply (Z.div_unique _ _ _ (c * s - m)).
    + left. nia.
    + lia.
Qed.

(** From 2^53 on it can be less. *)
Lemma ceil_div_inexact :
  ceil_div 9007199254740993 2 = 4503599627370496
  /\ - ((- 9007199254740993) / 2) = 4503599627370497.
Proof. split; reflexivity. Qed.

Lemma ceil_div_spec (a b : Z) :
  0 <= a < 2 ^ 53 -> 0 < b < 2 ^ 1074 ->
  a <= ceil_div a b * b < a + b.
Proof.
  intros Ha Hb. rewrite ceil_div_exact by done.
  pose proof (Z.div_mod (- a) b ltac:(lia)) as Hdm.
  pose proof (Z.mod_pos_bound (- a) b ltac:(lia)) as Hmod. nia.
Qed.

Lemma partitions_from (video_len threads_ part : Z) (count i0 : nat) :
  0 <= part -> part * (threads_ - 1) <= video_len ->
  Z.of_nat (i0 + S count) = threads_ ->
  tiles (part * Z.of_nat i0) video_len
        (map (part_bounds video_len threads_ part) (map Z.of_nat (seq i0 (S count)))).
Proof.
  intros Hpart Hfit. revert i0. induction count as [|count IH]; intros i0 Hi0.
  - simpl. unfold part_bounds.
    destruct (Z.eqb_spec (Z.of_nat i0) (threads_ - 1)) as [Heq|?]; [|lia].
    rewrite Heq. done.
  - specialize (IH (S i0) ltac:(lia)).
    remember (S count) as count' eqn:Hc. cbn [seq map].
    remember (map (part_bounds video_len threads_ part)
                  (map Z.of_nat (seq (S i0) count'))) as rest eqn:Hrest.
    unfold part_bounds.
    destruct (Z.eqb_spec (Z.of_nat i0) (threads_ - 1)) as [?|_]; [lia|].
    cbn [tiles]. split_and!; [done|lia|].
    by replace (part * Z.of_nat i0 + part) with (part * Z.of_nat (S i0)) by lia.
Qed.

Lemma partitions_lookup (video_len threads_ : Z) (i : nat) (start end_ : Z) :
  partitions video_len threads_ !! i = Some (start, end_) ->
  (i < Z.to_nat threads_)%nat
  /\ (start, end_) = part_bounds video_len threads_ (ceil_div video_len threads_)
                                 (Z.of_nat i).
Proof.
  unfold partitions, range. rewrite !list_lookup_fmap.
  destruct (seq 0 (Z.to_nat threads_) !! i) as [j|] eqn:Hj; [|done].
  apply lookup_seq in Hj as [-> Hlt]. simpl. by intros [= <- <-].
Qed.

(** The ranges planned for the threads tile the content when the ranges
    before the last one fit in it. *)
Lemma partitions_tile (video_len threads_ : Z) :
  0 < threads_ -> 0 <= video_len ->
  ceil_div video_len threads_ * (threads_ - 1) <= video_len ->
  tiles 0 video_len (partitions video_len threads_)
  /\ sized (ceil_div video_len threads_) (partitions video_len threads_)
  /\ length (partitions video_len threads_) = Z.to_nat threads_.
Proof.
  intros Hn Hlen Hfit.
  assert (Hlength : length (partitions video_len threads_) = Z.to_nat threads_).
  { unfold partitions, range. by rewrite !length_map, length_seq. }
  split_and!; [| |done].
  - unfold partitions, range.
    destruct (Z.to_nat threads_) as [|count] eqn:Hcount; [lia|].
    pose proof (ceil_div_nonneg video_len threads_ Hlen Hn) as Hpart.
    pose proof (partitions_from video_len threads_ (ceil_div video_len threads_)
                  count 0 Hpart Hfit ltac:(lia)) as Htiles.
    by rewrite Z.mul_0_r in Htiles.
  - intros i start end_ [Hi Hb]%partitions_lookup Hlast.
    rewrite Hlength in Hlast. unfold part_bounds in Hb.
    destruct (Z.eqb_spec (Z.of_nat i) (threads_ - 1)) as [?|_]; [lia|].
    injection Hb as -> ->. lia.
Qed.

(** That condition holds as soon as the content has [threads * (threads - 1)]
    bytes, and fewer than 2^53. *)
Lemma threads_bound (video_len threads_ : Z) :
  0 < threads_ -> threads_ * (threads_ - 1) <= video_len -> video_len < 2 ^ 53 ->
  threads_ < 2 ^ 1074.
Proof.
  intros Hn Hbig Hsmall.
  assert (threads_ <= 2 ^ 27) by nia.
  assert (2 ^ 27 < 2 ^ 1074) by (apply Z.pow_lt_mono_r; lia). lia.
Qed.

Lemma partitions_fit (video_len threads_ : Z) :
  0 < threads_ -> threads_ * (threads_ - 1) <= video_len -> video_len < 2 ^ 53 ->
  ceil_div video_len threads_ * (threads_ - 1) <= video_len.
Proof.
  intros Hn Hbig Hsmall.
  pose proof (threads_bound _ _ Hn Hbig Hsmall) as Hthreads.
  pose proof (ceil_div_nonneg video_len threads_ ltac:(nia) Hn) as Hpart.
  pose proof (ceil_div_spec video_len threads_ ltac:(nia) ltac:(lia)) as Hceil. nia.
Qed.

(** With two threads or more no range starts at the end of the content. *)
Lemma partitions_fit_strict (video_len threads_ : Z) :
  1 < threads_ -> threads_ * (threads_ - 1) <= video_len -> video_len < 2 ^ 53 ->
  ceil_div video_len threads_ * (threads_ - 1) < video_len.
Proof.
  intros Hn Hbig Hsmall.
  pose proof (threads_bound video_len threads_ ltac:(lia) Hbig Hsmall) as Hthreads.
  pose proof (ceil_div_nonneg video_len threads_ ltac:(nia) ltac:(lia)) as Hpart.
  pose proof (ceil_div_spec video_len threads_ ltac:(nia) ltac:(lia)) as Hceil.
  enough (ceil_div video_len threads_ * (threads_ - 1) * threads_
          < video_len * threads_) by nia.
  nia.
Qed.

(** C2, at the inputs that decide it. The content of 1000 bytes is split
    among 4 threads as the specification says. The content of 5 bytes is
    split among 4 threads into ranges that do not tile it: the third one
    ends after the content and the last one starts after its own end. *)
Theorem partitions_overrun :
  partitions 1000 4 = [(0, 250); (250, 500); (500, 750); (750, 1000)]
  /\ tiles 0 1000 (partitions 1000 4)
  /\ partitions 5 4 = [(0, 2); (2, 4); (4, 6); (6, 5)]
  /\ ~ tiles 0 5 (partitions 5 4).
Proof.
  assert (H1000 : partitions 1000 4 = [(0, 250); (250, 500); (500, 750); (750, 1000)])
    by reflexivity.
  assert (H5 : partitions 5 4 = [(0, 2); (2, 4); (4, 6); (6, 5)]) by reflexivity.
  rewrite H1000, H5. cbn [tiles]. split_and!; [done|lia..|done|lia].
Qed.

(** ** The counter of a multithreaded transfer *)

Lemma serve_range_len (server : remote) (first last : Z) :
  0 <= first < len (body server) -> first <= last ->
  exists data,
    serve_range server first last = Some data
    /\ len data = Z.min last (len (body server) - 1) - first + 1.
Proof.
  intros Hfirst Hlast. unfold serve_range.
  destruct (Z.ltb_spec first 0); [lia|].
  destruct (Z.ltb_spec last first); [lia|]. simpl.
  destruct (Z.leb_spec (len (body server)) first); [lia|].
  eexists. split; [done|].
  rewrite len_take. unfold len in *. rewrite length_drop. lia.
Qed.

Section Workers.

Variable server : remote.
Hypothesis server_up : up server = true.

Lemma part_loop_spec (blocks : list (list byte)) (pos : Z) (f : list byte)
    (tr : list event) (pg : Z) :
  exists f',
    part_loop pos blocks {| file := Some f; trace := tr; progress := pg |}
    = (Ok tt, {| file := Some f'; trace := tr;
                 progress := pg + len (concat blocks) |}).
Proof.
  revert pos f pg. induction blocks as [|block blocks IH]; intros pos f pg.
  - exists f. simpl. run_world. by rewrite Z.add_0_r.
  - cbn [part_loop]. run_world.
    destruct (IH (pos + len block) (write_at (Z.to_nat pos) block f)
                 (pg + len block)) as (f' & ->).
    exists f'. rewrite concat_cons, len_app. by rewrite Z.add_assoc.
Qed.

(** A thread whose range starts inside the content adds [part_delta]
    to the counter. *)
Lemma download_video_part_spec (start end_ : Z) (f : list byte)
    (tr : list event) (pg : Z) :
  0 <= start < len (body server) -> start <= end_ ->
  exists f',
    download_video_part server start end_
      {| file := Some f; trace := tr; progress := pg |}
    = (Ok tt, {| file := Some f'; trace := tr ++ [GetRange start end_; Open RPlusB];
                 progress := pg + part_delta (len (body server)) (start, end_) |}).
Proof.
  intros Hstart Hend. unfold download_video_part. run_world.
  rewrite server_up.
  destruct (serve_range_len server start end_ Hstart Hend)
    as (data & -> & Hdata).
  destruct (Z.ltb_spec start 0); [lia|].
  destruct (part_loop_spec (iter_content BLOCK_SIZE data) start f
              ((tr ++ [GetRange start end_]) ++ [Open RPlusB]) pg) as (f' & ->).
  exists f'. rewrite iter_content_concat, <- app_assoc.
  unfold part_delta. cbn [fst snd]. rewrite Hdata.
  f_equal. f_equal. lia.
Qed.

Lemma dispatch_spec (parts : list (Z * Z)) (f : list byte)
    (tr : list event) (pg : Z) :
  Forall (fun p => 0 <= fst p < len (body server) /\ fst p <= snd p) parts ->
  exists f' tr',
    dispatch server parts {| file := Some f; trace := tr; progress := pg |}
    = (Ok tt, {| file := Some f'; trace := tr';
                 progress := pg + total_delta (len (body server)) parts |}).
Proof.
  intros Hparts. revert f tr pg.
  induction Hparts as [|[start end_] parts [Hstart Hend] _ IH]; intros f tr pg.
  - exists f, tr. simpl. run_world. by rewrite Z.add_0_r.
  - cbn [dispatch]. unfold run_thread. run_world.
    destruct (download_video_part_spec start end_ f tr pg Hstart Hend)
      as (f1 & ->). cbn [snd].
    destruct (IH f1 (tr ++ [GetRange start end_; Open RPlusB])
                 (pg + part_delta (len (body server)) (start, end_)))
      as (f' & tr' & ->).
    exists f', tr'. cbn [total_delta foldr].
    fold (total_delta (len (body server)) parts). by rewrite Z.add_assoc.
Qed.

End Workers.

(** Over ranges that tile the content from [lo] on and all start inside
    it, the threads add [video_len - 1 - lo] in total: a range before the
    last one is fetched with one byte more than it holds, which the
    adjustment takes off again; the last range is fetched as it is, and
    the adjustment takes one byte off all the same. *)
Lemma total_delta_tiles (video_len lo : Z) (parts : list (Z * Z)) :
  parts <> [] -> tiles lo video_len parts ->
  Forall (fun p => fst p < video_len) parts ->
  total_delta video_len parts = video_len - 1 - lo.
Proof.
  revert lo. induction parts as [|[start end_] parts IH]; intros lo Hne Htiles Hin; [done|].
  cbn [tiles] in Htiles. destruct Htiles as (-> & Hle & Htiles).
  apply Forall_cons in Hin as [Hstart Hin]. cbn [fst] in Hstart.
  cbn [total_delta foldr]. fold (total_delta video_len parts).
  unfold part_delta at 1. cbn [fst snd].
  destruct parts as [|[start' end'] parts'].
  - cbn [tiles] in Htiles. subst end_. cbn [total_delta foldr]. lia.
  - rewrite (IH end_); [|done|done|done].
    cbn [tiles] in Htiles. destruct Htiles as (-> & _ & _).
    apply Forall_cons in Hin as [Hstart' _]. cbn [fst] in Hstart'. lia.
Qed.

Lemma partitions_good (video_len threads_ : Z) :
  0 < threads_ -> 0 <= video_len ->
  ceil_div video_len threads_ * (threads_ - 1) < video_len ->
  Forall (fun p => 0 <= fst p < video_len /\ fst p <= snd p)
         (partitions video_len threads_).
Proof.
  intros Hn Hlen Hfit. apply Forall_lookup. intros i [start end_] Hi.
  apply partitions_lookup in Hi as [Hi Hb].
  pose proof (ceil_div_nonneg video_len threads_ Hlen Hn) as Hpart.
  unfold part_bounds in Hb. cbn [fst snd].
  destruct (Z.eqb_spec (Z.of_nat i) (threads_ - 1)) as [Heq|Hneq];
    injection Hb as -> ->; nia.
Qed.

(** After a multithreaded transfer whose ranges tile the content and
    start inside it, the counter is one less than the content length. *)
Lemma multithread_progress (cmdl_opts : cmdl_opts_t) (server : remote)
    (threads_ : Z) (w : world) (depth : nat) :
  threads cmdl_opts = Some threads_ -> up server = true -> 0 < threads_ ->
  ceil_div (len (body server)) threads_ * (threads_ - 1) < len (body server) ->
  let out := download_video cmdl_opts server (S depth) w in
  fst out = Ok tt /\ progress (snd out) = len (body server) - 1.
Proof.
  intros Hthreads Hup Hn Hfit out. subst out.
  pose proof (len_nonneg (body server)) as Hlen.
  cbn [download_video]. run_world. rewrite Hup, Hthreads.
  destruct (Z.leb_spec threads_ 0); [lia|].
  pose proof (partitions_good _ _ Hn Hlen Hfit) as Hgood.
  match goal with
  | |- context [dispatch server ?parts {| file := Some ?f; trace := ?tr; progress := ?pg |}] =>
      destruct (dispatch_spec server Hup parts f tr pg) as (f' & tr' & ->)
  end.
  { eapply Forall_impl; [exact Hgood|]. done. }
  cbn [fst snd progress]. split; [done|].
  destruct (partitions_tile _ _ Hn Hlen ltac:(lia)) as (Htiles & _ & Hlength).
  rewrite (total_delta_tiles _ 0).
  - lia.
  - intros Hnil. rewrite Hnil in Hlength. simpl in Hlength. lia.
  - done.
  - eapply Forall_impl; [exact Hgood|]. intros p [? _]. lia.
Qed.

(** C6, at the input of scenario A: 1000 bytes fetched by 4 threads. The
    first range, sent as [bytes=0-250], brings 251 bytes and the last
    one, sent as [bytes=750-1000], brings 250. The transfer completes and
    the file is the remote content, but the counter stops at 999. *)
Theorem multithread_progress_short :
  let out := download_video (opts_threads 4) (sample_server 1000) 1 (world_init None) in
  fst out = Ok tt
  /\ file (snd out) = Some (body (sample_server 1000))
  /\ len <$> serve_range (sample_server 1000) 0 250 = Some 251
  /\ len <$> serve_range (sample_server 1000) 750 1000 = Some 250
  /\ progress (snd out) = 999
  /\ progress (snd out) <> len (body (sample_server 1000)).
Proof.
  assert (Hp : progress (snd (download_video (opts_threads 4) (sample_server 1000) 1
                                (world_init None))) = 999).
  { destruct (multithread_progress (opts_threads 4) (sample_server 1000) 4
                (world_init None) 0 eq_refl eq_refl) as [_ ->];
      [lia|vm_compute; reflexivity|vm_compute; reflexivity]. }
  cbv zeta. rewrite Hp. split_and!; [vm_compute; reflexivity..|done|].
  vm_compute. discriminate.
Qed.

(** ** The heartbeat timer *)

Ltac run_heartbeat :=
  cbv [Heartbeat.perform_heartbeat Heartbeat.session_post Heartbeat.start_timer
       Heartbeat.fire mbind M_bind mret M_ret raise get modify
       Heartbeat.now Heartbeat.renewals Heartbeat.timers].

(** C7, amended. A heartbeat the server accepts at time [now] starts one
    timer, due [1000 * DMC_HEARTBEAT_INTERVAL_S = 15000] milliseconds
    later whatever lifetime the session carries; when that timer fires
    the next heartbeat is sent at that time. The timer is due before the
    session expires exactly when the lifetime is longer than 15000
    milliseconds. *)
Theorem perform_heartbeat_timer (api : Heartbeat.session_doc -> option Heartbeat.session_doc)
    (doc doc' doc'' : Heartbeat.session_doc) (w : Heartbeat.hb_world) :
  api doc = Some doc' -> api doc' = Some doc'' -> Heartbeat.timers w = [] ->
  let out := Heartbeat.perform_heartbeat api doc w in
  let due := Heartbeat.now w + 15000 in
  fst out = Ok tt
  /\ Heartbeat.renewals (snd out) = Heartbeat.renewals w ++ [Heartbeat.now w]
  /\ Heartbeat.timers (snd out) = [(due, doc')]
  /\ Heartbeat.renewals (snd (Heartbeat.fire api (snd out)))
     = Heartbeat.renewals w ++ [Heartbeat.now w; due]
  /\ (due_before_expiry (Heartbeat.now w) due (Heartbeat.heartbeat_lifetime doc')
      <-> 15000 < Heartbeat.heartbeat_lifetime doc').
Proof.
  intros Hdoc Hdoc' Htimers out due. subst out due.
  destruct w as [now0 renewals0 timers0]. cbn in Htimers. subst timers0.
  run_heartbeat. rewrite Hdoc. cbn. rewrite Hdoc'. cbn.
  split_and!; [done|done|done|by rewrite <- app_assoc|].
  unfold due_before_expiry. lia.
Qed.

Lemma perform_heartbeat_timer_witness :
  Heartbeat.timers (snd (Heartbeat.perform_heartbeat echo_api short_session hb_init))
  = [(15000, short_session)].
Proof.
  destruct (perform_heartbeat_timer echo_api short_session short_session short_session
              hb_init eq_refl eq_refl eq_refl) as (_ & _ & H & _).
  exact H.
Defined.

(** C7 as stated fails: for a session granted for ten seconds the timer
    started by an accepted heartbeat is due after the session expires. *)
Lemma perform_heartbeat_timer_counterexample :
  let out := Heartbeat.perform_heartbeat echo_api short_session hb_init in
  fst out = Ok tt
  /\ Heartbeat.renewals (snd out) = [0]
  /\ exists due args,
       Heartbeat.timers (snd out) = [(due, args)]
       /\ ~ due_before_expiry 0 due (Heartbeat.heartbeat_lifetime args).
Proof.
  split_and!; [done|done|].
  exists 15000, short_session. split; [done|].
  unfold due_before_expiry. simpl. lia.
Qed.

(** ** The lock of the progress counter *)

(** C10, at two concurrent calls [update_multithread_progress(1024)].
    Each call makes its own lock, so both calls hold a lock and are
    between [acquire] and [release] at the same time; in the schedule
    where both read the counter before either writes it, both calls
    return and the counter holds 1024, not 2048. *)
Theorem update_multithread_progress_lost_update :
  let st0 := Progress.init [1024; 1024] in
  (exists st,
      Progress.run [0; 0; 1; 1]%nat st0 = Some st
      /\ Progress.lock_of <$> snd st = [Some 0%nat; Some 1%nat]
      /\ (0%nat ∈ Progress.held (fst st) /\ 1%nat ∈ Progress.held (fst st))
      /\ Forall (fun c => Progress.in_critical_section c = true) (snd st))
  /\ (exists st,
      Progress.run [0; 0; 0; 1; 1; 1; 0; 0; 1; 1]%nat st0 = Some st
      /\ Forall (fun c => Progress.returned c = true) (snd st)
      /\ Progress.held (fst st) = ∅
      /\ Progress.progress (fst st) = 1024).
Proof.
  split.
  - eexists. split; [vm_compute; reflexivity|]. cbn [fst snd].
    split_and!; [done|set_solver|set_solver|].
    repeat constructor.
  - eexists. split; [vm_compute; reflexivity|]. cbn [fst snd].
    split_and!; [repeat constructor|done|done].
Qed.

Lemma locks_private_init (deltas : list Z) : locks_private (Progress.init deltas).
Proof.
  unfold locks_private, Progress.init. cbn [fst snd Progress.held Progress.next_lock].
  assert (Hnew : forall i c, map Progress.enter deltas !! i = Some c ->
                             Progress.at_ c = Progress.NewLock).
  { intros i c. rewrite list_lookup_fmap.
    destruct (deltas !! i); simpl; [by intros [= <-]|done]. }
  split_and!.
  - intros l Hl. by apply elem_of_empty in Hl.
  - intros i c l Hc Hl. apply Hnew in Hc. unfold Progress.lock_of in Hl.
    by rewrite Hc in Hl.
  - intros i j c d l Hc _ Hl _. apply Hnew in Hc. unfold Progress.lock_of in Hl.
    by rewrite Hc in Hl.
  - intros i c l Hc Hl. apply Hnew in Hc. by rewrite Hc in Hl.
Qed.

Lemma step_thread_inv (i : nat) (st st' : Progress.state) :
  Progress.step_thread i st = Some st' ->
  exists c c',
    snd st !! i = Some c
    /\ Progress.step_call (fst st) c = Some (fst st', c')
    /\ snd st' = <[i := c']> (snd st).
Proof.
  unfold Progress.step_thread. intros H.
  destruct (snd st !! i) as [c|] eqn:Hc; [|done]. simpl in H.
  destruct (Progress.step_call (fst st) c) as [[sh' c']|] eqn:Hstep; [|done].
  simpl in H. injection H as <-. by exists c, c'.
Qed.

Lemma locks_private_step (st st' : Progress.state) :
  locks_private st -> Progress.step st st' -> locks_private st'.
Proof.
  intros Hinv Hs. destruct Hs as [i st st' Hstep].
  destruct Hinv as (Hheld & Hmade & Hdistinct & Hfree).
  apply step_thread_inv in Hstep as (c & c' & Hc & Hcall & Hthreads).
  destruct st as [sh ths], st' as [sh' ths']. simpl in Hc, Hcall, Hthreads.
  simpl in Hheld, Hmade, Hdistinct, Hfree. subst ths'.
  assert (Hlookup : forall k d, <[i := c']> ths !! k = Some d ->
                      (k = i /\ d = c') \/ (k <> i /\ ths !! k = Some d)).
  { intros k d [(-> & -> & _)|[? ?]]%list_lookup_insert_Some; [by left|by right]. }
  unfold locks_private. cbn [fst snd].
  destruct c as [n pc_]. unfold Progress.step_call in Hcall. cbn in Hcall.
  destruct pc_ as [|l|l|l v|l|].
  - (* lock = threading.Lock() *)
    injection Hcall as <- <-. cbn. split_and!.
    + intros l Hl. specialize (Hheld l Hl). lia.
    + intros k d l [[-> ->]|[Hk Hd]]%Hlookup Hl.
      * cbn in Hl. injection Hl as <-. lia.
      * specialize (Hmade k d l Hd Hl). lia.
    + intros k j d e l [[-> ->]|[Hk Hd]]%Hlookup [[-> ->]|[Hj He]]%Hlookup Hl Hl'; [done| | |].
      * cbn in Hl. injection Hl as <-. specialize (Hmade j e _ He Hl'). lia.
      * cbn in Hl'. injection Hl' as <-. specialize (Hmade k d _ Hd Hl). lia.
      * by apply (Hdistinct k j d e l).
    + intros k d l [[-> ->]|[Hk Hd]]%Hlookup Hl.
      * cbn in Hl. injection Hl as <-. intros Hin. specialize (Hheld _ Hin). lia.
      * by apply (Hfree k d l).
  - (* lock.acquire() *)
    destruct (decide (l ∈ Progress.held sh)) as [|Hl]; [done|].
    injection Hcall as <- <-. cbn. split_and!.
    + intros l' [->%elem_of_singleton|Hl']%elem_of_union.
      * by apply (Hmade i _ l Hc).
      * by apply Hheld.
    + intros k d l' [[-> ->]|[Hk Hd]]%Hlookup Hl'.
      * cbn in Hl'. injection Hl' as <-. by apply (Hmade i _ l Hc).
      * by apply (Hmade k d l').
    + intros k j d e l' [[-> ->]|[Hk Hd]]%Hlookup [[-> ->]|[Hj He]]%Hlookup Hl1 Hl2; [done| | |].
      * by apply (Hdistinct i j _ e l' Hc He).
      * by apply (Hdistinct k i d _ l' Hd Hc).
      * by apply (Hdistinct k j d e l').
    + intros k d l' [[-> ->]|[Hk Hd]]%Hlookup Hl'; [done|].
      intros [->%elem_of_singleton|Hin]%elem_of_union.
      * apply Hk. apply (Hdistinct k i d _ l Hd Hc); [|done].
        unfold Progress.lock_of. by rewrite Hl'.
      * by apply (Hfree k d l').
  - (* read progress *)
    injection Hcall as <- <-. cbn. split_and!.
    + done.
    + intros k d l' [[-> ->]|[Hk Hd]]%Hlookup Hl'.
      * by apply (Hmade i _ l' Hc).
      * by apply (Hmade k d l').
    + intros k j d e l' [[-> ->]|[Hk Hd]]%Hlookup [[-> ->]|[Hj He]]%Hlookup Hl1 Hl2; [done| | |].
      * by apply (Hdistinct i j _ e l' Hc He).
      * by apply (Hdistinct k i d _ l' Hd Hc).
      * by apply (Hdistinct k j d e l').
    + intros k d l' [[-> ->]|[Hk Hd]]%Hlookup Hl'; [done|]. by apply (Hfree k d l').
  - (* write progress *)
    injection Hcall as <- <-. cbn. split_and!.
    + done.
    + intros k d l' [[-> ->]|[Hk Hd]]%Hlookup Hl'.
      * by apply (Hmade i _ l' Hc).
      * by apply (Hmade k d l').
    + intros k j d e l' [[-> ->]|[Hk Hd]]%Hlookup [[-> ->]|[Hj He]]%Hlookup Hl1 Hl2; [done| | |].
      * by apply (Hdistinct i j _ e l' Hc He).
      * by apply (Hdistinct k i d _ l' Hd Hc).
      * by apply (Hdistinct k j d e l').
    + intros k d l' [[-> ->]|[Hk Hd]]%Hlookup Hl'; [done|]. by apply (Hfree k d l').
  - (* lock.release() *)
    injection Hcall as <- <-. cbn. split_and!.
    + intros l' [Hl' _]%elem_of_difference. by apply Hheld.
    + intros k d l' [[-> ->]|[Hk Hd]]%Hlookup Hl'; [done|]. by apply (Hmade k d l').
    + intros k j d e l' [[-> ->]|[Hk Hd]]%Hlookup [[-> ->]|[Hj He]]%Hlookup Hl1 Hl2;
        [done..|]. by apply (Hdistinct k j d e l').
    + intros k d l' [[-> ->]|[Hk Hd]]%Hlookup Hl'; [done|].
      intros [Hin _]%elem_of_difference. by apply (Hfree k d l').
  - done.
Qed.

(** Whatever the threads have done so far, a call that has not returned
    can make its next step: no call ever waits for the lock. *)
Lemma lock_never_waits (deltas : list Z) (st : Progress.state) (i : nat)
    (c : Progress.call) :
  rtc Progress.step (Progress.init deltas) st ->
  snd st !! i = Some c -> Progress.returned c = false ->
  is_Some (Progress.step_thread i st).
Proof.
  intros Hreach Hc Hret.
  assert (Hinv : locks_private st).
  { clear Hc Hret. revert st Hreach.
    apply (rtc_ind_r (R := Progress.step) locks_private).
    - apply locks_private_init.
    - intros st1 st2 _ Hs Hinv. by apply (locks_private_step st1). }
  destruct Hinv as (_ & _ & _ & Hfree).
  unfold Progress.step_thread. rewrite Hc. simpl.
  destruct c as [n pc_]. unfold Progress.step_call. cbn in *.
  destruct pc_ as [|l|l|l v|l|]; try done.
  specialize (Hfree i _ l Hc eq_refl).
  by destruct (decide (l ∈ Progress.held (fst st))).
Qed.

(** * Further properties of the code *)

(** ** Seiga images *)

Lemma outcome_bind_done {A B} (c : outcome A) (k : A -> outcome B) (b : B) :
  c ≫= k = Done b <-> exists a, c = Done a /\ k a = Done b.
Proof.
  destruct c as [a|e]; simpl.
  - split; [by exists a|]. by intros (a' & [= <-] & ?).
  - split; [done|]. by intros (? & ? & ?).
Qed.

Lemma byte_bound (b : byte) : 0 <= Z.of_N (Byte.to_N b) <= 255.
Proof. pose proof (Byte.to_N_bounded b). lia. Qed.

Lemma lxor_byte_bound (a b : Z) :
  0 <= a <= 255 -> 0 <= b <= 255 -> 0 <= Z.lxor a b <= 255.
Proof.
  intros Ha Hb.
  assert (Hnn : 0 <= Z.lxor a b) by (apply Z.lxor_nonneg; lia).
  split; [done|].
  destruct (Z.eq_dec (Z.lxor a b) 0) as [->|Hne]; [lia|].
  assert (Hlog : Z.log2 (Z.lxor a b) < 8).
  { eapply Z.le_lt_trans; [apply Z.log2_lxor; lia|].
    apply Z.max_lub_lt.
    - destruct (Z.eq_dec a 0) as [->|?]; [done|]. apply Z.log2_lt_pow2; lia.
    - destruct (Z.eq_dec b 0) as [->|?]; [done|]. apply Z.log2_lt_pow2; lia. }
  apply Z.log2_lt_pow2 in Hlog; lia.
Qed.

(** [xor_byte] returns exactly when the result is a byte. *)
Lemma xor_byte_spec (b b' : byte) (k : Z) :
  Seiga.xor_byte b k = Done b'
  <-> Z.of_N (Byte.to_N b') = Z.lxor (Z.of_N (Byte.to_N b)) k.
Proof.
  unfold Seiga.xor_byte. cbv zeta.
  set (v := Z.lxor (Z.of_N (Byte.to_N b)) k). split.
  - destruct (Z.leb_spec 0 v) as [Hv|Hv]; [|done].
    destruct (Byte.of_N (Z.to_N v)) as [c|] eqn:Hc; [|done].
    intros [= <-]. apply Byte.to_of_N in Hc. rewrite Hc. lia.
  - intros Hv. rewrite <- Hv.
    destruct (Z.leb_spec 0 (Z.of_N (Byte.to_N b'))) as [_|?]; [|lia].
    by rewrite N2Z.id, Byte.of_to_N.
Qed.

Lemma xor_byte_back (b b' : byte) (k : Z) :
  Seiga.xor_byte b k = Done b' -> Seiga.xor_byte b' k = Done b.
Proof.
  rewrite !xor_byte_spec. intros ->.
  by rewrite Z.lxor_assoc, Z.lxor_nilpotent, Z.lxor_0_r.
Qed.

(** The values of the key that [xor_byte] takes: those of a byte. *)
Lemma xor_byte_key (b b' : byte) (k : Z) :
  Seiga.xor_byte b k = Done b' -> 0 <= k <= 255.
Proof.
  rewrite xor_byte_spec. intros H.
  assert (Hk : k = Z.lxor (Z.of_N (Byte.to_N b)) (Z.of_N (Byte.to_N b'))).
  { rewrite H, <- Z.lxor_assoc, Z.lxor_nilpotent. by rewrite Z.lxor_0_l. }
  rewrite Hk. apply lxor_byte_bound; apply byte_bound.
Qed.

Lemma xor_byte_done (b : byte) (k : Z) :
  0 <= k <= 255 -> exists b', Seiga.xor_byte b k = Done b'.
Proof.
  intros Hk.
  pose proof (lxor_byte_bound _ _ (byte_bound b) Hk) as Hv.
  destruct (Byte.of_N (Z.to_N (Z.lxor (Z.of_N (Byte.to_N b)) k))) as [b'|] eqn:Hb.
  - exists b'. apply xor_byte_spec. apply Byte.to_of_N in Hb. rewrite Hb. lia.
  - apply Byte.of_N_None_iff in Hb. lia.
Qed.

Lemma xor_loop_back (n : list Z) (a i : nat) (enc dec : list byte) :
  Seiga.xor_loop n a i enc = Done dec ->
  Seiga.xor_loop n a i dec = Done enc /\ length dec = length enc.
Proof.
  revert i dec. induction enc as [|b enc IH]; intros i dec H.
  - simpl in H. by injection H as <-.
  - cbn [Seiga.xor_loop] in H.
    apply outcome_bind_done in H as (b' & Hb & H).
    apply outcome_bind_done in H as (rest' & Hrest & H).
    injection H as <-. apply IH in Hrest as [Hrest Hlen].
    cbn [Seiga.xor_loop]. rewrite (xor_byte_back _ _ _ Hb). simpl.
    rewrite Hrest. simpl. by rewrite Hlen.
Qed.

(** X1. Decrypting is its own inverse: when [decrypt_seiga_drm] returns
    [dec] for the bytes [enc] and a key, it returns [enc] for [dec] and
    the same key, and [dec] is as long as [enc]. *)
Theorem decrypt_seiga_drm_involutive (enc dec : list byte) (key : string) :
  Seiga.decrypt_seiga_drm enc key = Done dec ->
  Seiga.decrypt_seiga_drm dec key = Done enc /\ length dec = length enc.
Proof.
  unfold Seiga.decrypt_seiga_drm. intros H.
  apply outcome_bind_done in H as (n & Hn & H). rewrite Hn. simpl.
  by apply xor_loop_back.
Qed.

Lemma decrypt_seiga_drm_involutive_witness :
  Seiga.decrypt_seiga_drm seiga_dec seiga_key = Done seiga_enc
  /\ length seiga_dec = length seiga_enc.
Proof.
  apply (decrypt_seiga_drm_involutive seiga_enc seiga_dec seiga_key). reflexivity.
Defined.

Lemma hex_digits_fail (s : string) (acc : Z) (after_underscore : bool) (e : err) :
  Seiga.hex_digits acc after_underscore s = Fail e -> e = ValueError.
Proof.
  revert acc after_underscore.
  induction s as [|c s IH]; intros acc after_underscore; simpl.
  - destruct after_underscore; [by intros [= <-]|done].
  - destruct (Ascii.eqb c "_").
    + destruct after_underscore; [by intros [= <-]|apply IH].
    + destruct (Seiga.hex_digit c); [apply IH|by intros [= <-]].
Qed.

Lemma int16_fail (s : string) (e : err) : Seiga.int16 s = Fail e -> e = ValueError.
Proof.
  unfold Seiga.int16.
  destruct (Seiga.strip_sign _) as [negative digits].
  destruct (Seiga.strip_prefix digits) as [|c rest]; [by intros [= <-]|].
  destruct (Ascii.eqb c "_"); [by intros [= <-]|].
  destruct (Seiga.hex_digits 0 false (String c rest)) as [v|e'] eqn:Hv; simpl; [done|].
  intros [= <-]. by apply hex_digits_fail in Hv.
Qed.

Lemma substring_past_end (n m : nat) (s : string) :
  (String.length s <= n)%nat -> substring n m s = EmptyString.
Proof.
  revert n. induction s as [|c s IH]; intros [|n] Hlen; simpl in *; try done.
  - by destruct m.
  - lia.
  - apply IH. lia.
Qed.

Lemma key_values_done (key : string) (indices : list nat) (n : list Z) :
  Seiga.key_values key indices = Done n ->
  length n = length indices
  /\ Forall (fun i => substring (2 * i) 2 key <> EmptyString) indices.
Proof.
  revert n. induction indices as [|i indices IH]; intros n H.
  - simpl in H. by injection H as <-.
  - cbn [Seiga.key_values] in H.
    apply outcome_bind_done in H as (v & Hv & H).
    apply outcome_bind_done in H as (n' & Hn' & H). injection H as <-.
    destruct (IH n' Hn') as (Hlen & Hslices).
    split.
    + simpl. by rewrite Hlen.
    + constructor; [|done]. intros Heq. by rewrite Heq in Hv.
Qed.

Lemma key_values_fail (key : string) (indices : list nat) (e : err) :
  Seiga.key_values key indices = Fail e -> e = ValueError.
Proof.
  induction indices as [|i indices IH]; [done|]. cbn [Seiga.key_values].
  destruct (Seiga.int16 (substring (2 * i) 2 key)) as [v|e'] eqn:Hv; simpl.
  - destruct (Seiga.key_values key indices) as [n|e'']; simpl; [done|].
    intros [= <-]. by apply IH.
  - intros [= <-]. by apply int16_fail in Hv.
Qed.

(** X2. A key of fewer than 15 characters is refused whatever the data,
    empty data included: [decrypt_seiga_drm] raises [ValueError]. *)
Theorem decrypt_seiga_drm_short_key (enc_bytes : list byte) (key : string) :
  (String.length key < 15)%nat ->
  Seiga.decrypt_seiga_drm enc_bytes key = Fail ValueError.
Proof.
  intros Hlen. unfold Seiga.decrypt_seiga_drm.
  destruct (Seiga.key_values key (seq 0 8)) as [n|e] eqn:Hn; simpl.
  - apply key_values_done in Hn as (_ & Hslices).
    apply Forall_forall with (x := 7%nat) in Hslices.
    + exfalso. apply Hslices. apply substring_past_end. lia.
    + apply elem_of_seq. lia.
  - by apply key_values_fail in Hn as ->.
Qed.

Lemma decrypt_seiga_drm_short_key_witness :
  Seiga.decrypt_seiga_drm seiga_enc "0123456789abcd" = Fail ValueError.
Proof.
  apply (decrypt_seiga_drm_short_key seiga_enc "0123456789abcd"). simpl. lia.
Defined.

(** The second loop returns exactly when the key values it reaches are
    those of a byte. *)
Lemma xor_loop_keys (n : list Z) (a i : nat) (enc dec : list byte) :
  Seiga.xor_loop n a i enc = Done dec ->
  forall j, (j < length enc)%nat -> 0 <= nth ((i + j) mod a) n 0 <= 255.
Proof.
  revert i dec. induction enc as [|b enc IH]; intros i dec H j Hj.
  - simpl in Hj. lia.
  - cbn [Seiga.xor_loop] in H.
    apply outcome_bind_done in H as (b' & Hb & H).
    apply outcome_bind_done in H as (rest' & Hrest & _).
    destruct j as [|j].
    + rewrite Nat.add_0_r. by apply xor_byte_key in Hb.
    + replace (i + S j)%nat with (S i + j)%nat by lia.
      apply (IH _ _ Hrest). simpl in Hj. lia.
Qed.

Lemma xor_loop_done (n : list Z) (a i : nat) (enc_bytes : list byte) :
  (forall j, (j < length enc_bytes)%nat -> 0 <= nth ((i + j) mod a) n 0 <= 255) ->
  exists dec, Seiga.xor_loop n a i enc_bytes = Done dec.
Proof.
  revert i. induction enc_bytes as [|b enc IH]; intros i Hkeys; [by eexists|].
  cbn [Seiga.xor_loop].
  destruct (xor_byte_done b (nth (i mod a) n 0)) as (b' & ->).
  { specialize (Hkeys 0%nat). rewrite Nat.add_0_r in Hkeys. apply Hkeys. simpl. lia. }
  destruct (IH (S i)) as (dec & ->); [|by eexists].
  intros j Hj. replace (S i + j)%nat with (i + S j)%nat by lia.
  apply Hkeys. simpl. lia.
Qed.

(** X3. Whether [decrypt_seiga_drm] fails depends on the key and on the
    number of bytes alone: a key that decrypts some data decrypts any
    data that is not longer, and a key that decrypts eight bytes or more
    decrypts any data. *)
Theorem decrypt_seiga_drm_key_only (enc dec enc' : list byte) (key : string) :
  Seiga.decrypt_seiga_drm enc key = Done dec ->
  (length enc' <= length enc)%nat \/ (8 <= length enc)%nat ->
  exists dec', Seiga.decrypt_seiga_drm enc' key = Done dec'
               /\ length dec' = length enc'.
Proof.
  unfold Seiga.decrypt_seiga_drm. intros H Hcase.
  apply outcome_bind_done in H as (n & Hn & H). rewrite Hn. simpl.
  pose proof (xor_loop_keys _ _ _ _ _ H) as Hkeys.
  destruct (xor_loop_done n 8 0 enc') as (dec' & Hdec').
  { intros j Hj. destruct Hcase as [Hshorter|Height].
    - apply Hkeys. lia.
    - specialize (Hkeys (j mod 8)%nat).
      cbn [Nat.add] in *. rewrite Nat.Div0.mod_mod in Hkeys.
      apply Hkeys. pose proof (Nat.mod_upper_bound j 8). lia. }
  exists dec'. split; [done|]. by apply xor_loop_back in Hdec' as [_ ?].
Qed.

Lemma decrypt_seiga_drm_key_only_witness :
  exists dec', Seiga.decrypt_seiga_drm [x47; x49] seiga_key = Done dec'
               /\ length dec' = length [x47; x49].
Proof.
  apply (decrypt_seiga_drm_key_only seiga_enc seiga_dec [x47; x49] seiga_key).
  - reflexivity.
  - left. simpl. lia.
Defined.

(** The condition of X3 is needed: [int] takes a sign, and with a key
    whose first value is negative the empty data is decrypted while one
    byte is refused. *)
Lemma decrypt_seiga_drm_signed_key :
  Seiga.decrypt_seiga_drm [] signed_key = Done []
  /\ Seiga.decrypt_seiga_drm [x00] signed_key = Fail ValueError.
Proof. split; reflexivity. Qed.

Lemma item_lookup (d : list byte) (i : nat) (b : byte) :
  d !! i = Some b -> Seiga.item d (Z.of_nat i) = Done (Byte.to_N b).
Proof.
  intros Hb. unfold Seiga.item.
  assert (Hlt : (Z.of_nat i <? 0) = false) by (apply Z.ltb_ge; lia).
  cbv zeta. rewrite Hlt, Hlt, Nat2Z.id. by rewrite Hb.
Qed.

Lemma item_is_lookup (d : list byte) (v : N) (i : nat) (b : byte) :
  d !! i = Some b -> Seiga.item_is d v (Z.of_nat i) = Done (N.eqb v (Byte.to_N b)).
Proof. intros Hb. unfold Seiga.item_is. by rewrite (item_lookup d i b Hb). Qed.

Lemma item_is_true (d : list byte) (v : N) (i : Z) :
  0 <= i ->
  Seiga.item_is d v i = Done true ->
  exists b, d !! Z.to_nat i = Some b /\ Byte.to_N b = v.
Proof.
  intros Hi. unfold Seiga.item_is, Seiga.item.
  assert (Hlt : (i <? 0) = false) by (apply Z.ltb_ge; lia).
  cbv zeta. rewrite Hlt, Hlt.
  destruct (d !! Z.to_nat i) as [b|]; simpl; [|done].
  intros [= Heq]. exists b. split; [done|]. by apply N.eqb_eq in Heq.
Qed.

Lemma and_then_true (c1 c2 : outcome bool) :
  Seiga.and_then c1 c2 = Done true -> c1 = Done true /\ c2 = Done true.
Proof. by destruct c1 as [[|]|]. Qed.

Lemma to_N_byte (b c : byte) : Byte.to_N b = Byte.to_N c -> b = c.
Proof.
  intros H. pose proof (Byte.of_to_N b) as Hb. rewrite H, Byte.of_to_N in Hb.
  by injection Hb.
Qed.

(** The three tests of [determine_seiga_file_type], as the function
    reads them. *)
Lemma determine_seiga_file_type_done (d : list byte) (t : string) :
  Seiga.determine_seiga_file_type d = Done t ->
  (t = "jpg"
   /\ Seiga.and_then (Seiga.item_is d 255 0) (Seiga.and_then (Seiga.item_is d 216 1)
        (Seiga.and_then (Seiga.item_is d 255 (len d - 2))
                        (Seiga.item_is d 217 (len d - 1)))) = Done true)
  \/ (t = "png"
      /\ Seiga.and_then (Seiga.item_is d 137 0) (Seiga.and_then (Seiga.item_is d 80 1)
           (Seiga.and_then (Seiga.item_is d 78 2) (Seiga.item_is d 71 3))) = Done true)
  \/ (t = "gif"
      /\ Seiga.and_then (Seiga.item_is d 255 0) (Seiga.and_then (Seiga.item_is d 216 1)
           (Seiga.and_then (Seiga.item_is d 255 (len d - 2))
                           (Seiga.item_is d 217 (len d - 1)))) = Done false
      /\ Seiga.and_then (Seiga.item_is d 137 0) (Seiga.and_then (Seiga.item_is d 80 1)
           (Seiga.and_then (Seiga.item_is d 78 2) (Seiga.item_is d 71 3))) = Done false
      /\ Seiga.and_then (Seiga.item_is d 71 0) (Seiga.and_then (Seiga.item_is d 73 1)
           (Seiga.and_then (Seiga.item_is d 70 2) (Seiga.item_is d 6 3))) = Done true).
Proof.
  unfold Seiga.determine_seiga_file_type. cbv zeta.
  destruct (Seiga.and_then (Seiga.item_is d 255 0) _) as [[|]|e1]; simpl;
    [intros [= <-]; by left| |done].
  destruct (Seiga.and_then (Seiga.item_is d 137 0) _) as [[|]|e2]; simpl;
    [intros [= <-]; right; by left| |done].
  destruct (Seiga.and_then (Seiga.item_is d 71 0) _) as [[|]|e3]; simpl;
    [intros [= <-]; right; by right|done|done].
Qed.

Lemma jpg_test_true (d : list byte) :
  Seiga.and_then (Seiga.item_is d 255 0) (Seiga.and_then (Seiga.item_is d 216 1)
    (Seiga.and_then (Seiga.item_is d 255 (len d - 2))
                    (Seiga.item_is d 217 (len d - 1)))) = Done true ->
  take 2 d = [xff; xd8] /\ drop (length d - 2) d = [xff; xd9].
Proof.
  intros H.
  apply and_then_true in H as (H0 & H).
  apply and_then_true in H as (H1 & H).
  apply and_then_true in H as (H2 & H3).
  apply item_is_true in H0 as (b0 & Hb0 & ->%(to_N_byte _ xff)); [|lia].
  apply item_is_true in H1 as (b1 & Hb1 & ->%(to_N_byte _ xd8)); [|lia].
  assert (Hlen : (2 <= length d)%nat).
  { apply lookup_lt_Some in Hb1. simpl in Hb1. lia. }
  apply item_is_true in H2 as (b2 & Hb2 & ->%(to_N_byte _ xff)); [|unfold len; lia].
  apply item_is_true in H3 as (b3 & Hb3 & ->%(to_N_byte _ xd9)); [|unfold len; lia].
  replace (Z.to_nat (len d - 2)) with (length d - 2)%nat in Hb2 by (unfold len; lia).
  replace (Z.to_nat (len d - 1)) with (length d - 2 + 1)%nat in Hb3 by (unfold len; lia).
  split.
  - destruct d as [|a [|b rest]]; simpl in *; try lia.
    by injection Hb0 as ->; injection Hb1 as ->.
  - apply list_eq. intros [|[|i]]; rewrite lookup_drop; simpl.
    + by rewrite Nat.add_0_r.
    + done.
    + apply lookup_ge_None. lia.
Qed.

(** X4. [determine_seiga_file_type] answers "jpg" exactly for the data
    whose first two bytes are FF D8 and whose last two bytes are FF D9;
    such data has at least four bytes. *)
Theorem determine_seiga_file_type_jpg (d : list byte) :
  Seiga.determine_seiga_file_type d = Done "jpg"
  <-> take 2 d = [xff; xd8] /\ drop (length d - 2) d = [xff; xd9].
Proof.
  split.
  - intros [(_ & H)|[(? & _)|(? & _)]]%determine_seiga_file_type_done; [|done..].
    by apply jpg_test_true.
  - intros [Htake Hdrop].
    assert (Hlen : (2 <= length d)%nat).
    { destruct d as [|a [|b rest]]; [done|done|simpl; lia]. }
    assert (Hb0 : d !! 0%nat = Some xff).
    { rewrite <- (lookup_take_lt d 2 0) by lia. by rewrite Htake. }
    assert (Hb1 : d !! 1%nat = Some xd8).
    { rewrite <- (lookup_take_lt d 2 1) by lia. by rewrite Htake. }
    assert (Hb2 : d !! (length d - 2)%nat = Some xff).
    { pose proof (lookup_drop d (length d - 2) 0) as H. rewrite Hdrop in H.
      by rewrite Nat.add_0_r in H. }
    assert (Hb3 : d !! (length d - 1)%nat = Some xd9).
    { pose proof (lookup_drop d (length d - 2) 1) as H. rewrite Hdrop in H.
      by replace (length d - 2 + 1)%nat with (length d - 1)%nat in H by lia. }
    unfold Seiga.determine_seiga_file_type. cbv zeta.
    replace (len d - 2) with (Z.of_nat (length d - 2)) by (unfold len; lia).
    replace (len d - 1) with (Z.of_nat (length d - 1)) by (unfold len; lia).
    assert (H0 : Seiga.item_is d 255 0 = Done true)
      by exact (item_is_lookup d 255 0 _ Hb0).
    assert (H1 : Seiga.item_is d 216 1 = Done true)
      by exact (item_is_lookup d 216 1 _ Hb1).
    rewrite H0, H1, (item_is_lookup d 255 _ _ Hb2), (item_is_lookup d 217 _ _ Hb3).
    reflexivity.
Qed.

(** X5. [determine_seiga_file_type] answers "gif" exactly for the data
    that begins with the bytes 47 49 46 06. Data that begins with the
    signature of a GIF file, the bytes 47 49 46 38 ("GIF8"), is refused
    with [FormatNotSupportedException]. *)
Theorem determine_seiga_file_type_gif (d : list byte) :
  (Seiga.determine_seiga_file_type d = Done "gif"
   <-> take 4 d = [x47; x49; x46; x06])
  /\ (take 4 d = [x47; x49; x46; x38] ->
      Seiga.determine_seiga_file_type d
      = Fail (FormatNotSupportedException Seiga.file_type_message)).
Proof.
  split; [split|].
  - intros [(? & _)|[(? & _)|(_ & _ & _ & H)]]%determine_seiga_file_type_done; [done..|].
    apply and_then_true in H as (H0 & H).
    apply and_then_true in H as (H1 & H).
    apply and_then_true in H as (H2 & H3).
    apply item_is_true in H0 as (b0 & Hb0 & ->%(to_N_byte _ x47)); [|lia].
    apply item_is_true in H1 as (b1 & Hb1 & ->%(to_N_byte _ x49)); [|lia].
    apply item_is_true in H2 as (b2 & Hb2 & ->%(to_N_byte _ x46)); [|lia].
    apply item_is_true in H3 as (b3 & Hb3 & ->%(to_N_byte _ x06)); [|lia].
    destruct d as [|a0 [|a1 [|a2 [|a3 rest]]]]; simpl in *; try done.
    by injection Hb0 as ->; injection Hb1 as ->; injection Hb2 as ->; injection Hb3 as ->.
  - intros Htake. destruct d as [|a0 [|a1 [|a2 [|a3 rest]]]]; simpl in Htake; try done.
    injection Htake as -> -> -> ->. reflexivity.
  - intros Htake. destruct d as [|a0 [|a1 [|a2 [|a3 rest]]]]; simpl in Htake; try done.
    injection Htake as -> -> -> ->. reflexivity.
Qed.

Lemma determine_seiga_file_type_gif_witness :
  Seiga.determine_seiga_file_type gif8_data
  = Fail (FormatNotSupportedException Seiga.file_type_message).
Proof.
  apply (proj2 (determine_seiga_file_type_gif gif8_data)). reflexivity.
Defined.

Lemma item_is_in_range (d : list byte) (v : N) (i : Z) :
  0 <= i < len d -> exists x, Seiga.item_is d v i = Done x.
Proof.
  intros Hi. destruct (lookup_lt_is_Some_2 d (Z.to_nat i)) as [b Hb];
    [unfold len in Hi; lia|].
  exists (N.eqb v (Byte.to_N b)). rewrite <- (Z2Nat.id i) by lia.
  by apply item_is_lookup.
Qed.

Lemma and_then_done (c1 c2 : outcome bool) :
  (exists x, c1 = Done x) -> (exists y, c2 = Done y) ->
  exists z, Seiga.and_then c1 c2 = Done z.
Proof. intros [[|] ->] [y ->]; by eexists. Qed.

(** X6. The bounds of [determine_seiga_file_type]: empty data raises
    [IndexError]; data of fewer than four bytes is never given a type;
    data of four bytes or more never raises [IndexError], so it is given
    a type or refused with [FormatNotSupportedException]. *)
Theorem determine_seiga_file_type_bounds (d : list byte) :
  (d = [] -> Seiga.determine_seiga_file_type d = Fail (Exn IndexError))
  /\ ((length d < 4)%nat -> forall t, Seiga.determine_seiga_file_type d <> Done t)
  /\ ((4 <= length d)%nat ->
      (exists t, Seiga.determine_seiga_file_type d = Done t)
      \/ Seiga.determine_seiga_file_type d
         = Fail (FormatNotSupportedException Seiga.file_type_message)).
Proof.
  split_and!.
  - by intros ->.
  - intros Hlen t Ht.
    apply determine_seiga_file_type_done in Ht as [(-> & H)|[(_ & H)|(_ & _ & _ & H)]].
    + apply jpg_test_true in H as [Htake Hdrop].
      destruct d as [|a0 [|a1 [|a2 [|a3 rest]]]]; simpl in *; try done; try lia.
      all: injection Htake as -> ->; by injection Hdrop.
    + apply and_then_true in H as (_ & H). apply and_then_true in H as (_ & H).
      apply and_then_true in H as (_ & H).
      apply item_is_true in H as (b & Hb%lookup_lt_Some & _); [|lia]. simpl in Hb. lia.
    + apply and_then_true in H as (_ & H). apply and_then_true in H as (_ & H).
      apply and_then_true in H as (_ & H).
      apply item_is_true in H as (b & Hb%lookup_lt_Some & _); [|lia]. simpl in Hb. lia.
  - intros Hlen. unfold Seiga.determine_seiga_file_type. cbv zeta.
    assert (Hin : forall v i, 0 <= i < len d -> exists x, Seiga.item_is d v i = Done x)
      by (intros; by apply item_is_in_range).
    destruct (and_then_done (Seiga.item_is d 255 0)
      (Seiga.and_then (Seiga.item_is d 216 1)
        (Seiga.and_then (Seiga.item_is d 255 (len d - 2))
                        (Seiga.item_is d 217 (len d - 1))))) as [[|] ->];
      [apply Hin; unfold len; lia
      |repeat apply and_then_done; apply Hin; unfold len; lia
      |left; by eexists|].
    destruct (and_then_done (Seiga.item_is d 137 0)
      (Seiga.and_then (Seiga.item_is d 80 1)
        (Seiga.and_then (Seiga.item_is d 78 2) (Seiga.item_is d 71 3)))) as [[|] ->];
      [apply Hin; unfold len; lia
      |repeat apply and_then_done; apply Hin; unfold len; lia
      |left; by eexists|].
    destruct (and_then_done (Seiga.item_is d 71 0)
      (Seiga.and_then (Seiga.item_is d 73 1)
        (Seiga.and_then (Seiga.item_is d 70 2) (Seiga.item_is d 6 3)))) as [[|] ->];
      [apply Hin; unfold len; lia
      |repeat apply and_then_done; apply Hin; unfold len; lia
      |left; by eexists|by right].
Qed.

Lemma determine_seiga_file_type_bounds_witness :
  Seiga.determine_seiga_file_type [] = Fail (Exn IndexError)
  /\ (forall t, Seiga.determine_seiga_file_type seiga_dec <> Done t)
  /\ ((exists t, Seiga.determine_seiga_file_type gif8_data = Done t)
      \/ Seiga.determine_seiga_file_type gif8_data
         = Fail (FormatNotSupportedException Seiga.file_type_message)).
Proof.
  split_and!.
  - apply (proj1 (determine_seiga_file_type_bounds [])). reflexivity.
  - apply (proj1 (proj2 (determine_seiga_file_type_bounds seiga_dec))). simpl. lia.
  - apply (proj2 (proj2 (determine_seiga_file_type_bounds gif8_data))). simpl. lia.
Defined.

(** ** File names *)

Lemma string_app_cons (c : ascii) (a b : string) :
  String c a +:+ b = String c (a +:+ b).
Proof. reflexivity. Qed.

Lemma has_illegal_app (a b : string) :
  Paths.has_illegal (a +:+ b) = Paths.has_illegal a || Paths.has_illegal b.
Proof.
  induction a as [|c a IH]; [done|].
  rewrite string_app_cons. cbn [Paths.has_illegal]. by rewrite IH, orb_assoc.
Qed.

Lemma sanitize_app (a b replace : string) :
  Paths.sanitize_for_path (a +:+ b) replace
  = Paths.sanitize_for_path a replace +:+ Paths.sanitize_for_path b replace.
Proof.
  induction a as [|c a IH]; [done|].
  rewrite string_app_cons. cbn [Paths.sanitize_for_path].
  by rewrite IH, string_app_assoc.
Qed.

Lemma sanitize_clean (value replace : string) :
  Paths.has_illegal value = false -> Paths.sanitize_for_path value replace = value.
Proof.
  induction value as [|c value IH]; [done|]. cbn [Paths.has_illegal Paths.sanitize_for_path].
  intros [Hc Hv]%orb_false_elim. rewrite Hc, (IH Hv). reflexivity.
Qed.

Lemma sanitize_has_no_illegal (value replace : string) :
  Paths.has_illegal replace = false ->
  Paths.has_illegal (Paths.sanitize_for_path value replace) = false.
Proof.
  intros Hr. induction value as [|c value IH]; [done|].
  cbn [Paths.sanitize_for_path]. rewrite has_illegal_app, IH, orb_false_r.
  destruct (Paths.illegal c) eqn:Hc; [done|]. simpl. by rewrite Hc.
Qed.

(** X7. With a replacement that has none of the characters of the class
    (the default is a space), the string [sanitize_for_path] returns has
    none of them either, sanitizing it again changes nothing, and a
    string without such characters is returned as it is. *)
Theorem sanitize_for_path_clean (value replace : string) :
  Paths.has_illegal replace = false ->
  Paths.has_illegal (Paths.sanitize_for_path value replace) = false
  /\ Paths.sanitize_for_path (Paths.sanitize_for_path value replace) replace
     = Paths.sanitize_for_path value replace
  /\ (Paths.has_illegal value = false -> Paths.sanitize_for_path value replace = value).
Proof.
  intros Hr. split_and!.
  - by apply sanitize_has_no_illegal.
  - by apply sanitize_clean, sanitize_has_no_illegal.
  - apply sanitize_clean.
Qed.

Lemma sanitize_for_path_clean_witness :
  Paths.has_illegal (Paths.sanitize_for_path "a/b: c?" " ") = false
  /\ Paths.sanitize_for_path (Paths.sanitize_for_path "a/b: c?" " ") " "
     = Paths.sanitize_for_path "a/b: c?" " "
  /\ (Paths.has_illegal "a/b: c?" = false -> Paths.sanitize_for_path "a/b: c?" " " = "a/b: c?").
Proof.
  apply (sanitize_for_path_clean "a/b: c?" " "). reflexivity.
Defined.

(** X8. Without an output template and for a video or an image,
    [create_filename] needs the keys id, title and ext, in that order:
    the first one missing raises [KeyError]. With the three present the
    name is made of them, holds none of the characters of the class, a
    slash in the title included, and no directory is made. *)
Theorem create_filename_default (output_path : option string)
    (format_map : string -> gmap string string -> string)
    (dirname : string -> string) (path_exists : string -> bool)
    (path_join : string -> string -> string)
    (template_params : gmap string string) (made : list string) :
  truthy output_path = false ->
  let out := Paths.create_filename output_path format_map dirname path_exists
               path_join template_params false made in
  snd out = made
  /\ match template_params !! "id", template_params !! "title",
           template_params !! "ext" with
     | None, _, _ => fst out = Fail (KeyError "id")
     | Some _, None, _ => fst out = Fail (KeyError "title")
     | Some _, Some _, None => fst out = Fail (KeyError "ext")
     | Some id, Some title, Some ext =>
         exists name,
           fst out = Done name
           /\ name = Paths.sanitize_for_path (id +:+ " - " +:+ title +:+ "." +:+ ext) " "
           /\ Paths.has_illegal name = false
     end.
Proof.
  intros Hpath out. subst out. unfold Paths.create_filename. rewrite Hpath.
  unfold Paths.getitem.
  destruct (template_params !! "id") as [id|]; [|done].
  destruct (template_params !! "title") as [title|]; [|done].
  destruct (template_params !! "ext") as [ext|]; [|done].
  split; [done|]. eexists. split_and!; [done|done|].
  by apply sanitize_has_no_illegal.
Qed.

Lemma create_filename_default_witness :
  exists name,
    fst (Paths.create_filename None (fun t _ => t) (fun s => s) (fun _ => false)
           String.append video_params false []) = Done name
    /\ name = Paths.sanitize_for_path ("sm9" +:+ " - " +:+ "a/b" +:+ "." +:+ "mp4") " "
    /\ Paths.has_illegal name = false.
Proof.
  exact (proj2 (create_filename_default None (fun t _ => t) (fun s => s) (fun _ => false)
                  String.append video_params [] eq_refl)).
Defined.

(** ** Batches of requests *)

Ltac run_P :=
  cbv [mbind P_bind mret P_ret fail pure_outcome get_state update
       Batch.try_continue logged].

Lemma request_each_all (behaviour : string -> outcome unit)
    (video_ids called : list string) :
  Forall (goes_on behaviour) video_ids ->
  Batch.request_each (logged behaviour) video_ids called
  = (Done tt, called ++ video_ids).
Proof.
  intros Hall. revert called.
  induction Hall as [|video_id rest Hid _ IH]; intros called.
  - simpl. run_P. by rewrite app_nil_r.
  - cbn [Batch.request_each]. run_P. unfold goes_on in Hid.
    destruct (behaviour video_id) as [[]|e]; [|rewrite Hid];
      rewrite IH; by rewrite <- app_assoc.
Qed.

Lemma request_each_abort (behaviour : string -> outcome unit)
    (pre post called : list string) (bad : string) (e : err) :
  Forall (goes_on behaviour) pre ->
  behaviour bad = Fail e -> Batch.caught e = false ->
  Batch.request_each (logged behaviour) (pre ++ bad :: post) called
  = (Fail e, called ++ pre ++ [bad]).
Proof.
  intros Hpre Hbad He. revert called.
  induction Hpre as [|video_id rest Hid _ IH]; intros called.
  - simpl. run_P. by rewrite Hbad, He.
  - cbn [app Batch.request_each]. run_P. unfold goes_on in Hid.
    destruct (behaviour video_id) as [[]|e']; [|rewrite Hid];
      rewrite IH; by rewrite <- app_assoc.
Qed.

Lemma collect_user_videos_pages
    (user_videos_page : string -> nat -> outcome (list string))
    (user_id : string) (pages : list (list string)) (fuel first : nat)
    (video_ids : list string) :
  (forall i links, pages !! i = Some links ->
     user_videos_page user_id (first + i)%nat = Done links /\ links <> []) ->
  user_videos_page user_id (first + length pages)%nat = Done [] ->
  (length pages < fuel)%nat ->
  Batch.collect_user_videos user_videos_page fuel user_id first video_ids
  = Some (Done (video_ids ++ map (Batch.lstrip "watch/") (concat pages))).
Proof.
  revert fuel first video_ids.
  induction pages as [|links pages IH]; intros fuel first video_ids Hpages Hend Hfuel.
  - destruct fuel as [|fuel]; [simpl in Hfuel; lia|].
    cbn [Batch.collect_user_videos]. simpl in Hend. rewrite Nat.add_0_r in Hend.
    rewrite Hend. simpl. by rewrite app_nil_r.
  - destruct fuel as [|fuel]; [simpl in Hfuel; lia|].
    cbn [Batch.collect_user_videos].
    destruct (Hpages 0%nat links eq_refl) as [Hpage Hne].
    rewrite Nat.add_0_r in Hpage. rewrite Hpage.
    destruct links as [|link links]; [done|]. cbn [length Nat.eqb].
    rewrite IH.
    + by rewrite concat_cons, map_app, app_assoc.
    + intros i links' Hi. replace (S first + i)%nat with (first + S i)%nat by lia.
      by apply Hpages.
    + simpl in Hend. by replace (S first + length pages)%nat
        with (first + S (length pages))%nat by lia.
    + simpl in Hfuel. lia.
Qed.

(** X9. [request_user] reads the pages of a user from page 1 up to the
    first page without a link and then requests, in the order of the
    pages, the video of every link read, the links stripped with
    [lstrip("watch/")]; a request that ends with one of the three
    exceptions caught does not stop the others. *)
Theorem request_user_requests (behaviour : string -> outcome unit)
    (user_videos_page : string -> nat -> outcome (list string))
    (user_id : string) (pages : list (list string)) (fuel : nat)
    (called : list string) :
  pages <> [] ->
  (forall i links, pages !! i = Some links ->
     user_videos_page user_id (1 + i)%nat = Done links /\ links <> []) ->
  user_videos_page user_id (1 + length pages)%nat = Done [] ->
  (length pages < fuel)%nat ->
  Forall (goes_on behaviour) (map (Batch.lstrip "watch/") (concat pages)) ->
  Batch.request_user (logged behaviour) user_videos_page fuel user_id called
  = Some (Done tt, called ++ map (Batch.lstrip "watch/") (concat pages)).
Proof.
  intros Hne Hpages Hend Hfuel Hall. unfold Batch.request_user.
  rewrite (collect_user_videos_pages _ _ pages) by done. cbn [app].
  destruct pages as [|links pages]; [done|].
  destruct (Hpages 0%nat links eq_refl) as [_ Hlinks].
  destruct links as [|link links]; [done|].
  cbn [concat app map length Nat.eqb].
  f_equal. by apply request_each_all.
Qed.

Lemma request_user_requests_witness :
  Batch.request_user (logged one_bad) two_pages_site 3 "12345" []
  = Some (Done tt, ["sm1"; "bad"; "sm3"]).
Proof.
  apply (request_user_requests one_bad two_pages_site "12345" two_pages 3 []).
  - discriminate.
  - intros [|[|i]] links Hlinks; simpl in Hlinks; inversion Hlinks; split;
      reflexivity || discriminate.
  - reflexivity.
  - simpl. lia.
  - repeat constructor.
Defined.

(** X10. When the first page of a user has no link, [request_user]
    raises [ParameterExtractionException] and requests no video. *)
Theorem request_user_no_videos {St : Type} (request_video : string -> P St unit)
    (user_videos_page : string -> nat -> outcome (list string))
    (user_id : string) (fuel : nat) (s : St) :
  user_videos_page user_id 1%nat = Done [] -> (1 <= fuel)%nat ->
  Batch.request_user request_video user_videos_page fuel user_id s
  = Some (Fail (ParameterExtractionException Batch.user_message), s).
Proof.
  intros Hpage Hfuel. destruct fuel as [|fuel]; [lia|].
  unfold Batch.request_user. cbn [Batch.collect_user_videos]. by rewrite Hpage.
Qed.

Lemma request_user_no_videos_witness :
  Batch.request_user (logged one_bad) no_pages_site 1 "12345" []
  = Some (Fail (ParameterExtractionException Batch.user_message), []).
Proof.
  apply (request_user_no_videos (logged one_bad) no_pages_site "12345" 1 []);
    [reflexivity|lia].
Defined.

Lemma lstrip_length (chars s : string) :
  (String.length (Batch.lstrip chars s) <= String.length s)%nat.
Proof.
  induction s as [|c s IH]; [done|]. cbn [Batch.lstrip].
  destruct (Batch.char_in c chars); simpl in *; lia.
Qed.

(** X11. The ids of [request_user] are made with [lstrip("watch/")],
    which drops leading characters among w, a, t, c, h and the slash,
    not the prefix: from the link [watch/] followed by an id it leaves
    the id stripped in the same way, which is the id exactly when the id
    is empty or begins with none of these characters. *)
Theorem lstrip_watch (id : string) :
  Batch.lstrip "watch/" ("watch/" +:+ id) = Batch.lstrip "watch/" id
  /\ (Batch.lstrip "watch/" id = id
      <-> match id with
          | EmptyString => True
          | String c _ => Batch.char_in c "watch/" = false
          end).
Proof.
  split; [reflexivity|].
  destruct id as [|c id]; [done|]. cbn [Batch.lstrip].
  destruct (Batch.char_in c "watch/") eqn:Hc; [|done].
  split; [|done]. intros Heq.
  pose proof (lstrip_length "watch/" id) as Hlen. rewrite Heq in Hlen.
  simpl in Hlen. lia.
Qed.

(** X12. [read_file] stops at the first line that is not a valid URL:
    the [ArgumentException] it raises for that line is not among the
    exceptions caught, so the lines before it have been processed and
    the lines after it are not. *)
Theorem read_file_invalid_line {Match : Type} (behaviour : Match -> outcome unit)
    (valid_url : string -> option Match) (readlines : string -> outcome (list string))
    (file : string) (pre post : list string) (bad : string) (called : list Match) :
  readlines file = Done (pre ++ bad :: post) ->
  Forall (fun line => exists url_mo, valid_url line = Some url_mo
                                     /\ goes_on behaviour url_mo) pre ->
  valid_url bad = None ->
  Batch.read_file valid_url (logged behaviour) readlines file called
  = (Fail (Exn (ArgumentException "Not a valid URL")), called ++ omap valid_url pre).
Proof.
  intros Hlines Hpre Hbad. unfold Batch.read_file. run_P. rewrite Hlines.
  clear Hlines. revert called.
  induction Hpre as [|line rest (url_mo & Hline & Hgo) _ IH]; intros called.
  - simpl. run_P. rewrite Hbad. simpl. by rewrite app_nil_r.
  - cbn [app Batch.read_lines omap list_omap]. run_P. rewrite Hline.
    unfold goes_on in Hgo.
    destruct (behaviour url_mo) as [[]|e]; [|rewrite Hgo];
      rewrite IH; by rewrite <- app_assoc.
Qed.

Lemma read_file_invalid_line_witness :
  Batch.read_file is_http (logged all_fine) three_lines "urls.txt" []
  = (Fail (Exn (ArgumentException "Not a valid URL")), ["http://a"]).
Proof.
  apply (read_file_invalid_line all_fine is_http three_lines "urls.txt"
           ["http://a"] ["http://b"] "bad" []).
  - reflexivity.
  - constructor; [|constructor]. exists "http://a". split; reflexivity || exact I.
  - reflexivity.
Defined.

(** X13. [request_mylist]: an answer whose status is not [ok] raises
    [FormatNotAvailableException] with the text of the answer and no
    video is requested, whatever items it lists; with the status [ok]
    the items are requested in order, a request that ends with one of
    the exceptions caught does not stop the others, and a request that
    ends with another exception ends the batch with that exception. *)
Theorem request_mylist_batch (behaviour : string -> outcome unit)
    (mylist_api : string -> outcome Batch.mylist_response)
    (mylist_id : string) (answer : Batch.mylist_response) (called : list string) :
  mylist_api mylist_id = Done answer ->
  let out := Batch.request_mylist (logged behaviour) mylist_api mylist_id called in
  (Batch.status answer <> Some "ok" ->
   out = (Fail (Exn (FormatNotAvailableException
                       ("Could not retrieve mylist info; response="
                          +:+ Batch.text answer))), called))
  /\ (Batch.status answer = Some "ok" ->
      Forall (goes_on behaviour) (default [] (Batch.items answer)) ->
      out = (Done tt, called ++ default [] (Batch.items answer)))
  /\ (Batch.status answer = Some "ok" ->
      forall pre bad post e,
        default [] (Batch.items answer) = pre ++ bad :: post ->
        Forall (goes_on behaviour) pre ->
        behaviour bad = Fail e -> Batch.caught e = false ->
        out = (Fail e, called ++ pre ++ [bad])).
Proof.
  intros Hanswer out. subst out. unfold Batch.request_mylist.
  cbv [mbind P_bind pure_outcome]. rewrite Hanswer.
  split_and!.
  - intros Hstatus. by rewrite bool_decide_eq_false_2.
  - intros Hstatus Hall. rewrite bool_decide_eq_true_2 by done. simpl.
    by apply request_each_all.
  - intros Hstatus pre bad post e Hitems Hpre Hbad He.
    rewrite bool_decide_eq_true_2 by done. simpl. rewrite Hitems.
    by apply request_each_abort.
Qed.

Lemma request_mylist_batch_witness :
  Batch.request_mylist (logged one_bad) mylist_ok "777" []
  = (Done tt, ["sm1"; "bad"; "sm3"]).
Proof.
  apply (proj1 (proj2 (request_mylist_batch one_bad mylist_ok "777" _ [] eq_refl)));
    [reflexivity|repeat constructor].
Defined.

(** ** Thumbnails and comments *)

Lemma write_each_blocks (filename : string) (blocks : list (list byte))
    (data : list byte) (files : gmap string (list byte)) :
  files !! filename = Some data ->
  Media.write_each filename blocks files
  = (Done tt, <[filename := data ++ concat blocks]> files).
Proof.
  revert data files. induction blocks as [|block blocks IH]; intros data files Hfile.
  - simpl. cbv [mret P_ret]. by rewrite app_nil_r, insert_id.
  - cbn [Media.write_each]. unfold Media.write. run_P.
    rewrite (IH (data ++ block)).
    + by rewrite Hfile, insert_insert_eq, concat_cons, app_assoc.
    + by rewrite Hfile, lookup_insert_eq.
Qed.

(** X14. [download_thumbnail] asks for the large thumbnail first. Any
    answer to that request whose status is not 404 is written to the
    [jpg] file as it is, the body of an error answer such as 403
    included, and no exception is raised. On 404 the plain thumbnail is
    asked for: an error status then raises [HTTPError] and leaves the
    files as they were, another answer is written to the [jpg] file. *)
Theorem download_thumbnail_fallback (splitext : string -> string * string)
    (http_get : string -> outcome Media.response)
    (filename id url : string) (template_params : gmap string string)
    (large : Media.response) (files : gmap string (list byte)) :
  template_params !! "id" = Some id ->
  template_params !! "thumbnail_url" = Some url ->
  http_get (url +:+ ".L") = Done large ->
  let out := Media.download_thumbnail splitext http_get filename template_params files in
  let jpg := Media.replace_extension splitext filename "jpg" in
  (Media.status_code large <> 404 ->
   out = (Done tt, <[jpg := Media.content large]> files))
  /\ (Media.status_code large = 404 ->
      forall plain, http_get url = Done plain ->
        if (400 <=? Media.status_code plain) && (Media.status_code plain <? 600)
        then out = (Fail (Exn HTTPError), files)
        else out = (Done tt, <[jpg := Media.content plain]> files)).
Proof.
  intros Hid Hurl Hlarge out jpg. subst out jpg.
  unfold Media.download_thumbnail, Paths.getitem. rewrite Hid, Hurl.
  cbv [mbind P_bind mret P_ret fail pure_outcome]. rewrite Hlarge.
  split.
  - intros Hstatus. destruct (Z.eqb_spec (Media.status_code large) 404); [done|].
    unfold Media.open_wb, update.
    rewrite (write_each_blocks _ _ []) by apply lookup_insert_eq.
    by rewrite insert_insert_eq, iter_content_concat.
  - intros Hstatus plain Hplain.
    destruct (Z.eqb_spec (Media.status_code large) 404); [|done].
    rewrite Hplain. unfold Media.raise_for_status.
    destruct ((400 <=? Media.status_code plain) && (Media.status_code plain <? 600));
      [done|].
    cbv [mret P_ret]. unfold Media.open_wb, update.
    rewrite (write_each_blocks _ _ []) by apply lookup_insert_eq.
    by rewrite insert_insert_eq, iter_content_concat.
Qed.

Lemma download_thumbnail_fallback_witness :
  Media.download_thumbnail no_splitext forbidden "sm9 - a b.mp4" video_params ∅
  = (Done tt, <[Media.replace_extension no_splitext "sm9 - a b.mp4" "jpg" := [x3c; x68]]> ∅).
Proof.
  apply (proj1 (download_thumbnail_fallback no_splitext forbidden "sm9 - a b.mp4"
                  "sm9" "http://t/9" video_params _ ∅ eq_refl eq_refl eq_refl)).
  simpl. lia.
Defined.

(** X15. [download_comments] posts the packet of the thread, the one
    with [language] when the English site is asked for. An answer with
    an error status raises [HTTPError] and leaves the files as they
    were; any other answer is written to the [xml] file, which replaces
    the former content of that file. *)
Theorem download_comments_written (splitext : string -> string * string)
    (http_post : string -> string -> outcome Media.response)
    (download_english : bool) (filename id thread : string)
    (template_params : gmap string string)
    (answer : Media.response) (files : gmap string (list byte)) :
  template_params !! "id" = Some id ->
  template_params !! "thread_id" = Some thread ->
  http_post Media.COMMENTS_API
    ((if download_english then Media.COMMENTS_POST_EN else Media.COMMENTS_POST_JP) thread)
  = Done answer ->
  let out := Media.download_comments splitext http_post download_english filename
               template_params files in
  let xml := Media.replace_extension splitext filename "xml" in
  if (400 <=? Media.status_code answer) && (Media.status_code answer <? 600)
  then out = (Fail (Exn HTTPError), files)
  else out = (Done tt, <[xml := Media.content answer]> files).
Proof.
  intros Hid Hthread Hanswer out xml. subst out xml.
  unfold Media.download_comments, Paths.getitem. rewrite Hid, Hthread.
  cbv [mbind P_bind mret P_ret fail pure_outcome]. rewrite Hanswer.
  unfold Media.raise_for_status.
  destruct ((400 <=? Media.status_code answer) && (Media.status_code answer <? 600));
    [done|].
  cbv [mret P_ret]. unfold Media.open_wb, Media.write, update.
  by rewrite lookup_insert_eq, insert_insert_eq.
Qed.

Lemma download_comments_written_witness :
  Media.download_comments no_splitext two_bytes true "sm9 - a b.mp4" video_params
    {[ "sm9 - a b.mp4.xml" := [x00] ]}
  = (Done tt, <[Media.replace_extension no_splitext "sm9 - a b.mp4" "xml" := [x3c; x70]]>
                {[ "sm9 - a b.mp4.xml" := [x00] ]}).
Proof.
  exact (download_comments_written no_splitext two_bytes true "sm9 - a b.mp4"
           "sm9" "1173108780" video_params _ _ eq_refl eq_refl eq_refl).
Defined.

(** ** The quality label *)

Lemma select_dmc_quality_stores (cmdl_opts : cmdl_opts_t) (key : string)
    (sources : list string) (quality : option string) (st st' : sel_state)
    (selected : list string) :
  select_dmc_quality cmdl_opts key sources quality st = (Ok selected, st') ->
  exists c, selected = [c] /\ c ∈ sources
            /\ template_params st' = <[key := c]> (template_params st).
Proof.
  unfold select_dmc_quality.
  set (warned := if truthy quality && force_high_quality cmdl_opts
                 then output quality_warning WARNING else mret tt).
  assert (Hwarn : exists st0, warned st = (Ok tt, st0)
                              /\ template_params st0 = template_params st).
  { subst warned. destruct (truthy quality && force_high_quality cmdl_opts);
      by eexists. }
  destruct Hwarn as (st0 & Hwarn & <-).
  cbv [mbind M_bind]. rewrite Hwarn.
  destruct (negb (truthy quality) || force_high_quality cmdl_opts
            || String.eqb (lower (default "" quality)) "highest").
  - destruct sources as [|c sources]; [done|]. run_monad. simpl.
    intros [= <- <-]. exists c. split_and!; [done| |done]. apply elem_of_cons; by left.
  - destruct (String.eqb (lower (default "" quality)) "lowest").
    + destruct (last sources) as [c|] eqn:Hlast.
      * rewrite (drop_last_singleton _ _ Hlast). run_monad. simpl.
        intros [= <- <-]. exists c. split_and!; [done| |done].
        by apply last_Some_elem_of.
      * apply last_None in Hlast as ->. done.
    + pose proof (filter_first (fun c => lower c = lower (default "" quality)) sources)
        as Hf.
      destruct (filter _ sources) as [|c rest]; [done|].
      destruct Hf as (pre & post & -> & _ & _). run_monad. simpl.
      intros [= <- <-]. exists c. split_and!; [done| |done].
      apply elem_of_app; right. apply elem_of_cons; by left.
Qed.

(** X16. The label after a selection. When [select_dmc_quality] has
    chosen a video source and then an audio source, [determine_quality]
    on a DMC video labels the download [auto] exactly when the two
    chosen ids are the first ids of the quality lists of the page, and
    [low] otherwise; nothing else in [template_params] changes. *)
Theorem determine_quality_after_selection (cmdl_opts : cmdl_opts_t)
    (videos audios : list string) (video_quality_ audio_quality_ : option string)
    (st st1 st2 : sel_state) (cv ca v0 a0 : string)
    (dmc : Quality.dmc_info) (smile : option string) :
  select_dmc_quality cmdl_opts "video_quality" videos video_quality_ st = (Ok [cv], st1) ->
  select_dmc_quality cmdl_opts "audio_quality" audios audio_quality_ st1 = (Ok [ca], st2) ->
  head (Quality.quality_videos dmc) = Some v0 ->
  head (Quality.quality_audios dmc) = Some a0 ->
  let params := {| Quality.video := Some {| Quality.dmcInfo := Some dmc;
                                            Quality.smileInfo := smile |};
                   Quality.videoDetail := false |} in
  let out := Quality.determine_quality params st2 in
  fst out = Done tt
  /\ template_params (snd out)
     = <["quality" := if bool_decide (v0 = cv /\ a0 = ca) then "auto" else "low"]>
         (template_params st2).
Proof.
  intros Hv Ha Hv0 Ha0 params out. subst params out.
  apply select_dmc_quality_stores in Hv as (c1 & [= <-] & _ & Hst1).
  apply select_dmc_quality_stores in Ha as (c2 & [= <-] & _ & Hst2).
  assert (Hvq : template_params st2 !! "video_quality" = Some cv).
  { rewrite Hst2, lookup_insert_ne by done. by rewrite Hst1, lookup_insert_eq. }
  assert (Haq : template_params st2 !! "audio_quality" = Some ca).
  { by rewrite Hst2, lookup_insert_eq. }
  unfold Quality.determine_quality. cbn [Quality.video Quality.dmcInfo Quality.videoDetail].
  destruct (Quality.quality_videos dmc) as [|v0' vs]; [done|]. injection Hv0 as ->.
  destruct (Quality.quality_audios dmc) as [|a0' as_]; [done|]. injection Ha0 as ->.
  cbv [mbind P_bind mret P_ret Quality.first_of Quality.param get_state
       Paths.getitem fail lift set_param modify]. rewrite Hvq.
  destruct (String.eqb_spec v0 cv) as [->|Hne].
  - rewrite Haq. destruct (String.eqb_spec a0 ca) as [->|Hne'].
    + by rewrite bool_decide_eq_true_2.
    + rewrite bool_decide_eq_false_2; [done|]. by intros [_ ?].
  - rewrite bool_decide_eq_false_2; [done|]. by intros [? _].
Qed.

Lemma determine_quality_after_selection_witness :
  let params := {| Quality.video := Some {| Quality.dmcInfo := Some dmc_page;
                                            Quality.smileInfo := None |};
                   Quality.videoDetail := false |} in
  fst (Quality.determine_quality params sel_audio) = Done tt
  /\ template_params (snd (Quality.determine_quality params sel_audio))
     = <["quality" := "auto"]> (template_params sel_audio).
Proof.
  exact (determine_quality_after_selection opts_default candidates_ABC audios_AB
           None None sel_init sel_video sel_audio "high" "loud" "high" "loud"
           dmc_page None eq_refl eq_refl eq_refl eq_refl).
Defined.

Lemma then_set_param (c : P sel_state unit) (key value : string) (st : sel_state) :
  fst ((c;; lift (set_param key value)) st) = Done tt ->
  template_params (snd ((c;; lift (set_param key value)) st)) !! key = Some value.
Proof.
  cbv [mbind P_bind]. destruct (c st) as [[[]|e] st']; [|done].
  intros _. cbv [lift set_param modify]. simpl. apply lookup_insert_eq.
Qed.

(** X17. The edges of [determine_quality]. When the page has
    [videoDetail] and the call returns, the label is [auto] whatever the
    rest says. When the page has neither [video] nor [videoDetail] the
    call returns and nothing is set. For a DMC video whose list of video
    qualities is empty the call raises [IndexError] and nothing is set,
    and when [template_params] has no video quality it raises
    [KeyError]. *)
Theorem determine_quality_edges (params : Quality.params_t) (st : sel_state) :
  let out := Quality.determine_quality params st in
  (Quality.videoDetail params = true -> fst out = Done tt ->
   template_params (snd out) !! "quality" = Some "auto")
  /\ (Quality.video params = None -> Quality.videoDetail params = false ->
      out = (Done tt, st))
  /\ (forall video_ dmc,
        Quality.video params = Some video_ -> Quality.dmcInfo video_ = Some dmc ->
        (Quality.quality_videos dmc = [] -> out = (Fail (Exn IndexError), st))
        /\ (Quality.quality_videos dmc <> [] ->
            template_params st !! "video_quality" = None ->
            out = (Fail (KeyError "video_quality"), st))).
Proof.
  intros out. subst out. unfold Quality.determine_quality. split_and!.
  - intros Hdetail. rewrite Hdetail. apply then_set_param.
  - intros -> ->. done.
  - intros video_ dmc -> Hdmc. rewrite Hdmc. split.
    + intros ->. done.
    + intros Hne Hnone. destruct (Quality.quality_videos dmc) as [|v0 vs]; [done|].
      cbv [mbind P_bind mret P_ret Quality.first_of Quality.param get_state
           Paths.getitem fail]. by rewrite Hnone.
Qed.

Lemma determine_quality_edges_witness :
  Quality.determine_quality no_video sel_init = (Done tt, sel_init).
Proof.
  apply (proj1 (proj2 (determine_quality_edges no_video sel_init))); reflexivity.
Defined.

(** ** The stream of a live broadcast *)

Lemma before_last_slash_none (s : string) :
  Nama.has_slash s = false -> Nama.before_last_slash s = None.
Proof.
  induction s as [|c s IH]; [done|]. cbn [Nama.has_slash Nama.before_last_slash].
  intros [Hc Hs]%orb_false_elim. by rewrite (IH Hs), Hc.
Qed.

Lemma rsplit_head_sibling (base name : string) :
  Nama.has_slash name = false ->
  Nama.rsplit_head (base +:+ "/" +:+ name) = base.
Proof.
  intros Hname. unfold Nama.rsplit_head.
  assert (H : Nama.before_last_slash (base +:+ "/" +:+ name) = Some base);
    [|by rewrite H].
  induction base as [|c base IH].
  - change ("" +:+ "/" +:+ name) with (String "/" name).
    cbn [Nama.before_last_slash]. by rewrite (before_last_slash_none _ Hname).
  - rewrite string_app_cons. cbn [Nama.before_last_slash]. by rewrite IH.
Qed.

(** X18. [generate_stream] resolves the playlist beside the master
    playlist: for a master URL that ends with a slash and a name, and an
    answer without error status that lists at least one variant, it
    writes the URL made of what is before that slash, a slash and the
    URI of the first variant of greatest bandwidth. An answer with an
    error status raises [HTTPError], an answer without variant raises
    [FormatNotAvailableException], and nothing is written then. *)
Theorem generate_stream_sibling (findall : string -> list (N * string))
    (http_get : string -> outcome Nama.response)
    (base name : string) (m3u8 : Nama.response) (written : list string) :
  Nama.has_slash name = false ->
  http_get (base +:+ "/" +:+ name) = Done m3u8 ->
  let out := Nama.generate_stream findall http_get (base +:+ "/" +:+ name) written in
  if (400 <=? Nama.status_code m3u8) && (Nama.status_code m3u8 <? 600)
  then out = (Fail (Exn HTTPError), written)
  else match findall (Nama.text m3u8) with
       | [] => exists msg,
                 out = (Fail (Exn (FormatNotAvailableException msg)), written)
       | _ => exists i bw uri,
                 findall (Nama.text m3u8) !! i = Some (bw, uri)
                 /\ (forall j bw' uri', findall (Nama.text m3u8) !! j = Some (bw', uri') ->
                       (bw' <= bw)%N)
                 /\ (forall j bw' uri', (j < i)%nat ->
                       findall (Nama.text m3u8) !! j = Some (bw', uri') -> (bw' < bw)%N)
                 /\ out = (Done tt, written ++ [base +:+ "/" +:+ uri])
       end.
Proof.
  intros Hname Hget out. subst out. unfold Nama.generate_stream.
  cbv [mbind P_bind pure_outcome]. rewrite Hget.
  destruct ((400 <=? Nama.status_code m3u8) && (Nama.status_code m3u8 <? 600)); [done|].
  cbv [mret P_ret]. unfold get_playlist_from_m3u8.
  destruct (findall (Nama.text m3u8)) as [|m l] eqn:Hm; [by eexists|].
  destruct (playlist_fold (m :: l)) as (i & bw & uri & Hi & Hfold & Hmax & Hfirst); [done|].
  exists i, bw, uri. rewrite Hfold. cbn [snd].
  split_and!; [done|done|done|].
  cbv [fail update]. by rewrite (rsplit_head_sibling _ _ Hname).
Qed.

Lemma generate_stream_sibling_witness :
  exists i bw uri,
    scenario_C_findall "#EXTM3U" !! i = Some (bw, uri)
    /\ (forall j bw' uri', scenario_C_findall "#EXTM3U" !! j = Some (bw', uri') ->
          (bw' <= bw)%N)
    /\ (forall j bw' uri', (j < i)%nat ->
          scenario_C_findall "#EXTM3U" !! j = Some (bw', uri') -> (bw' < bw)%N)
    /\ Nama.generate_stream scenario_C_findall master_playlist
         ("https://live.example/1" +:+ "/" +:+ "master.m3u8") []
       = (Done tt, [] ++ ["https://live.example/1" +:+ "/" +:+ uri]).
Proof.
  exact (generate_stream_sibling scenario_C_findall master_playlist
           "https://live.example/1" "master.m3u8" _ [] eq_refl eq_refl).
Defined.

(** ** The chain of heartbeats *)

Lemma ticks_S (start : Z) (n : nat) :
  ticks start (S n) = start :: ticks (start + 15000) n.
Proof.
  unfold ticks. cbn [seq map]. f_equal; [lia|].
  rewrite <- seq_shift, map_map. apply map_ext. intros k. lia.
Qed.

Lemma fire_times_accepted (api : Heartbeat.session_doc -> option Heartbeat.session_doc)
    (n : nat) (now0 due : Z) (renewals0 : list Z) (args : Heartbeat.session_doc) :
  (forall doc, is_Some (api doc)) ->
  exists args',
    fire_times api n {| Heartbeat.now := now0; Heartbeat.renewals := renewals0;
                        Heartbeat.timers := [(due, args)] |}
    = (Ok tt, {| Heartbeat.now := if n is O then now0 else due + 15000 * (Z.of_nat n - 1);
                 Heartbeat.renewals := renewals0 ++ ticks due n;
                 Heartbeat.timers := [(due + 15000 * Z.of_nat n, args')] |}).
Proof.
  intros Hapi. revert now0 due renewals0 args.
  induction n as [|n IH]; intros now0 due renewals0 args.
  - exists args. simpl. cbv [mret M_ret]. by rewrite app_nil_r, Z.add_0_r.
  - cbn [fire_times]. destruct (Hapi args) as [args1 Hargs].
    run_heartbeat. rewrite Hargs. cbn -[ticks Z.mul Z.add Z.sub Z.of_nat].
    change (1000 * Heartbeat.DMC_HEARTBEAT_INTERVAL_S) with 15000.
    destruct (IH due (due + 15000) (renewals0 ++ [due]) args1) as (args' & ->).
    exists args'. rewrite ticks_S, <- app_assoc. cbn [app].
    f_equal. f_equal; [|f_equal; f_equal; lia].
    destruct n; [simpl; lia|lia].
Qed.

(** X19. With a server that accepts every heartbeat, a first heartbeat
    at time [now] followed by [n] firings of the timer gives [n + 1]
    renewals, at [now], [now + 15000], ..., and leaves exactly one timer
    pending, due 15000 milliseconds after the last renewal. *)
Theorem heartbeat_chain (api : Heartbeat.session_doc -> option Heartbeat.session_doc)
    (doc : Heartbeat.session_doc) (w : Heartbeat.hb_world) (n : nat) :
  (forall doc, is_Some (api doc)) -> Heartbeat.timers w = [] ->
  let out := (Heartbeat.perform_heartbeat api doc;; fire_times api n) w in
  fst out = Ok tt
  /\ Heartbeat.renewals (snd out) = Heartbeat.renewals w ++ ticks (Heartbeat.now w) (S n)
  /\ exists args,
       Heartbeat.timers (snd out)
       = [(Heartbeat.now w + 15000 * (Z.of_nat n + 1), args)].
Proof.
  intros Hapi Htimers out. subst out.
  destruct w as [now0 renewals0 timers0]. cbn in Htimers. subst timers0.
  destruct (Hapi doc) as [doc' Hdoc].
  cbv [mbind M_bind]. run_heartbeat. rewrite Hdoc.
  cbn -[ticks Z.mul Z.add Z.sub Z.of_nat].
  change (1000 * Heartbeat.DMC_HEARTBEAT_INTERVAL_S) with 15000.
  destruct (fire_times_accepted api n now0 (now0 + 15000) (renewals0 ++ [now0]) doc' Hapi)
    as (args' & ->).
  cbn -[ticks Z.mul Z.add Z.sub Z.of_nat]. split_and!; [done| |].
  - by rewrite ticks_S, <- app_assoc.
  - exists args'. do 2 f_equal. lia.
Qed.

Lemma heartbeat_chain_witness :
  let out := (Heartbeat.perform_heartbeat echo_api short_session;; fire_times echo_api 2)
               hb_init in
  fst out = Ok tt
  /\ Heartbeat.renewals (snd out) = [0; 15000; 30000]
  /\ exists args, Heartbeat.timers (snd out) = [(45000, args)].
Proof.
  apply (heartbeat_chain echo_api short_session hb_init 2).
  - intros doc. exists doc. reflexivity.
  - reflexivity.
Defined.

Lemma fire_times_idle (api : Heartbeat.session_doc -> option Heartbeat.session_doc)
    (n : nat) (w : Heartbeat.hb_world) :
  Heartbeat.timers w = [] -> fire_times api n w = (Ok tt, w).
Proof.
  intros Htimers. induction n as [|n IH]; [done|].
  cbn [fire_times]. destruct w as [now0 renewals0 timers0]. cbn in Htimers.
  subst timers0. run_heartbeat. cbn. exact IH.
Qed.

(** X20. A heartbeat the server refuses is not tried again: when the
    pending timer fires and the server answers with an error,
    [perform_heartbeat] raises [HTTPError] and starts no timer, so that
    no renewal is ever made after it, however often one waits for a
    timer to fire. *)
Theorem heartbeat_not_retried (api : Heartbeat.session_doc -> option Heartbeat.session_doc)
    (w : Heartbeat.hb_world) (due : Z) (args : Heartbeat.session_doc) (n : nat) :
  Heartbeat.timers w = [(due, args)] -> api args = None ->
  let failed := Heartbeat.fire api w in
  fst failed = Raise HTTPError
  /\ Heartbeat.timers (snd failed) = []
  /\ Heartbeat.renewals (snd failed) = Heartbeat.renewals w
  /\ fire_times api n (snd failed) = (Ok tt, snd failed).
Proof.
  intros Htimers Hargs failed. subst failed.
  destruct w as [now0 renewals0 timers0]. cbn in Htimers. subst timers0.
  run_heartbeat. rewrite Hargs. cbn. split_and!; [done..|].
  by apply fire_times_idle.
Qed.

Lemma heartbeat_not_retried_witness :
  let failed := Heartbeat.fire refuse_api hb_due in
  fst failed = Raise HTTPError
  /\ Heartbeat.timers (snd failed) = []
  /\ Heartbeat.renewals (snd failed) = [0]
  /\ fire_times refuse_api 3 (snd failed) = (Ok tt, snd failed).
Proof.
  exact (heartbeat_not_retried refuse_api hb_due 15000 short_session 3 eq_refl eq_refl).
Defined.

(** ** Transfers, continued *)

(** X21. A single-stream download that was cut after [k] bytes and is
    taken up by the next run, with the first [k] bytes of the remote
    content on disk, [k] less than its length. When [k] is at least
    [BLOCK_SIZE], or the server ignores a [Range] header that is no byte
    range, [download_video] returns and the file is the remote content.
    When [k] is less than [BLOCK_SIZE] and the server answers such a
    header with an error status, the header [bytes=(k - BLOCK_SIZE)-]
    makes the call raise [HTTPError]: nothing else is sent and the file
    keeps its [k] bytes. *)
Theorem download_video_completes (cmdl_opts : cmdl_opts_t) (server : remote)
    (k : nat) (tr : list event) (pg : Z) (depth : nat) :
  threads cmdl_opts = None -> up server = true ->
  (k < length (body server))%nat -> (2 <= depth)%nat ->
  let out := download_video cmdl_opts server depth
               {| file := Some (take k (body server)); trace := tr; progress := pg |} in
  (BLOCK_SIZE <= Z.of_nat k \/ ignores_invalid_range server = true ->
   fst out = Ok tt /\ file (snd out) = Some (body server))
  /\ (Z.of_nat k < BLOCK_SIZE -> ignores_invalid_range server = false ->
      fst out = Raise HTTPError
      /\ file (snd out) = Some (take k (body server))
      /\ trace (snd out) = tr ++ [Head; Open Rb; Get (Z.of_nat k - BLOCK_SIZE)]).
Proof.
  intros Hthreads Hup Hk Hdepth out. subst out.
  destruct depth as [|[|depth]]; [lia|lia|].
  assert (Hlen : len (take k (body server)) = Z.of_nat k).
  { unfold len. rewrite length_take. lia. }
  assert (Hshort : len (take k (body server)) < len (body server)).
  { rewrite Hlen. unfold len. lia. }
  split.
  - intros Hcase.
    destruct (Z.le_gt_cases (len (take k (body server)) - BLOCK_SIZE) 0) as [Hle|Hgt].
    + rewrite resume_short; [done..|].
      intros Hneg. destruct Hcase as [Hblock|Hignores]; [lia|done].
    + rewrite resume_match; [| done | done | done | done |].
      * cbn [fst snd file]. split; [done|]. f_equal.
        rewrite Hlen, Nat2Z.id. apply take_drop.
      * unfold overlap_matches. rewrite Hlen. unfold BLOCK_SIZE in *.
        rewrite take_drop_commute. f_equal. f_equal. lia.
  - intros Hsmall Hrefuses.
    rewrite resume_refused; [|done|done|done|lia|done].
    cbn [fst snd file trace]. by rewrite Hlen.
Qed.

Lemma download_video_completes_witness :
  (let out := download_video opts_default (sample_server 1030) 2
                (world_init (Some (take 1026 (sample_body 1030)))) in
   fst out = Ok tt /\ file (snd out) = Some (sample_body 1030))
  /\ (let out := download_video opts_default (sample_server 1030) 2
                   (world_init (Some (take 5 (sample_body 1030)))) in
      fst out = Raise HTTPError
      /\ file (snd out) = Some (take 5 (sample_body 1030))
      /\ trace (snd out) = [Head; Open Rb; Get (-1019)]).
Proof.
  assert (Hlong : (1026 < length (body (sample_server 1030)))%nat)
    by (apply Nat.ltb_lt; vm_compute; reflexivity).
  assert (Hshort : (5 < length (body (sample_server 1030)))%nat)
    by (apply Nat.ltb_lt; vm_compute; reflexivity).
  split.
  - apply (proj1 (download_video_completes opts_default (sample_server 1030) 1026 [] 0 2
                    eq_refl eq_refl Hlong (le_n 2))).
    left. vm_compute. discriminate.
  - apply (proj2 (download_video_completes opts_default (sample_server 1030) 5 [] 0 2
                    eq_refl eq_refl Hshort (le_n 2))); reflexivity.
Defined.

(** X22. Running [download_video] again after a complete single-stream
    download changes nothing: the second run sends the HEAD request,
    opens the file to read its size and returns; the file is the remote
    content as before and no GET is sent. *)
Theorem download_video_again (cmdl_opts : cmdl_opts_t) (server : remote)
    (tr : list event) (pg : Z) :
  threads cmdl_opts = None -> up server = true -> 0 < len (body server) ->
  let first_run := download_video cmdl_opts server 1
                     {| file := None; trace := tr; progress := pg |} in
  let second_run := download_video cmdl_opts server 1 (snd first_run) in
  fst first_run = Ok tt
  /\ fst second_run = Ok tt
  /\ file (snd second_run) = Some (body server)
  /\ trace (snd second_run) = trace (snd first_run) ++ [Head; Open Rb].
Proof.
  intros Hthreads Hup Hlen first_run second_run. subst second_run first_run.
  rewrite download_video_fresh by done. cbn [fst snd].
  cbn [download_video]. run_world. rewrite Hup, Hthreads.
  destruct (Z.ltb_spec (len (body server)) (len (body server))); [lia|].
  cbn. by rewrite <- !app_assoc.
Qed.

Lemma download_video_again_witness :
  let first_run := download_video opts_default stale_server 1 (world_init None) in
  let second_run := download_video opts_default stale_server 1 (snd first_run) in
  fst first_run = Ok tt
  /\ fst second_run = Ok tt
  /\ file (snd second_run) = Some (body stale_server)
  /\ trace (snd second_run) = trace (snd first_run) ++ [Head; Open Rb].
Proof.
  apply (download_video_again opts_default stale_server [] 0); reflexivity.
Defined.

(** X23. The ranges of a multithreaded transfer, for content that is
    not empty and has at least [threads * (threads - 1)] bytes and fewer
    than 2^53. The bounds [(start, end)] the loop hands to the threads
    follow one another from 0 to the content length, one pair for each
    thread, and all pairs but the last are [ceil(video_len / threads)]
    apart, the ceiling being exact. A pair is requested as
    [bytes=start-end], the byte at [end] included: the answer to a
    request before the last one has [end - start + 1] bytes, one more
    than the pair spans, so that two requests that follow each other
    both bring the byte at [end]; the answer to the last request has the
    bytes from its start to the end of the content. *)
Theorem partitions_cover (server : remote) (threads_ : Z) :
  0 < threads_ -> 0 < len (body server) ->
  threads_ * (threads_ - 1) <= len (body server) -> len (body server) < 2 ^ 53 ->
  let video_len := len (body server) in
  let parts := partitions video_len threads_ in
  tiles 0 video_len parts
  /\ sized (- ((- video_len) / threads_)) parts
  /\ length parts = Z.to_nat threads_
  /\ (forall (i : nat) (start end_ : Z),
        parts !! i = Some (start, end_) ->
        exists data,
          serve_range server start end_ = Some data
          /\ len data = end_ - start
                        + (if bool_decide (S i < length parts)%nat then 1 else 0)).
Proof.
  intros Hn Hlen Hbig Hsmall video_len parts. subst video_len parts.
  pose proof (threads_bound _ _ Hn Hbig Hsmall) as Hthreads.
  pose proof (ceil_div_nonneg (len (body server)) threads_ ltac:(lia) Hn) as Hpart.
  assert (Hfit : ceil_div (len (body server)) threads_ * (threads_ - 1)
                 < len (body server)).
  { destruct (Z.eq_dec threads_ 1) as [->|?]; [lia|].
    apply partitions_fit_strict; [lia|done|done]. }
  destruct (partitions_tile (len (body server)) threads_ Hn ltac:(lia) ltac:(lia))
    as (Htiles & Hsized & Hlength).
  split_and!; [done| |done|].
  - by rewrite <- ceil_div_exact by lia.
  - intros i start end_ Hi.
    pose proof (partitions_good (len (body server)) threads_ Hn ltac:(lia) Hfit)
      as Hgood.
    rewrite Forall_lookup in Hgood. destruct (Hgood i _ Hi) as [Hstart Hend].
    cbn [fst snd] in Hstart, Hend.
    destruct (serve_range_len server start end_ Hstart Hend) as (data & Hdata & Hl).
    exists data. split; [done|]. rewrite Hl, Hlength.
    apply partitions_lookup in Hi as [Hlt Hb]. unfold part_bounds in Hb.
    destruct (Z.eqb_spec (Z.of_nat i) (threads_ - 1)) as [Heq|Hneq];
      injection Hb as -> ->.
    + rewrite bool_decide_eq_false_2 by lia. lia.
    + rewrite bool_decide_eq_true_2 by lia. nia.
Qed.

Lemma partitions_cover_witness :
  let parts := partitions 1000 4 in
  tiles 0 1000 parts
  /\ sized 250 parts
  /\ length parts = 4%nat
  /\ (forall (i : nat) (start end_ : Z),
        parts !! i = Some (start, end_) ->
        exists data,
          serve_range (sample_server 1000) start end_ = Some data
          /\ len data = end_ - start
                        + (if bool_decide (S i < length parts)%nat then 1 else 0)).
Proof.
  assert (Hlen : len (body (sample_server 1000)) = 1000) by (vm_compute; reflexivity).
  pose proof (partitions_cover (sample_server 1000) 4) as H.
  rewrite Hlen in H. apply H; lia.
Defined.

Lemma write_at_length (pos : nat) (data f : list byte) :
  length (write_at pos data f) = (length f `max` (pos + length data))%nat.
Proof.
  unfold write_at. rewrite !length_app, length_take, length_replicate, length_drop. lia.
Qed.

Lemma write_at_app (pos : nat) (a b f : list byte) :
  write_at (pos + length a) b (write_at pos a f) = write_at pos (a ++ b) f.
Proof.
  set (prefix := take pos f ++ replicate (pos - length f) x00).
  assert (Hprefix : length prefix = pos).
  { subst prefix. rewrite length_app, length_take, length_replicate. lia. }
  assert (Hg : write_at pos a f = (prefix ++ a) ++ drop (pos + length a) f).
  { unfold write_at. subst prefix. by rewrite <- !app_assoc. }
  assert (Hab : write_at pos (a ++ b) f
                = (prefix ++ a) ++ b ++ drop (pos + length a + length b) f).
  { unfold write_at. subst prefix.
    by rewrite length_app, <- !app_assoc, Nat.add_assoc. }
  rewrite Hab, Hg. unfold write_at.
  rewrite take_app_length' by (rewrite length_app; lia).
  rewrite (drop_app_add' (prefix ++ a) _ (pos + length a) (length b))
    by (rewrite length_app; lia).
  rewrite drop_drop.
  replace (pos + length a - length ((prefix ++ a) ++ drop (pos + length a) f))%nat
    with 0%nat by (rewrite !length_app; lia).
  done.
Qed.

Section WorkersFile.

Variable server : remote.
Hypothesis server_up : up server = true.

Lemma part_loop_exact (blocks : list (list byte)) (pos : Z) (f : list byte)
    (tr : list event) (pg : Z) :
  0 <= pos <= len f ->
  part_loop pos blocks {| file := Some f; trace := tr; progress := pg |}
  = (Ok tt, {| file := Some (write_at (Z.to_nat pos) (concat blocks) f); trace := tr;
               progress := pg + len (concat blocks) |}).
Proof.
  revert pos f pg. induction blocks as [|block blocks IH]; intros pos f pg Hpos.
  - simpl. run_world. rewrite Z.add_0_r. do 3 f_equal.
    unfold write_at, len in *.
    replace (Z.to_nat pos - length f)%nat with 0%nat by lia.
    cbn [replicate app length]. by rewrite Nat.add_0_r, take_drop.
  - cbn [part_loop]. run_world. rewrite IH.
    + rewrite concat_cons, len_app, Z.add_assoc. do 3 f_equal.
      rewrite <- write_at_app. f_equal. unfold len. lia.
    + unfold len in *. rewrite write_at_length. lia.
Qed.

Lemma download_video_part_exact (start end_ : Z) (f : list byte)
    (tr : list event) (pg : Z) :
  0 <= start < len (body server) -> start <= end_ -> start <= len f ->
  download_video_part server start end_
    {| file := Some f; trace := tr; progress := pg |}
  = (Ok tt,
     {| file := Some (write_at (Z.to_nat start)
                        (take (Z.to_nat (Z.min end_ (len (body server) - 1) - start + 1))
                              (drop (Z.to_nat start) (body server))) f);
        trace := tr ++ [GetRange start end_; Open RPlusB];
        progress := pg + part_delta (len (body server)) (start, end_) |}).
Proof.
  intros Hstart Hend Hf. unfold download_video_part. run_world.
  rewrite server_up. unfold serve_range.
  destruct (Z.ltb_spec start 0); [lia|].
  destruct (Z.ltb_spec end_ start); [lia|]. cbn [orb].
  destruct (Z.leb_spec (len (body server)) start); [lia|].
  rewrite part_loop_exact by lia. rewrite iter_content_concat, <- app_assoc.
  cbn [app]. f_equal. f_equal. unfold part_delta. cbn [fst snd].
  rewrite len_take. unfold len in *. rewrite length_drop. lia.
Qed.

(** A range written over a file that holds the first [c] bytes of the
    content and zeros after them. *)
Lemma write_at_cover (c s k : nat) :
  (s <= c)%nat -> (c <= s + k)%nat -> (s + k <= length (body server))%nat ->
  write_at s (take k (drop s (body server)))
    (take c (body server) ++ replicate (length (body server) - c) x00)
  = take (s + k) (body server) ++ replicate (length (body server) - (s + k)) x00.
Proof.
  intros Hs Hc Hk. unfold write_at.
  rewrite take_app_le by (rewrite length_take; lia).
  rewrite take_take, Nat.min_l by lia.
  rewrite length_app, length_take, length_replicate.
  replace (s - (c `min` length (body server) + (length (body server) - c)))%nat
    with 0%nat by lia.
  cbn [replicate app].
  rewrite length_take, length_drop, Nat.min_l by lia.
  rewrite drop_app_ge by (rewrite length_take; lia).
  rewrite length_take, drop_replicate, app_assoc, take_take_drop.
  do 2 f_equal. lia.
Qed.

Lemma dispatch_exact (parts : list (Z * Z)) (lo c : Z) (tr : list event) (pg : Z) :
  parts <> [] -> tiles lo (len (body server)) parts ->
  Forall (fun p => fst p < len (body server)) parts ->
  0 <= lo <= c -> c <= lo + 1 -> c <= len (body server) ->
  exists tr',
    dispatch server parts
      {| file := Some (take (Z.to_nat c) (body server)
                       ++ replicate (length (body server) - Z.to_nat c) x00);
         trace := tr; progress := pg |}
    = (Ok tt, {| file := Some (body server); trace := tr';
                 progress := pg + total_delta (len (body server)) parts |}).
Proof.
  revert lo c tr pg.
  induction parts as [|[start end_] parts IH]; intros lo c tr pg Hne Htiles Hin Hlo Hc HcL;
    [done|].
  cbn [tiles] in Htiles. destruct Htiles as (-> & Hle & Htiles).
  apply Forall_cons in Hin as [Hstart Hin]. cbn [fst] in Hstart.
  cbn [dispatch]. unfold run_thread. run_world.
  rewrite download_video_part_exact; [|lia|lia|].
  2:{ unfold len. rewrite length_app, length_take, length_replicate.
      unfold len in *. lia. }
  cbn [snd].
  set (k := Z.to_nat (Z.min end_ (len (body server) - 1) - lo + 1)).
  rewrite (write_at_cover (Z.to_nat c) (Z.to_nat lo) k);
    [|unfold len in *; lia..].
  cbn [total_delta foldr]. fold (total_delta (len (body server)) parts).
  destruct parts as [|[start' end'] parts'].
  - cbn [tiles] in Htiles. subst end_. exists (tr ++ [GetRange lo (len (body server)); Open RPlusB]).
    cbn [dispatch total_delta foldr]. run_world.
    replace (Z.to_nat lo + k)%nat with (length (body server)) by (unfold len in *; lia).
    rewrite take_ge, Nat.sub_diag, app_nil_r by lia. by rewrite Z.add_0_r.
  - pose proof Htiles as Htiles'. cbn [tiles] in Htiles'. destruct Htiles' as (-> & _ & _).
    pose proof Hin as Hin'. apply Forall_cons in Hin' as [Hend _]. cbn [fst] in Hend.
    replace (Z.to_nat lo + k)%nat with (Z.to_nat (end_ + 1)) by (unfold len in *; lia).
    destruct (IH end_ (end_ + 1) (tr ++ [GetRange lo end_; Open RPlusB])
                (pg + part_delta (len (body server)) (lo, end_)))
      as (tr' & ->); [done|done|done|lia|lia|unfold len in *; lia|].
    exists tr'. by rewrite Z.add_assoc.
Qed.

End WorkersFile.

(** X24. A multithreaded transfer whose ranges before the last one fit
    in the content (the content has at least [threads * (threads - 1)]
    bytes, say): the download threads all end without exception, and
    when they have the file is the remote content whatever was in it
    before, and the counter is one less than the content length. *)
Theorem multithread_transfer (cmdl_opts : cmdl_opts_t) (server : remote)
    (threads_ : Z) (w : world) (depth : nat) :
  threads cmdl_opts = Some threads_ -> up server = true -> 0 < threads_ ->
  ceil_div (len (body server)) threads_ * (threads_ - 1) < len (body server) ->
  let out := download_video cmdl_opts server (S depth) w in
  fst out = Ok tt
  /\ file (snd out) = Some (body server)
  /\ progress (snd out) = len (body server) - 1.
Proof.
  intros Hthreads Hup Hn Hfit out. subst out. destruct w as [f0 tr0 pg0].
  pose proof (len_nonneg (body server)) as Hlen.
  cbn [download_video]. run_world. rewrite Hup, Hthreads.
  destruct (Z.leb_spec threads_ 0); [lia|].
  pose proof (partitions_good _ _ Hn Hlen Hfit) as Hgood.
  destruct (partitions_tile _ _ Hn Hlen ltac:(lia)) as (Htiles & _ & Hlength).
  assert (Hne : partitions (len (body server)) threads_ <> []).
  { intros Hnil. rewrite Hnil in Hlength. simpl in Hlength. lia. }
  assert (Hin : Forall (fun p => fst p < len (body server))
                       (partitions (len (body server)) threads_)).
  { eapply Forall_impl; [exact Hgood|]. intros p [? _]. lia. }
  destruct (dispatch_exact server Hup _ 0 0
              ((tr0 ++ [Head]) ++ [Open Wb]) 0 Hne Htiles Hin)
    as (tr' & Hdispatch); [lia..|].
  change (Z.to_nat 0) with 0%nat in Hdispatch.
  rewrite take_0, Nat.sub_0_r in Hdispatch. cbn [app] in Hdispatch.
  rewrite len_nat, Hdispatch.
  cbn [fst snd file progress]. split_and!; [done|done|].
  rewrite (total_delta_tiles _ 0) by done. lia.
Qed.

Lemma multithread_transfer_witness :
  let out := download_video (opts_threads 4) (sample_server 1000) 1
               (world_init (Some stale_file)) in
  fst out = Ok tt
  /\ file (snd out) = Some (sample_body 1000)
  /\ progress (snd out) = len (sample_body 1000) - 1.
Proof.
  apply (multithread_transfer (opts_threads 4) (sample_server 1000) 4
           (world_init (Some stale_file)) 0).
  - reflexivity.
  - reflexivity.
  - lia.
  - vm_compute. reflexivity.
Defined.

(** ** The counter without interleaving *)

Lemma step_thread_at (sh sh' : Progress.shared) (c c' : Progress.call)
    (before after : list Progress.call) :
  Progress.step_call sh c = Some (sh', c') ->
  Progress.step_thread (length before) (sh, before ++ c :: after)
  = Some (sh', before ++ c' :: after).
Proof.
  intros Hstep. unfold Progress.step_thread. cbn [fst snd].
  rewrite list_lookup_middle by done. cbn [mbind option_bind].
  rewrite Hstep. cbn [mbind option_bind].
  rewrite insert_app_r_alt by done. by rewrite Nat.sub_diag.
Qed.

Lemma run_app (s1 s2 : list nat) (st : Progress.state) :
  Progress.run (s1 ++ s2) st = st' ← Progress.run s1 st; Progress.run s2 st'.
Proof.
  revert st. induction s1 as [|i s1 IH]; intros st; [done|].
  cbn [app Progress.run]. destruct (Progress.step_thread i st); [apply IH|done].
Qed.

Lemma run_one_call (sh : Progress.shared) (d : Z) (before after : list Progress.call) :
  Progress.held sh = ∅ ->
  Progress.run (replicate 5 (length before)) (sh, before ++ Progress.enter d :: after)
  = Some ({| Progress.next_lock := S (Progress.next_lock sh);
             Progress.held := ∅;
             Progress.progress := Progress.progress sh + d |},
          before ++ finished d :: after).
Proof.
  intros Hheld. destruct sh as [next held_ pg]. cbn in Hheld. subst held_.
  cbn [replicate Progress.run].
  erewrite step_thread_at by (cbn; reflexivity). cbn [mbind option_bind].
  erewrite step_thread_at
    by (cbn; rewrite decide_False by apply not_elem_of_empty; reflexivity).
  cbn [mbind option_bind].
  do 3 (erewrite step_thread_at by (cbn; reflexivity); cbn [mbind option_bind]).
  cbn. unfold finished. do 3 f_equal.
  by rewrite (right_id_L ∅ (∪)), difference_diag_L.
Qed.

Lemma run_serial_from (todo : list Z) (sh : Progress.shared)
    (before : list Progress.call) :
  Progress.held sh = ∅ ->
  Progress.run (serial_from (length before) (length todo))
    (sh, before ++ map Progress.enter todo)
  = Some ({| Progress.next_lock := Progress.next_lock sh + length todo;
             Progress.held := ∅;
             Progress.progress := Progress.progress sh + sum_deltas todo |},
          before ++ map finished todo).
Proof.
  revert sh before. induction todo as [|d todo IH]; intros sh before Hheld.
  - destruct sh as [next held_ pg]. cbn in Hheld. subst held_. cbn.
    do 3 f_equal; [lia|lia].
  - unfold serial_from. cbn [length seq map concat].
    rewrite run_app, run_one_call by done.
    cbn [mbind option_bind map].
    replace (before ++ finished d :: map Progress.enter todo)
      with ((before ++ [finished d]) ++ map Progress.enter todo)
      by (by rewrite <- app_assoc).
    replace (S (length before)) with (length (before ++ [finished d]))
      by (rewrite length_app; cbn; lia).
    fold (serial_from (length (before ++ [finished d])) (length todo)).
    rewrite IH by done. cbn [Progress.next_lock Progress.progress sum_deltas foldr].
    rewrite <- app_assoc. cbn [app]. do 3 f_equal; [lia|].
    fold (sum_deltas todo). lia.
Qed.

(** X25. Without interleaving the counter adds up: when every call of
    [update_multithread_progress] makes its five steps before the next
    one begins, all calls return, no lock is left held, as many locks
    have been made as there were calls, and the counter has grown by the
    sum of the lengths given. *)
Theorem update_multithread_progress_serial (deltas : list Z) :
  Progress.run (serial_schedule (length deltas)) (Progress.init deltas)
  = Some ({| Progress.next_lock := length deltas;
             Progress.held := ∅;
             Progress.progress := sum_deltas deltas |},
          map finished deltas).
Proof.
  unfold serial_schedule, Progress.init.
  exact (run_serial_from deltas
           {| Progress.next_lock := 0; Progress.held := ∅; Progress.progress := 0 |}
           [] eq_refl).
Qed.

(** ** The reporter after the transfer *)

Lemma show_multithread_progress_short (display : Z -> Z -> option err)
    (video_len : Z) (w : world) (fuel : nat) :
  progress w < video_len ->
  show_multithread_progress display fuel video_len w <> Some (Done tt).
Proof.
  intros Hshort. induction fuel as [|fuel IH]; [done|].
  cbn [show_multithread_progress].
  destruct (display (progress w) video_len); [done|].
  by destruct (Z.leb_spec video_len (progress w)); [lia|].
Qed.

(** X26. The reporter after the download threads. Under the conditions
    of X24 the counter the download threads leave is short of the
    content length, so the loop of [show_multithread_progress], run on
    what they leave, does not end normally however many turns it makes:
    it goes on, or ends with an exception of the display. With one more
    byte counted and a display that raises nothing it ends at its first
    turn. *)
Theorem show_multithread_progress_waits (display : Z -> Z -> option err)
    (cmdl_opts : cmdl_opts_t) (server : remote) (threads_ : Z) (w : world)
    (depth : nat) :
  threads cmdl_opts = Some threads_ -> up server = true -> 0 < threads_ ->
  ceil_div (len (body server)) threads_ * (threads_ - 1) < len (body server) ->
  let out := download_video cmdl_opts server (S depth) w in
  (forall fuel,
     show_multithread_progress display fuel (len (body server)) (snd out)
     <> Some (Done tt))
  /\ (forall w' fuel,
        progress w' = progress (snd out) + 1 ->
        display (progress w') (len (body server)) = None ->
        show_multithread_progress display (S fuel) (len (body server)) w'
        = Some (Done tt)).
Proof.
  intros Hthreads Hup Hn Hfit out.
  destruct (multithread_progress cmdl_opts server threads_ w depth
              Hthreads Hup Hn Hfit) as [_ Hprogress].
  fold out in Hprogress. split.
  - intros fuel. apply show_multithread_progress_short. lia.
  - intros w' fuel Hw' Hquiet. cbn [show_multithread_progress].
    rewrite Hquiet.
    by destruct (Z.leb_spec (len (body server)) (progress w')); [|lia].
Qed.

Lemma show_multithread_progress_waits_witness :
  show_multithread_progress quiet_display 5 (len (sample_body 1000))
    (snd (download_video (opts_threads 4) (sample_server 1000) 1 (world_init None)))
  <> Some (Done tt).
Proof.
  apply (proj1 (show_multithread_progress_waits quiet_display (opts_threads 4)
                  (sample_server 1000) 4 (world_init None) 0
                  eq_refl eq_refl ltac:(lia) ltac:(vm_compute; reflexivity))).
Defined.
